(** * A shallow embedding of the opencoin core (Go) and its checked properties.

    Covered source files:
    - pkg/rc/rc.go             : ValidateGenesis, EffectiveTime, Median, RCMax,
                                 Regen, Cost
    - pkg/consensus/dpos.go    : RegisterValidator, Delegate, Undelegate,
                                 SlashDoubleSign, SlashOffline, ValidatorSet,
                                 GetValidator
    - pkg/consensus/qc.go      : VerifyQC
    - pkg/consensus/hotstuff.go: ProposeBlock, tryBuildQC,
                                 isExpectedProposerLocked
    - pkg/state/state.go       : applyTransactionWithKV
    - pkg/state/codec.go       : marshalAccount, unmarshalAccount
    - pkg/state/store.go       : encodeTimestamps, decodeTimestamps
    - pkg/tx/verify.go         : ResolveSenderPubKey
    - pkg/tx/payload_encoding.go: EncodePayload, DecodePayload and the
                                 per-kind encoders and decoders
    - pkg/mempool/mempool.go   : AddTx, SelectForBlock, txHeap
    - the protowire primitives these encoders and decoders call

    Go's fixed-width integers are modelled as [Z] with their wrap-around
    written out ([u64] and [i64] below). *)

From Stdlib Require Import ZArith Lia Bool Sorting.Sorted Permutation.
From stdpp Require Import base list gmap strings sorting.

Open Scope Z_scope.

(* ------------------------------------------------------------------ *)
(** ** Machine integers *)

Definition U64_MAX : Z := 2 ^ 64 - 1.

(** Go [uint64] arithmetic wraps modulo 2^64. *)
Definition u64 (z : Z) : Z := z mod 2 ^ 64.

(** Go [int64] arithmetic wraps into [-2^63, 2^63). *)
Definition i64 (z : Z) : Z :=
  let m := z mod 2 ^ 64 in if 2 ^ 63 <=? m then m - 2 ^ 64 else m.

Definition in_i64 (z : Z) : Prop := - 2 ^ 63 <= z < 2 ^ 63.

(* ------------------------------------------------------------------ *)
(** ** pkg/rc/rc.go *)
Module RC.

Record Params := mkParams {
  Alpha : Z; Beta : Z; CSize : Z; CCompute : Z; CStorage : Z;
  MaxSkewSec : Z; WindowN : Z
}.

Definition within (v lo hi : Z) : bool := (lo <=? v) && (v <=? hi).

(** [Params.ValidateGenesis]: [true] when no error is returned. *)
Definition ValidateGenesis (p : Params) : bool :=
  within (Alpha p) 1 1000000 && within (Beta p) 1 1000000 &&
  within (CSize p) 1 1000000 && within (CCompute p) 1 1000000 &&
  within (CStorage p) 1 1000000 && (1 <=? WindowN p) && (0 <=? MaxSkewSec p).

(** [sort.Slice(cp, less)] on int64 values: the sorted result is unique. *)
Fixpoint insert_sorted (x : Z) (l : list Z) : list Z :=
  match l with
  | [] => [x]
  | y :: r => if x <? y then x :: y :: r else y :: insert_sorted x r
  end.

Fixpoint sort_i64 (l : list Z) : list Z :=
  match l with
  | [] => []
  | x :: r => insert_sorted x (sort_i64 r)
  end.

(** [Median]: lower middle element on even counts, 0 on an empty slice. *)
Definition Median (ts : list Z) : Z :=
  match ts with
  | [] => 0
  | _ =>
      let cp := sort_i64 ts in
      let m := (length cp / 2)%nat in
      if Nat.odd (length cp) then nth m cp 0 else nth (m - 1) cp 0
  end.

(** [EffectiveTime]; [median - maxSkew] and [median + maxSkew] are int64
    expressions in the source. *)
Definition EffectiveTime (blockTimestamp : Z) (lastTimestamps : list Z)
    (maxSkew : Z) : Z :=
  match lastTimestamps with
  | [] => blockTimestamp
  | _ =>
      let median := Median lastTimestamps in
      let min := i64 (median - maxSkew) in
      let max := i64 (median + maxSkew) in
      if blockTimestamp <? min then min
      else if max <? blockTimestamp then max
      else blockTimestamp
  end.

(** [RCMax]: [alpha * stake], saturating at [U64_MAX]. *)
Definition RCMax (p : Params) (stake : Z) : Z :=
  if (stake =? 0) || (Alpha p =? 0) then 0
  else if U64_MAX / Alpha p <? stake then U64_MAX
  else Alpha p * stake.

(** [Regen]; returns [(rc, newEffectiveTime)].  [dt] is an int64
    subtraction in the source. *)
Definition Regen (p : Params) (currentRC stake lastEffectiveTime
    newEffectiveTime : Z) : Z * Z :=
  if stake =? 0 then (0, newEffectiveTime) else
  let dt := i64 (newEffectiveTime - lastEffectiveTime) in
  let dt := if dt <? 0 then 0 else dt in
  let regen := dt in
  let regen :=
    if negb (Beta p =? 0) then
      let regen := if U64_MAX / Beta p <? regen then U64_MAX
                   else regen * Beta p in
      if 0 <? stake then
        (if U64_MAX / stake <? regen then U64_MAX else regen * stake)
      else regen
    else regen in
  let rc := currentRC in
  let rc := if 0 <? regen then
              (if U64_MAX - regen <? rc then U64_MAX else rc + regen)
            else rc in
  let rcMax := RCMax p stake in
  let rc := if rcMax <? rc then rcMax else rc in
  (rc, newEffectiveTime).

(** [Cost]: the local closure [add] accumulating into [total]. *)
Definition cost_add (total a b : Z) : Z :=
  if (a =? 0) || (b =? 0) then total
  else if U64_MAX / a <? b then U64_MAX
  else if U64_MAX - a * b <? total then U64_MAX
  else total + a * b.

Definition Cost (p : Params) (sizeBytes wasmInstructions stateWrites : Z) : Z :=
  let total := cost_add 0 (CSize p) sizeBytes in
  let total := cost_add total (CCompute p) wasmInstructions in
  cost_add total (CStorage p) stateWrites.

(** Spec-side reading of the regeneration formula, with unbounded
    integer time difference and saturating u64 products and sum. *)
Definition sat (z : Z) : Z := Z.min z U64_MAX.

Definition regen_formula (p : Params) (rc stake t_last t_new : Z) : Z :=
  let regen := sat (sat (Z.max 0 (t_new - t_last) * Beta p) * stake) in
  Z.min (sat (rc + regen)) (sat (Alpha p * stake)).

End RC.

(* ------------------------------------------------------------------ *)
(** ** pkg/consensus/dpos.go ([DPoS]) *)
Module DPoS.

Record Validator := mkValidator {
  OperatorAddress : string;
  ConsensusPubKey : list Byte.byte;
  Power : Z;
  Stake : Z;
  Delegations : gmap string Z;
  Commission : Z;
  Index : Z;
  JailedUntilEpoch : Z
}.

(** [d.validators]: a Go map from address to validator. *)
Abbreviation validators := (gmap string Validator).

Inductive err := ErrValidatorNotFound (a : string).

(** [SlashDoubleSign]: the error result and the validator map afterwards
    (the source mutates the validator record in place). *)
Definition SlashDoubleSign (d : validators) (validator : string)
    (slashBps jailEpochs currentEpoch : Z) : option err * validators :=
  match d !! validator with
  | None => (Some (ErrValidatorNotFound validator), d)
  | Some v =>
      let slashAmount := u64 (Stake v * slashBps) / 10000 in
      let stake := if slashAmount <=? Stake v then Stake v - slashAmount
                   else Stake v in
      let v' := {| OperatorAddress := OperatorAddress v;
                   ConsensusPubKey := ConsensusPubKey v;
                   Power := stake;
                   Stake := stake;
                   Delegations := Delegations v;
                   Commission := Commission v;
                   Index := Index v;
                   JailedUntilEpoch := u64 (currentEpoch + jailEpochs) |} in
      (None, <[validator := v']> d)
  end.

(** [SlashOffline] delegates to [SlashDoubleSign]. *)
Definition SlashOffline (d : validators) (validator : string)
    (slashBps jailEpochs currentEpoch : Z) : option err * validators :=
  SlashDoubleSign d validator slashBps jailEpochs currentEpoch.

End DPoS.

(* ------------------------------------------------------------------ *)
(** ** pkg/consensus/dpos.go ([DPoS]): registration, delegation and the
    validator set *)
Module DPoSOps.
Import DPoS.

(** The errors of these methods, one per [fmt.Errorf]. *)
Inductive op_err :=
| ErrStakeBelowMinimum
| ErrAlreadyRegistered
| ErrMaxValidators
| ErrNotFound
| ErrZeroAmount
| ErrInsufficientDelegation.

(** [RegisterValidator]; [uint32(len(d.validators))] wraps modulo 2^32.
    The fields not set by the literal ([Index], [JailedUntilEpoch]) are 0. *)
Definition RegisterValidator (minStake maxValidators : Z) (d : validators)
    (address : string) (publicKey : list Byte.byte) (stake commission : Z)
    : option op_err * validators :=
  if stake <? minStake then (Some ErrStakeBelowMinimum, d) else
  match d !! address with
  | Some _ => (Some ErrAlreadyRegistered, d)
  | None =>
      if maxValidators <=? Z.of_nat (size d) mod 2 ^ 32 then (Some ErrMaxValidators, d)
      else (None, <[address := {| OperatorAddress := address;
                                  ConsensusPubKey := publicKey;
                                  Power := stake;
                                  Stake := stake;
                                  Delegations := ∅;
                                  Commission := commission;
                                  Index := 0;
                                  JailedUntilEpoch := 0 |}]> d)
  end.

(** A Go map read: the zero value for a missing key. *)
Definition delegation (v : Validator) (delegator : string) : Z :=
  default 0 (Delegations v !! delegator).

Definition with_delegation_power (v : Validator) (delegator : string)
    (amount power : Z) : Validator :=
  {| OperatorAddress := OperatorAddress v;
     ConsensusPubKey := ConsensusPubKey v;
     Power := power;
     Stake := Stake v;
     Delegations := <[delegator := amount]> (Delegations v);
     Commission := Commission v;
     Index := Index v;
     JailedUntilEpoch := JailedUntilEpoch v |}.

(** [Delegate]: [v.Delegations[delegator] += amount; v.Power += amount]
    on uint64 values, through the stored pointer. *)
Definition Delegate (d : validators) (delegator validator : string) (amount : Z)
    : option op_err * validators :=
  match d !! validator with
  | None => (Some ErrNotFound, d)
  | Some v =>
      if amount =? 0 then (Some ErrZeroAmount, d)
      else (None, <[validator := with_delegation_power v delegator
                                   (u64 (delegation v delegator + amount))
                                   (u64 (Power v + amount))]> d)
  end.

(** [Undelegate]: [v.Delegations[delegator] -= amount; v.Power -= amount]. *)
Definition Undelegate (d : validators) (delegator validator : string) (amount : Z)
    : option op_err * validators :=
  match d !! validator with
  | None => (Some ErrNotFound, d)
  | Some v =>
      let delegated := delegation v delegator in
      if delegated <? amount then (Some ErrInsufficientDelegation, d)
      else (None, <[validator := with_delegation_power v delegator
                                   (u64 (delegated - amount))
                                   (u64 (Power v - amount))]> d)
  end.

(** [GetValidator]: a copy of the stored record, or nil. *)
Definition GetValidator (d : validators) (address : string) : option Validator :=
  d !! address.

(** The [sort.Slice] comparator of [ValidatorSet]: power descending,
    then address ascending (Go compares strings bytewise). *)
Definition less (v w : Validator) : bool :=
  if Power v =? Power w
  then match String.compare (OperatorAddress v) (OperatorAddress w) with
       | Lt => true | _ => false end
  else Power w <? Power v.

Fixpoint insert_by (x : Validator) (l : list Validator) : list Validator :=
  match l with
  | [] => [x]
  | y :: r => if less x y then x :: y :: r else y :: insert_by x r
  end.

Definition sort_validators (l : list Validator) : list Validator :=
  fold_right insert_by [] l.

Definition with_index (v : Validator) (i : Z) : Validator :=
  {| OperatorAddress := OperatorAddress v;
     ConsensusPubKey := ConsensusPubKey v;
     Power := Power v;
     Stake := Stake v;
     Delegations := Delegations v;
     Commission := Commission v;
     Index := i;
     JailedUntilEpoch := JailedUntilEpoch v |}.

(** [types.ValidatorSet] as built by [DPoS.ValidatorSet]. *)
Record VSet := mkVSet {
  VValidators : list Validator;
  VTotalPower : Z;
  VIndexByAddr : gmap string Z
}.

(** [for i, v := range validators { v.Index = uint32(i); index[v.Address] = uint32(i) }] *)
Fixpoint assign_index (i : Z) (l : list Validator) : list Validator :=
  match l with
  | [] => []
  | v :: r => with_index v (i mod 2 ^ 32) :: assign_index (i + 1) r
  end.

Fixpoint index_map (i : Z) (l : list Validator) (m : gmap string Z) : gmap string Z :=
  match l with
  | [] => m
  | v :: r => index_map (i + 1) r (<[OperatorAddress v := i mod 2 ^ 32]> m)
  end.

(** The body of [ValidatorSet] for one iteration order [vs] of the map:
    copy, sum the powers in uint64, sort, number. *)
Definition validator_set_of (vs : list Validator) : VSet :=
  let totalPower := fold_left (fun t v => u64 (t + Power v)) vs 0 in
  let sorted := sort_validators vs in
  {| VValidators := assign_index 0 sorted;
     VTotalPower := totalPower;
     VIndexByAddr := index_map 0 sorted ∅ |}.

(** [ValidatorSet], iterating the map in the order of [map_to_list]. *)
Definition ValidatorSet (d : validators) : VSet :=
  validator_set_of (map snd (map_to_list d)).

(** Every validator is stored under its own address. *)
Definition keyed (d : validators) : Prop :=
  map_Forall (fun k v => OperatorAddress v = k) d.

End DPoSOps.

(* ------------------------------------------------------------------ *)
(** ** Shared types (pkg/types) *)
Module Types.

Abbreviation bytes := (list Byte.byte).

#[global] Instance byte_eq_dec : EqDecision Byte.byte := Byte.byte_eq_dec.

(** [types.Hash] is a 32-byte array. *)
Abbreviation Hash := bytes.

Definition zero_hash : Hash := repeat Byte.x00 32.

Record Transaction := mkTx {
  From : string;
  To : string;
  Nonce : Z;
  Payload : bytes;
  Signature : bytes
}.

Record Block := mkBlock {
  Height : Z;
  PrevHash : Hash;
  StateRoot : Hash;
  Timestamp : Z;
  Proposer : string;
  Transactions : list Transaction;
  ValidatorSigs : list bytes
}.

Record Proposal := mkProposal {
  PBlock : Block;
  PRound : Z;
  ProposerSig : bytes
}.

Record PrecommitVote := mkVote {
  VBlockHash : Hash;
  VHeight : Z;
  VRound : Z;
  VValidator : string;
  VSignature : bytes
}.

Record QuorumCertificate := mkQC {
  QBlockHash : Hash;
  QHeight : Z;
  QRound : Z;
  SigBitmap : list Z;          (** bytes, each in [0, 256) *)
  Signatures : list bytes
}.

(** The fields of a consensus validator read by qc.go and hotstuff.go. *)
Record Validator := mkValidator {
  Address : string;
  PublicKey : bytes;
  Power : Z
}.

Record ValidatorSet := mkValidatorSet {
  Validators : list Validator;
  TotalPower : Z
}.

Record Account := mkAccount {
  AAddress : string;
  Balance : Z;
  ANonce : Z;
  AStake : Z;
  RC : Z;
  RCMax : Z;
  LastRCEffectiveTime : Z;
  Code : bytes;
  PubKey : bytes
}.

Definition zero_account (addr : string) : Account :=
  mkAccount addr 0 0 0 0 0 0 [] [].

End Types.
Import Types.

(* ------------------------------------------------------------------ *)
(** ** pkg/consensus/qc.go and hotstuff.go *)
Module Consensus.

(** Collaborators: the canonical encoder of a precommit vote
    ([encoding.MarshalPrecommitVote]) and the signature verifier. *)
Record Crypto := mkCrypto {
  MarshalPrecommitVote : PrecommitVote -> option bytes;
  Verify : bytes -> bytes -> bytes -> bool   (** msg, sig, pubkey *)
}.

(** [PrecommitSignBytes]: the encoding with the signature cleared. *)
Definition PrecommitSignBytes (c : Crypto) (v : PrecommitVote) : option bytes :=
  MarshalPrecommitVote c (mkVote (VBlockHash v) (VHeight v) (VRound v)
                                 (VValidator v) []).

(** [qc.SigBitmap[i/8] & (1 << (i%8)) != 0]. *)
Definition bit_set (bitmap : list Z) (i : nat) : bool :=
  Z.testbit (nth (i / 8) bitmap 0) (Z.of_nat (i mod 8)).

Inductive qc_err :=
  | ErrNilOrEmpty
  | ErrBitmapLength
  | ErrMissingSignature (i : nat)
  | ErrEncode
  | ErrInvalidSignature (i : nat).

(** The [for i, v := range set.Validators] loop of [VerifyQC]. *)
Fixpoint verify_qc_loop (c : Crypto) (qc : QuorumCertificate)
    (vs : list Validator) (i : nat) : option qc_err :=
  match vs with
  | [] => None
  | v :: rest =>
      if negb (bit_set (SigBitmap qc) i) then verify_qc_loop c qc rest (S i)
      else match nth_error (Signatures qc) i with
      | None => Some (ErrMissingSignature i)
      | Some [] => Some (ErrMissingSignature i)
      | Some sig =>
          let vote := mkVote (QBlockHash qc) (QHeight qc) (QRound qc)
                             (Address v) [] in
          match PrecommitSignBytes c vote with
          | None => Some ErrEncode
          | Some msg =>
              if Verify c msg sig (PublicKey v)
              then verify_qc_loop c qc rest (S i)
              else Some (ErrInvalidSignature i)
          end
      end
  end.

(** [VerifyQC]: [None] is a nil error. *)
Definition VerifyQC (c : Crypto) (qc : QuorumCertificate) (set : ValidatorSet)
    : option qc_err :=
  if (length (Validators set) =? 0)%nat then Some ErrNilOrEmpty
  else if negb (length (SigBitmap qc) =? (length (Validators set) + 7) / 8)%nat
  then Some ErrBitmapLength
  else verify_qc_loop c qc (Validators set) 0.

(** Power of the validators whose bitmap bit is set (the spec's notion). *)
Fixpoint signed_power_from (bitmap : list Z) (vs : list Validator) (i : nat) : Z :=
  match vs with
  | [] => 0
  | v :: rest =>
      (if bit_set bitmap i then Power v else 0)
      + signed_power_from bitmap rest (S i)
  end.

Definition qc_signed_power (qc : QuorumCertificate) (set : ValidatorSet) : Z :=
  signed_power_from (SigBitmap qc) (Validators set) 0.

(** Engine fields read by [ProposeBlock]. *)
Record Engine := mkEngine {
  BlockMaxTxs : Z;
  EHeight : Z;
  ERound : Z;
  LastFinalized : Hash;
  ValidatorSetOf : ValidatorSet;
  ValidatorAddr : string
}.

(** Collaborators of [ProposeBlock]: the mempool, the block hash, the
    proposal encoder, the signer, the network and the wall clock. *)
Record ProposerEnv := mkProposerEnv {
  SelectForBlock : Z -> option (list Transaction);
  HashBlock : Block -> option Hash;
  MarshalProposal : Proposal -> option bytes;
  Sign : bytes -> option bytes;
  BroadcastProposal : option (Proposal -> bool);   (** [None]: nil network *)
  Now : Z
}.

(** [isExpectedProposerLocked]: power-weighted leader walk. *)
Fixpoint leader_walk (vs : list Validator) (seed acc : Z) (addr : string) : bool :=
  match vs with
  | [] => false
  | v :: rest =>
      let acc := u64 (acc + Power v) in
      if seed <? acc then String.eqb (Address v) addr
      else leader_walk rest seed acc addr
  end.

Definition isExpectedProposer (e : Engine) (addr : string) : bool :=
  let set := ValidatorSetOf e in
  if (length (Validators set) =? 0)%nat then false
  else if TotalPower set =? 0 then false
  else leader_walk (Validators set)
         (u64 (EHeight e + ERound e) mod TotalPower set) 0 addr.

(** [ProposalSignBytes]: signature and the block's validator signatures
    cleared. *)
Definition ProposalSignBytes (env : ProposerEnv) (p : Proposal) : option bytes :=
  let b := PBlock p in
  MarshalProposal env
    (mkProposal (mkBlock (Height b) (PrevHash b) (StateRoot b) (Timestamp b)
                         (Proposer b) (Transactions b) [])
                (PRound p) []).

Inductive propose_err := ErrNotProposer | ErrSelect | ErrHash | ErrEncodeProposal
  | ErrSign | ErrBroadcast.

(** [ProposeBlock]. *)
Definition ProposeBlock (env : ProposerEnv) (e : Engine)
    : propose_err + Proposal :=
  if negb (isExpectedProposer e (ValidatorAddr e)) then inl ErrNotProposer else
  match SelectForBlock env (BlockMaxTxs e) with
  | None => inl ErrSelect
  | Some txs =>
      let block := mkBlock (u64 (EHeight e + 1)) (LastFinalized e) zero_hash
                     (Now env) (ValidatorAddr e) txs
                     (repeat [] (length (Validators (ValidatorSetOf e)))) in
      match HashBlock env block with
      | None => inl ErrHash
      | Some blockHash =>
          (* block.StateRoot = blockHash // placeholder until state applied *)
          let block := mkBlock (Height block) (PrevHash block) blockHash
                         (Timestamp block) (Proposer block)
                         (Transactions block) (ValidatorSigs block) in
          let prop := mkProposal block (ERound e) [] in
          match ProposalSignBytes env prop with
          | None => inl ErrEncodeProposal
          | Some propBytes =>
              match Sign env propBytes with
              | None => inl ErrSign
              | Some sig =>
                  let prop := mkProposal block (ERound e) sig in
                  match BroadcastProposal env with
                  | Some bc => if bc prop then inr prop else inl ErrBroadcast
                  | None => inr prop
                  end
              end
          end
      end
  end.

End Consensus.

(* ------------------------------------------------------------------ *)
(** ** pkg/tx/verify.go *)
Module TxVerify.

Inductive resolve_err :=
  | ErrSenderPubKeyLength
  | ErrStoredPubKeyLength
  | ErrFirstSpendPubKeyRequired
  | ErrDeriveAddress
  | ErrSenderAddressMismatch
  | ErrPubKeyMismatch.

Definition bytes_eqb (a b : bytes) : bool := bool_decide (a = b).

Section Resolve.
(** [crypto.AddressFromPubKey]: bech32 over the first 20 bytes of the
    SHA-256 of the key; [None] is its error (empty key, encoding error). *)
Variable AddressFromPubKey : bytes -> option string.

(** [ensureAddressMatches]: [None] is a nil error. *)
Definition ensureAddressMatches (addr : string) (pubKey : bytes)
    : option resolve_err :=
  match AddressFromPubKey pubKey with
  | None => Some ErrDeriveAddress
  | Some derived => if String.eqb derived addr then None
                    else Some ErrSenderAddressMismatch
  end.

(** [ResolveSenderPubKey]: [(pubKey, register)] or an error. *)
Definition ResolveSenderPubKey (txn : Transaction) (stored payloadPubKey : bytes)
    : resolve_err + (bytes * bool) :=
  if (0 <? length payloadPubKey)%nat && negb (length payloadPubKey =? 32)%nat
  then inl ErrSenderPubKeyLength
  else if (0 <? length stored)%nat && negb (length stored =? 32)%nat
  then inl ErrStoredPubKeyLength
  else if (length stored =? 0)%nat then
    if (length payloadPubKey =? 0)%nat then inl ErrFirstSpendPubKeyRequired
    else match ensureAddressMatches (From txn) payloadPubKey with
         | Some e => inl e
         | None => inr (payloadPubKey, true)
         end
  else if (0 <? length payloadPubKey)%nat && negb (bytes_eqb payloadPubKey stored)
  then inl ErrPubKeyMismatch
  else match ensureAddressMatches (From txn) stored with
       | Some e => inl e
       | None => inr (stored, false)
       end.

End Resolve.
End TxVerify.

(* ------------------------------------------------------------------ *)
(** ** pkg/state/state.go: per-transaction application *)
Module State.
Import TxVerify.

(** The payload variants of pkg/tx. *)
Inductive Payload :=
  | Transfer (to : string) (amount : Z)
  | StakeDelegate (validator : string) (amount : Z)
  | StakeUndelegate (validator : string) (amount : Z)
  | ContractDeploy (wasmCode salt : bytes)
  | ContractCall (address : string) (method : string) (args : list bytes)
  | GovernanceProposal (title description paramKey paramValue : string)
  | GovernanceVote (proposalID : Z) (option : Z).

(** [tx.PayloadEnvelope]. *)
Record Envelope := mkEnvelope {
  EPayload : Payload;
  SenderPubKey : bytes
}.

(** The contract engine calls made by [applyTransactionWithKV]. *)
Record ContractEngine := mkContractEngine {
  DeployContract : string -> bytes -> bool;          (** nil error *)
  ValidateWasmCode : bytes -> bool;                  (** nil error *)
  EstimateContractCall : string -> Z;
  EstimateStateWrites : string -> Z;
  ExecuteContract : string -> string -> option (Z * Z)  (** (instructions, writes) *)
}.

(** Collaborators of the state engine. *)
Record Env := mkEnv {
  RCParams : RC.Params;
  DecodePayload : bytes -> option Envelope;
  AddressFromPubKey : bytes -> option string;
  SigningBytes : Transaction -> option bytes;
  VerifyEd25519 : bytes -> bytes -> bytes -> bool;    (** pub, msg, sig *)
  MarshalTransaction : Transaction -> option bytes;
  Contracts : option ContractEngine                   (** [None]: nil engine *)
}.

(** [tx.VerifySignature]: [true] when it returns a nil error. *)
Definition VerifySignature (env : Env) (txn : Transaction) (pubKey : bytes) : bool :=
  (length pubKey =? 32)%nat && (length (Signature txn) =? 64)%nat &&
  match SigningBytes env txn with
  | None => false
  | Some msg => VerifyEd25519 env pubKey msg (Signature txn)
  end.

(** The indexed batch: accounts under [acct/] keyed by address. *)
Abbreviation store := (gmap string Account).

(** The [get] closure: a decoded copy, or a zero account when absent. *)
Definition get (st : store) (addr : string) : Account :=
  match st !! addr with
  | Some a => a
  | None => zero_account addr
  end.

(** The [set] closure: keyed by the account's own [Address] field. *)
Definition set (st : store) (a : Account) : store := <[AAddress a := a]> st.

Definition with_balance (a : Account) (b : Z) : Account :=
  mkAccount (AAddress a) b (ANonce a) (AStake a) (RC a) (RCMax a)
            (LastRCEffectiveTime a) (Code a) (PubKey a).
Definition with_stake (a : Account) (s : Z) : Account :=
  mkAccount (AAddress a) (Balance a) (ANonce a) s (RC a) (RCMax a)
            (LastRCEffectiveTime a) (Code a) (PubKey a).
Definition with_pubkey (a : Account) (k : bytes) : Account :=
  mkAccount (AAddress a) (Balance a) (ANonce a) (AStake a) (RC a) (RCMax a)
            (LastRCEffectiveTime a) (Code a) k.
Definition with_code (a : Account) (c : bytes) : Account :=
  mkAccount (AAddress a) (Balance a) (ANonce a) (AStake a) (RC a) (RCMax a)
            (LastRCEffectiveTime a) c (PubKey a).
Definition with_rc (a : Account) (rc rcMax last : Z) : Account :=
  mkAccount (AAddress a) (Balance a) (ANonce a) (AStake a) rc rcMax
            last (Code a) (PubKey a).
Definition with_nonce (a : Account) (n : Z) : Account :=
  mkAccount (AAddress a) (Balance a) n (AStake a) (RC a) (RCMax a)
            (LastRCEffectiveTime a) (Code a) (PubKey a).

Inductive apply_err :=
  | ErrInvalidSenderOrRecipient
  | ErrDecodePayload
  | ErrResolve (e : resolve_err)
  | ErrSignature
  | ErrInvalidNonce
  | ErrMarshal
  | ErrInsufficientBalance
  | ErrInsufficientStake
  | ErrEngineNotConfigured
  | ErrContract
  | ErrInsufficientRC.

(** Result of the payload switch: the sender, the batch (with any
    receiver or contract account already written), instructions and
    state writes. *)
Definition dispatch (env : Env) (preview : bool) (txn : Transaction)
    (p : Payload) (sender : Account) (st : store)
    : apply_err + (Account * store * Z * Z) :=
  match p with
  | Transfer to amount =>
      if Balance sender <? amount then inl ErrInsufficientBalance else
      let sender := with_balance sender (Balance sender - amount) in
      let receiver := get st to in
      let receiver := with_balance receiver (u64 (Balance receiver + amount)) in
      inr (sender, set st receiver, 0, 2)
  | StakeDelegate _ amount =>
      if Balance sender <? amount then inl ErrInsufficientBalance else
      let sender := with_balance sender (Balance sender - amount) in
      let sender := with_stake sender (u64 (AStake sender + amount)) in
      inr (sender, st, 0, 1)
  | StakeUndelegate _ amount =>
      if AStake sender <? amount then inl ErrInsufficientStake else
      let sender := with_stake sender (AStake sender - amount) in
      let sender := with_balance sender (u64 (Balance sender + amount)) in
      inr (sender, st, 0, 1)
  | ContractDeploy code _ =>
      match Contracts env with
      | None => inl ErrEngineNotConfigured
      | Some engine =>
          let addr := To txn in
          let ok := if negb preview then DeployContract engine addr code
                    else ValidateWasmCode engine code in
          if negb ok then inl ErrContract else
          let contractAcct := with_code (get st addr) code in
          inr (sender, set st contractAcct, 0, 1)
      end
  | ContractCall address _ _ =>
      match Contracts env with
      | None => inl ErrEngineNotConfigured
      | Some engine =>
          if preview then
            inr (sender, st, EstimateContractCall engine address,
                 EstimateStateWrites engine address)
          else match ExecuteContract engine (From txn) address with
               | None => inl ErrContract
               | Some (instr, writes) => inr (sender, st, instr, writes)
               end
      end
  | GovernanceProposal _ _ _ _ => inr (sender, st, 0, 1)
  | GovernanceVote _ _ => inr (sender, st, 0, 1)
  end.

(** [applyTransactionWithKV]: the error (if any) and the batch afterwards;
    on an error after the payload switch, a receiver or contract account
    written by it stays in the batch, as in the source. *)
Definition applyTransactionWithKV (env : Env) (effectiveTime : Z)
    (preview : bool) (txn : Transaction) (st : store)
    : option apply_err * store :=
  if String.eqb (From txn) "" || String.eqb (To txn) "" then
    (Some ErrInvalidSenderOrRecipient, st) else
  let sender := get st (From txn) in
  match DecodePayload env (Types.Payload txn) with
  | None => (Some ErrDecodePayload, st)
  | Some payloadEnv =>
  match ResolveSenderPubKey (AddressFromPubKey env) txn (PubKey sender)
          (SenderPubKey payloadEnv) with
  | inl e => (Some (ErrResolve e), st)
  | inr (pubKey, register) =>
  if negb (VerifySignature env txn pubKey) then (Some ErrSignature, st) else
  let sender := if register then with_pubkey sender pubKey else sender in
  let p := RCParams env in
  let '(rc, last) := RC.Regen p (RC sender) (AStake sender)
                       (LastRCEffectiveTime sender) effectiveTime in
  let sender := with_rc sender rc (RC.RCMax p (AStake sender)) last in
  if negb (ANonce sender =? Nonce txn) then (Some ErrInvalidNonce, st) else
  match MarshalTransaction env txn with
  | None => (Some ErrMarshal, st)
  | Some sizeBytes =>
  match dispatch env preview txn (EPayload payloadEnv) sender st with
  | inl e => (Some e, st)
  | inr (sender, st, instructions, stateWrites) =>
      let cost := RC.Cost p (Z.of_nat (length sizeBytes)) instructions
                    stateWrites in
      if RC sender <? cost then (Some ErrInsufficientRC, st) else
      let sender := with_rc sender (RC sender - cost) (RCMax sender)
                      (LastRCEffectiveTime sender) in
      let sender := with_nonce sender (u64 (ANonce sender + 1)) in
      let sender := with_rc sender (RC sender) (RC.RCMax p (AStake sender))
                      (LastRCEffectiveTime sender) in
      (None, set st sender)
  end end end end.

(** [sum(balance) + sum(stake)] over the account store. *)
Definition total_supply (st : store) : Z :=
  map_fold (fun _ a acc => Balance a + AStake a + acc) 0 st.

(** Every stored account sits under its own address. *)
Definition store_wf (st : store) : Prop :=
  forall k a, st !! k = Some a -> AAddress a = k.

End State.

(* ------------------------------------------------------------------ *)
(** ** google.golang.org/protobuf/encoding/protowire

    The wire primitives the encoders and decoders of the repository call.
    A consumer returns [None] where protowire returns a negative length. *)
Module Wire.

Definition byte_of (z : Z) : Byte.byte :=
  match Byte.of_N (Z.to_N (z mod 256)) with Some x => x | None => Byte.x00 end.

Definition val (x : Byte.byte) : Z := Z.of_N (Byte.to_N x).

Definition VarintType : Z := 0.
Definition Fixed64Type : Z := 1.
Definition BytesType : Z := 2.
Definition StartGroupType : Z := 3.
Definition EndGroupType : Z := 4.
Definition Fixed32Type : Z := 5.

(** [AppendVarint] for a uint64: seven bits per byte, low group first,
    high bit set on all bytes but the last; at most ten bytes. *)
Fixpoint varint_bytes (k : nat) (v : Z) : bytes :=
  match k with
  | O => [byte_of v]
  | S k' => if v <? 128 then [byte_of v]
            else byte_of (v mod 128 + 128) :: varint_bytes k' (v / 128)
  end.

Definition AppendVarint (b : bytes) (v : Z) : bytes := b ++ varint_bytes 9 v.

Definition EncodeTag (num typ : Z) : Z := Z.lor (Z.shiftl num 3) (Z.land typ 7).

Definition AppendTag (b : bytes) (num typ : Z) : bytes :=
  AppendVarint b (EncodeTag num typ).

(** [AppendBytes]: [uint64(len(v))] then [v]; [len(v)] is a non-negative
    [int]. *)
Definition AppendBytes (b v : bytes) : bytes :=
  AppendVarint b (Z.of_nat (length v)) ++ v.

(** [ConsumeVarint]: byte [i] (i < 9) contributes its low seven bits at
    [7 * i] and continues on a set high bit; a tenth byte must be 0 or 1.
    [None] on truncation or overflow. *)
Fixpoint cvar (k : nat) (sh : Z) (b : bytes) : option (Z * nat) :=
  match b with
  | [] => None
  | x :: r =>
      let y := val x in
      match k with
      | O => if y <? 2 then Some (y * 2 ^ sh, 1%nat) else None
      | S k' =>
          if y <? 128 then Some (y * 2 ^ sh, 1%nat)
          else match cvar k' (sh + 7) r with
               | None => None
               | Some (v, n) => Some ((y - 128) * 2 ^ sh + v, S n)
               end
      end
  end.

Definition ConsumeVarint (b : bytes) : option (Z * nat) := cvar 9 0 b.

(** [DecodeTag]: a field number above [MaxInt32] decodes as -1. *)
Definition DecodeTag (x : Z) : Z * Z :=
  if 2 ^ 31 - 1 <? Z.shiftr x 3 then (-1, 0)
  else (Z.shiftr x 3, Z.land x 7).

(** [ConsumeTag]: field numbers below [MinValidNumber = 1] are errors. *)
Definition ConsumeTag (b : bytes) : option (Z * Z * nat) :=
  match ConsumeVarint b with
  | None => None
  | Some (v, n) =>
      let '(num, typ) := DecodeTag v in
      if num <? 1 then None else Some (num, typ, n)
  end.

(** [ConsumeBytes]: the length prefix, then [b[n:][:m]]. *)
Definition ConsumeBytes (b : bytes) : option (bytes * nat) :=
  match ConsumeVarint b with
  | None => None
  | Some (m, n) =>
      let rest := skipn n b in
      if Z.of_nat (length rest) <? m then None
      else Some (firstn (Z.to_nat m) rest, (n + Z.to_nat m)%nat)
  end.

Definition ConsumeFixed32 (b : bytes) : option nat :=
  if (length b <? 4)%nat then None else Some 4%nat.

Definition ConsumeFixed64 (b : bytes) : option nat :=
  if (length b <? 8)%nat then None else Some 8%nat.

Definition DefaultRecursionLimit : Z := 10000.

(** [consumeFieldValueD]: the length of one field value of type [typ];
    a group is read up to its matching end-group tag.  [fuel] bounds the
    nesting of groups and [g] the fields of one group: each step reads at
    least one byte of [b], so [length b + 1] of each never runs out. *)
Fixpoint consumeFieldValueD (fuel : nat) (num typ : Z) (b : bytes) (depth : Z)
    : option nat :=
  if typ =? VarintType then option_map snd (ConsumeVarint b)
  else if typ =? Fixed32Type then ConsumeFixed32 b
  else if typ =? Fixed64Type then ConsumeFixed64 b
  else if typ =? BytesType then option_map snd (ConsumeBytes b)
  else if typ =? StartGroupType then
    if depth <? 0 then None else
    match fuel with
    | O => None
    | S f =>
        (fix group (g : nat) (b' : bytes) : option nat :=
           match g with
           | O => None
           | S g' =>
               match ConsumeTag b' with
               | None => None
               | Some (num2, typ2, n) =>
                   let b'' := skipn n b' in
                   if typ2 =? EndGroupType then
                     if negb (num =? num2) then None
                     else Some (length b - length b'')%nat
                   else match consumeFieldValueD f num2 typ2 b'' (depth - 1) with
                        | None => None
                        | Some m => group g' (skipn m b'')
                        end
               end
           end) (S (length b)) b
    end
  else None.

Definition ConsumeFieldValue (num typ : Z) (b : bytes) : option nat :=
  consumeFieldValueD (S (length b)) num typ b DefaultRecursionLimit.

(** The decoding loop shared by every decoder of the repository:
    [for len(b) > 0 { num, typ, n := ConsumeTag(b); b = b[n:]; switch ... }],
    where [step] is the [switch]: the updated accumulator and the length
    of the field value it consumed.  Each round consumes a tag of at
    least one byte, so [length b] rounds suffice. *)
Fixpoint for_fields {T} (step : Z -> Z -> bytes -> T -> option (T * nat))
    (fuel : nat) (acc : T) (b : bytes) : option T :=
  match b with
  | [] => Some acc
  | _ :: _ =>
      match fuel with
      | O => None
      | S f =>
          match ConsumeTag b with
          | None => None
          | Some (num, typ, n) =>
              let b := skipn n b in
              match step num typ b acc with
              | None => None
              | Some (acc', m) => for_fields step f acc' (skipn m b)
              end
          end
      end
  end.

Definition decode_fields {T} (step : Z -> Z -> bytes -> T -> option (T * nat))
    (acc : T) (b : bytes) : option T :=
  for_fields step (length b) acc b.

(** The three shapes of a [case] of these decoders. *)
Definition bytes_field {T} (typ : Z) (b : bytes) (upd : bytes -> T)
    : option (T * nat) :=
  if negb (typ =? BytesType) then None else
  match ConsumeBytes b with
  | None => None
  | Some (v, n) => Some (upd v, n)
  end.

Definition varint_field {T} (typ : Z) (b : bytes) (upd : Z -> T)
    : option (T * nat) :=
  if negb (typ =? VarintType) then None else
  match ConsumeVarint b with
  | None => None
  | Some (v, n) => Some (upd v, n)
  end.

Definition skip_field {T} (num typ : Z) (b : bytes) (acc : T) : option (T * nat) :=
  match ConsumeFieldValue num typ b with
  | None => None
  | Some n => Some (acc, n)
  end.

End Wire.

(* ------------------------------------------------------------------ *)
(** ** pkg/tx/payload_encoding.go *)
Module PayloadCodec.
Import Wire State.

Definition str (s : string) : bytes := String.list_byte_of_string s.
Definition of_bytes (v : bytes) : string := String.string_of_list_byte v.

Definition encodeTransfer (to : string) (amount : Z) : bytes :=
  let inner := AppendTag [] 1 BytesType in
  let inner := AppendBytes inner (str to) in
  let inner := AppendTag inner 2 VarintType in
  let inner := AppendVarint inner amount in
  AppendBytes (AppendTag [] 1 BytesType) inner.

Definition encodeStakeDelegate (validator : string) (amount : Z) : bytes :=
  let inner := AppendTag [] 1 BytesType in
  let inner := AppendBytes inner (str validator) in
  let inner := AppendTag inner 2 VarintType in
  let inner := AppendVarint inner amount in
  AppendBytes (AppendTag [] 2 BytesType) inner.

Definition encodeStakeUndelegate (validator : string) (amount : Z) : bytes :=
  let inner := AppendTag [] 1 BytesType in
  let inner := AppendBytes inner (str validator) in
  let inner := AppendTag inner 2 VarintType in
  let inner := AppendVarint inner amount in
  AppendBytes (AppendTag [] 3 BytesType) inner.

Definition encodeContractDeploy (wasmCode salt : bytes) : bytes :=
  let inner := AppendTag [] 1 BytesType in
  let inner := AppendBytes inner wasmCode in
  let inner := AppendTag inner 2 BytesType in
  let inner := AppendBytes inner salt in
  AppendBytes (AppendTag [] 4 BytesType) inner.

Definition encodeContractCall (address method : string) (args : list bytes) : bytes :=
  let inner := AppendTag [] 1 BytesType in
  let inner := AppendBytes inner (str address) in
  let inner := AppendTag inner 2 BytesType in
  let inner := AppendBytes inner (str method) in
  let inner := fold_left (fun inner arg =>
                 AppendBytes (AppendTag inner 3 BytesType) arg) args inner in
  AppendBytes (AppendTag [] 5 BytesType) inner.

Definition encodeGovernanceProposal (title description paramKey paramValue : string)
    : bytes :=
  let inner := AppendTag [] 1 BytesType in
  let inner := AppendBytes inner (str title) in
  let inner := AppendTag inner 2 BytesType in
  let inner := AppendBytes inner (str description) in
  let inner := AppendTag inner 3 BytesType in
  let inner := AppendBytes inner (str paramKey) in
  let inner := AppendTag inner 4 BytesType in
  let inner := AppendBytes inner (str paramValue) in
  AppendBytes (AppendTag [] 6 BytesType) inner.

(** [t.Option] is a [types.VoteOption] (a [uint8]) widened to uint64. *)
Definition encodeGovernanceVote (proposalID option : Z) : bytes :=
  let inner := AppendTag [] 1 VarintType in
  let inner := AppendVarint inner proposalID in
  let inner := AppendTag inner 2 VarintType in
  let inner := AppendVarint inner option in
  AppendBytes (AppendTag [] 7 BytesType) inner.

(** [EncodePayload]; the typed payloads of the model are never nil. *)
Definition EncodePayload (p : Payload) (senderPubKey : bytes) : bytes :=
  let out := match p with
             | Transfer to amount => encodeTransfer to amount
             | StakeDelegate v amount => encodeStakeDelegate v amount
             | StakeUndelegate v amount => encodeStakeUndelegate v amount
             | ContractDeploy code salt => encodeContractDeploy code salt
             | ContractCall a m args => encodeContractCall a m args
             | GovernanceProposal t d k v => encodeGovernanceProposal t d k v
             | GovernanceVote id o => encodeGovernanceVote id o
             end in
  if (0 <? length senderPubKey)%nat then
    AppendBytes (AppendTag out 8 BytesType) senderPubKey
  else out.

(** The [switch num] of [decodeTransfer], [decodeStakeDelegate] and
    [decodeStakeUndelegate]: field 1 an address, field 2 a uint64. *)
Definition addr_amount_step (num typ : Z) (b : bytes) (acc : string * Z)
    : option ((string * Z) * nat) :=
  let '(addr, amount) := acc in
  if num =? 1 then bytes_field typ b (fun v => (of_bytes v, amount))
  else if num =? 2 then varint_field typ b (fun v => (addr, v))
  else skip_field num typ b (addr, amount).

Definition decodeTransfer (b : bytes) : option Payload :=
  match decode_fields addr_amount_step (""%string, 0) b with
  | None => None
  | Some (to, amount) => Some (Transfer to amount)
  end.

Definition decodeStakeDelegate (b : bytes) : option Payload :=
  match decode_fields addr_amount_step (""%string, 0) b with
  | None => None
  | Some (validator, amount) => Some (StakeDelegate validator amount)
  end.

Definition decodeStakeUndelegate (b : bytes) : option Payload :=
  match decode_fields addr_amount_step (""%string, 0) b with
  | None => None
  | Some (validator, amount) => Some (StakeUndelegate validator amount)
  end.

Definition contractDeploy_step (num typ : Z) (b : bytes) (acc : bytes * bytes)
    : option ((bytes * bytes) * nat) :=
  let '(code, salt) := acc in
  if num =? 1 then bytes_field typ b (fun v => (v, salt))
  else if num =? 2 then bytes_field typ b (fun v => (code, v))
  else skip_field num typ b (code, salt).

Definition decodeContractDeploy (b : bytes) : option Payload :=
  match decode_fields contractDeploy_step ([], []) b with
  | None => None
  | Some (code, salt) => Some (ContractDeploy code salt)
  end.

(** Field 3 appends one argument per occurrence. *)
Definition contractCall_step (num typ : Z) (b : bytes)
    (acc : string * string * list bytes)
    : option ((string * string * list bytes) * nat) :=
  let '(address, method, args) := acc in
  if num =? 1 then bytes_field typ b (fun v => (of_bytes v, method, args))
  else if num =? 2 then bytes_field typ b (fun v => (address, of_bytes v, args))
  else if num =? 3 then bytes_field typ b (fun v => (address, method, args ++ [v]))
  else skip_field num typ b (address, method, args).

Definition decodeContractCall (b : bytes) : option Payload :=
  match decode_fields contractCall_step (""%string, ""%string, []) b with
  | None => None
  | Some (address, method, args) => Some (ContractCall address method args)
  end.

Definition governanceProposal_step (num typ : Z) (b : bytes)
    (acc : string * string * string * string)
    : option ((string * string * string * string) * nat) :=
  let '(title, description, key, value) := acc in
  if num =? 1 then bytes_field typ b (fun v => (of_bytes v, description, key, value))
  else if num =? 2 then bytes_field typ b (fun v => (title, of_bytes v, key, value))
  else if num =? 3 then bytes_field typ b (fun v => (title, description, of_bytes v, value))
  else if num =? 4 then bytes_field typ b (fun v => (title, description, key, of_bytes v))
  else skip_field num typ b (title, description, key, value).

Definition decodeGovernanceProposal (b : bytes) : option Payload :=
  match decode_fields governanceProposal_step
          (""%string, ""%string, ""%string, ""%string) b with
  | None => None
  | Some (title, description, key, value) =>
      Some (GovernanceProposal title description key value)
  end.

(** [out.Option = types.VoteOption(v)] keeps the low eight bits. *)
Definition governanceVote_step (num typ : Z) (b : bytes) (acc : Z * Z)
    : option ((Z * Z) * nat) :=
  let '(id, option) := acc in
  if num =? 1 then varint_field typ b (fun v => (v, option))
  else if num =? 2 then varint_field typ b (fun v => (id, v mod 256))
  else skip_field num typ b (id, option).

Definition decodeGovernanceVote (b : bytes) : option Payload :=
  match decode_fields governanceVote_step (0, 0) b with
  | None => None
  | Some (id, option) => Some (GovernanceVote id option)
  end.

(** The decoder of field [1..7] of the envelope. *)
Definition decode_variant (num : Z) (b : bytes) : option Payload :=
  if num =? 1 then decodeTransfer b
  else if num =? 2 then decodeStakeDelegate b
  else if num =? 3 then decodeStakeUndelegate b
  else if num =? 4 then decodeContractDeploy b
  else if num =? 5 then decodeContractCall b
  else if num =? 6 then decodeGovernanceProposal b
  else decodeGovernanceVote b.

(** The [switch fieldNum] of [DecodePayload]; the seven payload cases
    differ only in the decoder they call. *)
Definition envelope_step (num typ : Z) (b : bytes) (acc : option Payload * bytes)
    : option ((option Payload * bytes) * nat) :=
  let '(p, spk) := acc in
  if (1 <=? num) && (num <=? 7) then
    if negb (typ =? BytesType) then None else
    match ConsumeBytes b with
    | None => None
    | Some (v, n) =>
        match p with
        | Some _ => None                              (* duplicate payload *)
        | None => match decode_variant num v with
                  | None => None
                  | Some q => Some ((Some q, spk), n)
                  end
        end
    end
  else if num =? 8 then
    if negb (typ =? BytesType) then None else
    if (0 <? length spk)%nat then None               (* duplicate sender_pubkey *)
    else match ConsumeBytes b with
         | None => None
         | Some (v, n) => Some ((p, v), n)
         end
  else skip_field num typ b (p, spk).

Definition DecodePayload (payload : bytes) : option Envelope :=
  if (length payload =? 0)%nat then None else
  match decode_fields envelope_step (None, []) payload with
  | Some (Some p, spk) => Some (mkEnvelope p spk)
  | _ => None
  end.

(** The ranges of the Go field types of a payload: [uint64] amounts and
    proposal ids, a [uint8] vote option. *)
Definition payload_ranges_ok (p : Payload) : Prop :=
  match p with
  | Transfer _ amount | StakeDelegate _ amount | StakeUndelegate _ amount =>
      0 <= amount < 2 ^ 64
  | GovernanceVote id option => 0 <= id < 2 ^ 64 /\ 0 <= option < 256
  | _ => True
  end.

End PayloadCodec.

(* ------------------------------------------------------------------ *)
(** ** pkg/state/codec.go and store.go: the stored encodings *)
Module StoreCodec.
Import Wire PayloadCodec.

(** [marshalAccount]; [uint64(acct.LastRCEffectiveTime)] is [u64]. *)
Definition marshalAccount (acct : Account) : bytes :=
  let b := AppendTag [] 1 BytesType in
  let b := AppendBytes b (str (AAddress acct)) in
  let b := AppendTag b 2 VarintType in
  let b := AppendVarint b (Balance acct) in
  let b := AppendTag b 3 VarintType in
  let b := AppendVarint b (ANonce acct) in
  let b := AppendTag b 4 VarintType in
  let b := AppendVarint b (AStake acct) in
  let b := AppendTag b 5 VarintType in
  let b := AppendVarint b (RC acct) in
  let b := AppendTag b 6 VarintType in
  let b := AppendVarint b (RCMax acct) in
  let b := AppendTag b 7 VarintType in
  let b := AppendVarint b (u64 (LastRCEffectiveTime acct)) in
  let b := if (0 <? length (Code acct))%nat
           then AppendBytes (AppendTag b 8 BytesType) (Code acct) else b in
  if (0 <? length (PubKey acct))%nat
  then AppendBytes (AppendTag b 9 BytesType) (PubKey acct) else b.

Definition with_address (a : Account) (addr : string) : Account :=
  mkAccount addr (Balance a) (ANonce a) (AStake a) (RC a) (RCMax a)
            (LastRCEffectiveTime a) (Code a) (PubKey a).

(** The [switch num] of [unmarshalAccount]; [int64(v)] is [i64]. *)
Definition account_step (num typ : Z) (b : bytes) (acct : Account)
    : option (Account * nat) :=
  if num =? 1 then bytes_field typ b (fun v => with_address acct (of_bytes v))
  else if num =? 2 then varint_field typ b (fun v => State.with_balance acct v)
  else if num =? 3 then varint_field typ b (fun v => State.with_nonce acct v)
  else if num =? 4 then varint_field typ b (fun v => State.with_stake acct v)
  else if num =? 5 then
    varint_field typ b (fun v => State.with_rc acct v (RCMax acct)
                                   (LastRCEffectiveTime acct))
  else if num =? 6 then
    varint_field typ b (fun v => State.with_rc acct (RC acct) v
                                   (LastRCEffectiveTime acct))
  else if num =? 7 then
    varint_field typ b (fun v => State.with_rc acct (RC acct) (RCMax acct) (i64 v))
  else if num =? 8 then bytes_field typ b (fun v => State.with_code acct v)
  else if num =? 9 then bytes_field typ b (fun v => State.with_pubkey acct v)
  else skip_field num typ b acct.

(** [unmarshalAccount], from [&types.Account{}]. *)
Definition unmarshalAccount (b : bytes) : option Account :=
  decode_fields account_step (zero_account ""%string) b.

(** [binary.BigEndian.PutUint32]/[PutUint64]: [k] bytes, most
    significant first. *)
Fixpoint be_bytes (k : nat) (v : Z) : bytes :=
  match k with
  | O => []
  | S k' => be_bytes k' (v / 256) ++ [byte_of v]
  end.

(** [binary.BigEndian.Uint32]/[Uint64]. *)
Definition be_value (b : bytes) : Z := fold_left (fun acc x => acc * 256 + val x) b 0.

(** [encodeTimestamps]: [uint32(len(ts))], then each [uint64(t)]. *)
Definition encodeTimestamps (ts : list Z) : bytes :=
  be_bytes 4 (Z.of_nat (length ts) mod 2 ^ 32)
  ++ concat (map (fun t => be_bytes 8 (u64 t)) ts).

(** [decodeTimestamps]. *)
Definition decodeTimestamps (b : bytes) : option (list Z) :=
  if (length b <? 4)%nat then None else
  let n := be_value (firstn 4 b) in
  let b := skipn 4 b in
  if Z.of_nat (length b) <? n * 8 then None else
  Some (map (fun i => i64 (be_value (firstn 8 (skipn (i * 8) b))))
            (seq 0 (Z.to_nat n))).

End StoreCodec.

(* ------------------------------------------------------------------ *)
(** ** pkg/mempool/mempool.go: block selection *)
Module Mempool.

(** Collaborators: the [Coster], the transaction hash and the
    [StateView].  A hash is taken as the big-endian number of its 32
    bytes: comparing [hash.String()] (fixed-length lower-case hex) is
    comparing these numbers. *)
Record Coll := mkColl {
  TxCost : Transaction -> Z;
  HashTransaction : Transaction -> Z;
  GetAccount : string -> option Account
}.

(** [m.pool], listed in the iteration order of the Go map. *)
Abbreviation pool := (list (string * list Transaction)).

Record senderState := mkSenderState {
  acct : Account;
  cursor : nat;
  queue : list Transaction
}.

Record txItem := mkItem {
  tx : Transaction;
  cost : Z;
  hash : Z;
  sender : string
}.

(** [txHeap.Less]: higher cost first, then smaller hash. *)
Definition Less (a b : txItem) : bool :=
  if negb (cost a =? cost b) then cost b <? cost a
  else hash a <? hash b.

(** The heap, as the list of its items in the order [heap.Pop] returns
    them: [heap.Pop] yields a [Less]-least item. *)
Fixpoint heap_push (x : txItem) (h : list txItem) : list txItem :=
  match h with
  | [] => [x]
  | y :: r => if Less x y then x :: y :: r else y :: heap_push x r
  end.

(** One step of building [senders] from the pool. *)
Definition add_sender (c : Coll) (m : gmap string senderState)
    (e : string * list Transaction) : gmap string senderState :=
  let '(addr, q) := e in
  match GetAccount c addr with
  | None => m
  | Some a => match q with
              | [] => m
              | _ => <[addr := mkSenderState a 0 q]> m
              end
  end.

Definition build_senders (c : Coll) (p : pool) : gmap string senderState :=
  fold_left (add_sender c) p ∅.

(** One step of seeding the heap with the first valid transaction of a
    sender. *)
Definition seed_step (c : Coll) (senders : gmap string senderState)
    (h : list txItem) (e : string * list Transaction) : list txItem :=
  let '(addr, _) := e in
  match senders !! addr with
  | None => h
  | Some st =>
      match queue st with
      | [] => h
      | t :: _ =>
          if negb (Nonce t =? ANonce (acct st)) then h
          else let cst := TxCost c t in
               if RC (acct st) <? cst then h
               else heap_push (mkItem t cst (HashTransaction c t) addr) h
      end
  end.

Definition seed_heap (c : Coll) (p : pool) (senders : gmap string senderState)
    : list txItem :=
  fold_left (seed_step c senders) p [].

(** The selection loop; [fuel] bounds [len(out) < max]. *)
Fixpoint select_loop (c : Coll) (fuel : nat) (h : list txItem)
    (senders : gmap string senderState) : list Transaction :=
  match fuel with
  | O => []
  | S f =>
      match h with
      | [] => []
      | item :: h' =>
          tx item ::
          match senders !! sender item with
          | None => select_loop c f h' senders
          | Some st =>
              let a := State.with_nonce (acct st) (u64 (ANonce (acct st) + 1)) in
              let a := State.with_rc a
                         (if cost item <=? RC a then RC a - cost item else 0)
                         (RCMax a) (LastRCEffectiveTime a) in
              let cur := S (cursor st) in
              let senders := <[sender item := mkSenderState a cur (queue st)]>
                               senders in
              match nth_error (queue st) cur with
              | None => select_loop c f h' senders
              | Some next =>
                  if negb (Nonce next =? ANonce a) then select_loop c f h' senders
                  else let cst := TxCost c next in
                       if RC a <? cst then select_loop c f h' senders
                       else select_loop c f
                              (heap_push (mkItem next cst (HashTransaction c next)
                                                 (sender item)) h')
                              senders
              end
          end
      end
  end.

(** [SelectForBlock]. *)
Definition SelectForBlock (c : Coll) (p : pool) (max : Z) : list Transaction :=
  if max <=? 0 then [] else
  let senders := build_senders c p in
  select_loop c (Z.to_nat max) (seed_heap c p senders) senders.

(** The literal scenario of mempool_test.go. *)
Definition txA0 : Transaction := mkTx "a" "x" 0 [] [].
Definition txA1 : Transaction := mkTx "a" "x" 1 [] [].
Definition txB0 : Transaction := mkTx "b" "y" 0 [] [].

(** [mockCoster]: 10 for B0, 5 otherwise. *)
Definition mock_cost (t : Transaction) : Z :=
  if String.eqb (From t) "b" && (Nonce t =? 0) then 10 else 5.

Definition mock_state (addr : string) : option Account :=
  if String.eqb addr "a" then Some (mkAccount "a" 0 0 0 100 0 0 [] [])
  else if String.eqb addr "b" then Some (mkAccount "b" 0 0 0 100 0 0 [] [])
  else None.

End Mempool.

(* ------------------------------------------------------------------ *)
(** ** pkg/mempool/mempool.go: admission ([AddTx]) *)
Module MempoolAdd.
Import TxVerify.

(** Collaborators of [AddTx]: the [StateView] ([None]: an error,
    [Some None]: a nil account), the [Coster] ([None]: an error) and the
    functions of pkg/tx. *)
Record AddColl := mkAddColl {
  AGetAccount : string -> option (option Account);
  ACost : Transaction -> option Z;
  ATx : State.Env
}.

(** [m.pool] as a map from sender to its queue. *)
Abbreviation pool_map := (gmap string (list Transaction)).

Inductive add_err :=
  | ErrInvalidSenderOrRecipient
  | ErrGetAccount
  | ErrDecodePayload
  | ErrResolve (e : resolve_err)
  | ErrSignature
  | ErrStaleNonce
  | ErrCost
  | ErrInsufficientRC
  | ErrDuplicateNonce.

(** The [for i, existing := range queue] loop: [None] is the
    duplicate-nonce error, otherwise the queue with [txn] inserted
    before the first transaction of larger nonce (appended when there is
    none). *)
Fixpoint insert_by_nonce (txn : Transaction) (queue : list Transaction)
    : option (list Transaction) :=
  match queue with
  | [] => Some [txn]
  | existing :: rest =>
      if Nonce txn =? Nonce existing then None
      else if Nonce txn <? Nonce existing then Some (txn :: existing :: rest)
      else option_map (cons existing) (insert_by_nonce txn rest)
  end.

(** [AddTx]: the error, or the pool afterwards. *)
Definition AddTx (c : AddColl) (txn : Transaction) (pool : pool_map)
    : add_err + pool_map :=
  if String.eqb (From txn) "" || String.eqb (To txn) "" then
    inl ErrInvalidSenderOrRecipient else
  match AGetAccount c (From txn) with
  | None => inl ErrGetAccount
  | Some oacct =>
  let acct := match oacct with Some a => a | None => zero_account (From txn) end in
  match State.DecodePayload (ATx c) (Types.Payload txn) with
  | None => inl ErrDecodePayload
  | Some env =>
  match ResolveSenderPubKey (State.AddressFromPubKey (ATx c)) txn (PubKey acct)
          (State.SenderPubKey env) with
  | inl e => inl (ErrResolve e)
  | inr (pubKey, _) =>
  if negb (State.VerifySignature (ATx c) txn pubKey) then inl ErrSignature else
  if Nonce txn <? ANonce acct then inl ErrStaleNonce else
  match ACost c txn with
  | None => inl ErrCost
  | Some cost =>
  if RC acct <? cost then inl ErrInsufficientRC else
  match insert_by_nonce txn (default [] (pool !! From txn)) with
  | None => inl ErrDuplicateNonce
  | Some queue => inr (<[From txn := queue]> pool)
  end end end end end.

(** Every queue holds transactions of its own sender, in strictly
    increasing nonce order. *)
Definition pool_wf (pool : pool_map) : Prop :=
  forall addr queue, pool !! addr = Some queue ->
    StronglySorted (fun a b => Nonce a < Nonce b) queue /\
    Forall (fun t => From t = addr) queue.

End MempoolAdd.

(* ------------------------------------------------------------------ *)
(** ** Concrete inputs and auxiliary notions used by the properties *)
Module Scenarios.
Import RC Consensus.

Definition skew_params : Params := mkParams 10 1 1 1 1 (2 ^ 63 - 1) 1.

Definition regen_params : Params := mkParams 10 1 1 1 1 0 1.

Definition literal_params : Params := mkParams 10 2 1 1 1 5 1.

Definition one_validator_set : ValidatorSet :=
  mkValidatorSet [mkValidator "v1" (repeat Byte.x01 32) 1] 1.

Definition empty_qc : QuorumCertificate :=
  mkQC (repeat Byte.x02 32) 1 0 [0] [].

Definition with_state_root (b : Block) (r : Hash) : Block :=
  mkBlock (Height b) (PrevHash b) r (Timestamp b) (Proposer b)
          (Transactions b) (ValidatorSigs b).

Definition env0 : ProposerEnv :=
  mkProposerEnv (fun _ => Some []) (fun _ => Some (repeat Byte.x03 32))
    (fun _ => Some []) (fun _ => Some (repeat Byte.x04 64)) None 1700000000.

Definition engine0 : Engine :=
  mkEngine 100 0 0 zero_hash one_validator_set "v1".

Definition is_err {A B} (r : A + B) : Prop :=
  match r with inl _ => True | inr _ => False end.

(** A node with rc parameters alpha 10, beta 1, unit cost weights, a
    100-byte transaction encoding, and an accepting signature check. *)
Definition state_params : Params := mkParams 10 1 1 1 1 30 11.

Definition pkA : bytes := repeat Byte.x11 32.

Definition addr_of_pubkey (pk : bytes) : option string :=
  if TxVerify.bytes_eqb pk pkA then Some "alice"
  else match pk with [] => None | _ => Some "other" end.

Definition mk_env (p : State.Payload) (senderPk : bytes) : State.Env :=
  State.mkEnv state_params (fun _ => Some (State.mkEnvelope p senderPk))
    addr_of_pubkey (fun _ => Some []) (fun _ _ _ => true)
    (fun _ => Some (repeat Byte.x00 100)) None.

Definition tx_alice : Transaction :=
  mkTx "alice" "alice" 0 [Byte.x01] (repeat Byte.x00 64).

(** Alice holds 1000 stake and a full RC of 10000. *)
Definition undelegate_store : State.store :=
  {[ "alice" := mkAccount "alice" 0 0 1000 10000 10000 0 [] pkA ]}.

(** Alice holds a balance of 100, 100 stake and a full RC of 1000. *)
Definition transfer_store : State.store :=
  {[ "alice" := mkAccount "alice" 100 0 100 1000 1000 0 [] pkA ]}.

(** The mempool of the literal scenario, and the heap item a pool entry
    seeds when its sender is known (used to reason about [seed_heap]). *)
Definition literal_pool : Mempool.pool :=
  [("a", [Mempool.txA0; Mempool.txA1]); ("b", [Mempool.txB0])].

Definition item_direct (c : Mempool.Coll) (e : string * list Transaction)
    : option Mempool.txItem :=
  let '(addr, q) := e in
  match Mempool.GetAccount c addr with
  | None => None
  | Some a =>
      match q with
      | [] => None
      | t :: _ =>
          if negb (Nonce t =? ANonce a) then None
          else if RC a <? Mempool.TxCost c t then None
          else Some (Mempool.mkItem t (Mempool.TxCost c t)
                                    (Mempool.HashTransaction c t) addr)
      end
  end.

Fixpoint direct_items (c : Mempool.Coll) (p : Mempool.pool)
    : list Mempool.txItem :=
  match p with
  | [] => []
  | e :: r => match item_direct c e with
              | Some it => it :: direct_items c r
              | None => direct_items c r
              end
  end.

(** Hashes of all transactions in the pool. *)
Definition pool_hashes (c : Mempool.Coll) (p : Mempool.pool) : list Z :=
  map (Mempool.HashTransaction c) (concat (map snd p)).

End Scenarios.

(* ================================================================== *)
(** ** Auxiliary definitions for the mempool proofs *)

Module MempoolAux.
Import Mempool Scenarios.

Definition R (a b : txItem) : Prop := Less a b = true.

Definition sender_entry (c : Coll) (addr : string) (q : list Transaction)
    : option senderState :=
  match GetAccount c addr with
  | None => None
  | Some a => match q with [] => None | _ => Some (mkSenderState a 0 q) end
  end.

Definition opt_push (o : option txItem) (h : list txItem) : list txItem :=
  match o with Some it => heap_push it h | None => h end.

Definition literal_coll : Coll :=
  mkColl mock_cost
    (fun t => Nonce t + if String.eqb (From t) "a" then 0 else 100) mock_state.

End MempoolAux.

(* ------------------------------------------------------------------ *)
(** ** Further concrete inputs: small validator maps, a two-validator
    consensus engine and a mempool collaborator for [AddTx]. *)
Module ExtraScenarios.
Import DPoS.

Definition val_a : Validator := mkValidator "a" [] 10 10 ∅ 0 0 0.
Definition val_b : Validator := mkValidator "b" [] 20 20 ∅ 0 0 0.
Definition two_validators : validators := <["a" := val_a]> {[ "b" := val_b ]}.


Definition two_set : Types.ValidatorSet :=
  Types.mkValidatorSet
    [Types.mkValidator "v1" (repeat Byte.x01 32) 1;
     Types.mkValidator "v2" (repeat Byte.x02 32) 3] 4.

Definition engine2 : Consensus.Engine :=
  Consensus.mkEngine 100 7 0 Types.zero_hash two_set "v1".

(** Alice is stored at nonce 0 with 1000 RC; every transaction costs 101. *)
Definition add_coll : MempoolAdd.AddColl :=
  MempoolAdd.mkAddColl
    (fun _ => Some (Some (mkAccount "alice" 100 0 100 1000 1000 0 [] Scenarios.pkA)))
    (fun _ => Some 101) (Scenarios.mk_env (State.GovernanceVote 1 1) []).

Definition queued : MempoolAdd.pool_map :=
  {[ "alice" := [mkTx "alice" "bob" 1 [Byte.x01] (repeat Byte.x00 64)] ]}.

End ExtraScenarios.

(** * Properties *)

(* ------------------------------------------------------------------ *)
(** ** Machine-integer facts *)

Lemma i64_id (z : Z) : in_i64 z -> i64 z = z.
Proof.
  unfold in_i64, i64. intros [Hlo Hhi].
  destruct (Z_le_gt_dec 0 z) as [Hz | Hz].
  - rewrite Z.mod_small by lia.
    destruct (2 ^ 63 <=? z) eqn:E; [apply Z.leb_le in E; lia | reflexivity].
  - assert (Hm : z mod 2 ^ 64 = z + 2 ^ 64).
    { symmetry. apply Z.mod_unique with (q := -1); lia. }
    rewrite Hm.
    destruct (2 ^ 63 <=? z + 2 ^ 64) eqn:E; [lia | apply Z.leb_gt in E; lia].
Qed.

(* ------------------------------------------------------------------ *)
(** ** RC engine *)
Module RCFacts.
Import RC Scenarios.

Lemma length_insert_sorted (x : Z) (l : list Z) :
  length (insert_sorted x l) = S (length l).
Proof.
  induction l as [|y r IH]; simpl; [reflexivity|].
  destruct (x <? y); simpl; [reflexivity | now rewrite IH].
Qed.

Lemma length_sort_i64 (l : list Z) : length (sort_i64 l) = length l.
Proof.
  induction l as [|x r IH]; simpl; [reflexivity|].
  now rewrite length_insert_sorted, IH.
Qed.

(** [Median] picks index [(n - 1) / 2] of the sorted window: the middle
    element on odd counts and the lower middle one on even counts. *)
Lemma Median_lower_middle (ts : list Z) :
  ts <> [] -> Median ts = nth ((length ts - 1) / 2) (sort_i64 ts) 0.
Proof.
  intros Hne. destruct ts as [|t r]; [congruence|].
  unfold Median. rewrite length_sort_i64.
  set (n := length (t :: r)).
  assert (Hn : (1 <= n)%nat) by (subst n; simpl; lia).
  destruct (Nat.odd n) eqn:Hodd; f_equal.
  - apply Nat.odd_spec in Hodd. destruct Hodd as [k Hk]. rewrite Hk.
    replace (2 * k + 1 - 1)%nat with (2 * k)%nat by lia.
    rewrite Nat.mul_comm, Nat.div_mul by lia.
    replace (k * 2 + 1)%nat with (1 + k * 2)%nat by lia.
    rewrite Nat.div_add by lia. reflexivity.
  - assert (Hev : Nat.even n = true).
    { rewrite <- Nat.negb_odd, Hodd. reflexivity. }
    apply Nat.even_spec in Hev. destruct Hev as [k Hk]. rewrite Hk.
    assert (1 <= k)%nat by lia.
    replace (2 * k - 1)%nat with (1 + (k - 1) * 2)%nat by lia.
    rewrite Nat.div_add by lia.
    rewrite Nat.mul_comm, Nat.div_mul by lia. simpl. lia.
Qed.

(** Away from int64 overflow, [EffectiveTime] on a non-empty window is
    the clamp of the block time to [median +- maxSkew]. *)
Lemma EffectiveTime_clamp_no_overflow (t : Z) (ts : list Z) (s : Z) :
  ts <> [] -> 0 <= s ->
  in_i64 (Median ts - s) -> in_i64 (Median ts + s) ->
  EffectiveTime t ts s = Z.max (Median ts - s) (Z.min t (Median ts + s)).
Proof.
  intros Hne Hs Hlo Hhi. destruct ts as [|x r]; [congruence|].
  unfold EffectiveTime. cbv zeta.
  rewrite (i64_id _ Hlo), (i64_id _ Hhi).
  destruct (t <? Median (x :: r) - s) eqn:E1.
  - apply Z.ltb_lt in E1. lia.
  - apply Z.ltb_ge in E1.
    destruct (Median (x :: r) + s <? t) eqn:E2.
    + apply Z.ltb_lt in E2. lia.
    + apply Z.ltb_ge in E2. lia.
Qed.

(** C4 (code_bug). With a window [100] and [max_skew = 2^63 - 1] (which
    passes [ValidateGenesis]), [median + max_skew] wraps around in int64,
    and [EffectiveTime 100] returns [-2^63 + 99] where the clamp of 100 to
    [median +- max_skew] is 100.  The literal scenario of the spec holds. *)
Theorem EffectiveTime_int64_wrap :
  ValidateGenesis skew_params = true /\
  EffectiveTime 100 [100] (MaxSkewSec skew_params) = - 2 ^ 63 + 99 /\
  Z.max (100 - MaxSkewSec skew_params)
        (Z.min 100 (100 + MaxSkewSec skew_params)) = 100 /\
  EffectiveTime 200 [100; 101; 102; 103; 104] 5 = 107 /\
  EffectiveTime 90 [100; 101; 102; 103; 104] 5 = 97 /\
  EffectiveTime 102 [100; 101; 102; 103; 104] 5 = 102.
Proof. vm_compute. repeat split. Qed.

(** C9. With an empty timestamp window, [EffectiveTime] returns the block
    timestamp unchanged, whatever [max_skew]. *)
Theorem EffectiveTime_empty_window (t maxSkew : Z) :
  EffectiveTime t [] maxSkew = t.
Proof. reflexivity. Qed.

(** C5 (code_bug). [t_new - t_last] is an int64 subtraction: with
    [t_last = -2^63], [t_new = 2^62], stake 1, rc 0, alpha 10, beta 1, the
    difference wraps to a negative number, is floored to 0, and [Regen]
    leaves rc at 0; the formula of the claim gives [min(3 * 2^62, 10) = 10].
    The literal scenario of the spec holds. *)
Theorem Regen_int64_wrap :
  ValidateGenesis regen_params = true /\
  Regen regen_params 0 1 (- 2 ^ 63) (2 ^ 62) = (0, 2 ^ 62) /\
  regen_formula regen_params 0 1 (- 2 ^ 63) (2 ^ 62) = 10 /\
  fst (Regen literal_params 0 5 0 3) = 30 /\
  regen_formula literal_params 0 5 0 3 = 30 /\
  RCMax literal_params 5 = 50.
Proof. vm_compute. repeat split. Qed.

End RCFacts.

(* ------------------------------------------------------------------ *)
(** ** DPoS *)
Module DPoSFacts.
Import DPoS.

(** C10. [SlashOffline] returns the same result and leaves the same
    validator map as [SlashDoubleSign] on the same arguments. *)
Theorem SlashOffline_is_SlashDoubleSign (d : validators) (validator : string)
    (slashBps jailEpochs currentEpoch : Z) :
  SlashOffline d validator slashBps jailEpochs currentEpoch =
  SlashDoubleSign d validator slashBps jailEpochs currentEpoch.
Proof. reflexivity. Qed.

End DPoSFacts.

(* ------------------------------------------------------------------ *)
(** ** Consensus *)
Module ConsensusFacts.
Import Consensus Scenarios.

(** C1 (code_bug). [VerifyQC] checks the bitmap length and the signature
    of every set bit but never the signed power: a QC with no bit set
    over a one-validator set of power 1 is accepted although its signed
    power 0 does not exceed 2/3 of the total power. *)
Theorem VerifyQC_accepts_powerless_qc (c : Crypto) :
  VerifyQC c empty_qc one_validator_set = None /\
  qc_signed_power empty_qc one_validator_set * 3 <=
    TotalPower one_validator_set * 2.
Proof. split; reflexivity || (vm_compute; discriminate). Qed.

(** C3 (code_bug). A proposal built by [ProposeBlock] carries, as its
    state root, the hash of the block itself (built with a zero state
    root), not a Preview of its transactions; height, parent and
    timestamp are as the spec says. *)
Theorem ProposeBlock_state_root_is_block_hash (env : ProposerEnv) (e : Engine)
    (prop : Proposal) :
  ProposeBlock env e = inr prop ->
  HashBlock env (with_state_root (PBlock prop) zero_hash) =
    Some (StateRoot (PBlock prop)) /\
  Height (PBlock prop) = u64 (EHeight e + 1) /\
  PrevHash (PBlock prop) = LastFinalized e /\
  Timestamp (PBlock prop) = Now env.
Proof.
  unfold ProposeBlock.
  destruct (isExpectedProposer e (ValidatorAddr e)); simpl; [|discriminate].
  destruct (SelectForBlock env (BlockMaxTxs e)) as [txs|]; [|discriminate].
  destruct (HashBlock env _) as [h|] eqn:Hh; [|discriminate].
  destruct (ProposalSignBytes env _) as [pb|]; [|discriminate].
  destruct (Sign env pb) as [sig|]; [|discriminate].
  destruct (BroadcastProposal env) as [bc|].
  - destruct (bc _); [|discriminate]. intros H; injection H as <-.
    simpl. repeat split. exact Hh.
  - intros H; injection H as <-. simpl. repeat split. exact Hh.
Qed.

Lemma ProposeBlock_state_root_is_block_hash_witness :
  exists prop, ProposeBlock env0 engine0 = inr prop /\
  HashBlock env0 (with_state_root (PBlock prop) zero_hash) =
    Some (StateRoot (PBlock prop)).
Proof.
  eexists. split.
  - vm_compute. reflexivity.
  - apply (ProposeBlock_state_root_is_block_hash env0 engine0).
    vm_compute. reflexivity.
Defined.

End ConsensusFacts.

(* ------------------------------------------------------------------ *)
(** ** Sender pubkey resolution *)
Module ResolveFacts.
Import TxVerify State Scenarios.

Section Rules.
Variable afp : bytes -> option string.

Lemma length_zero_iff (l : bytes) : (length l =? 0)%nat = true <-> l = [].
Proof. destruct l; simpl; split; congruence. Qed.

Lemma resolve_ok_key (txn : Transaction) (stored pk k : bytes) (reg : bool) :
  ResolveSenderPubKey afp txn stored pk = inr (k, reg) ->
  length k = 32%nat /\ afp k = Some (From txn) /\ k <> [].
Proof.
  unfold ResolveSenderPubKey, ensureAddressMatches.
  destruct ((0 <? length pk)%nat && negb (length pk =? 32)%nat) eqn:E1;
    [discriminate|].
  destruct ((0 <? length stored)%nat && negb (length stored =? 32)%nat) eqn:E2;
    [discriminate|].
  destruct (length stored =? 0)%nat eqn:E3.
  - destruct (length pk =? 0)%nat eqn:E4; [discriminate|].
    destruct (afp pk) as [d|] eqn:Ed; [|discriminate].
    destruct (String.eqb d (From txn)) eqn:Eq; [|discriminate].
    intros H; injection H as <- <-. apply String.eqb_eq in Eq; subst d.
    apply Nat.eqb_neq in E4.
    apply andb_false_iff in E1 as [E1|E1].
    + apply Nat.ltb_ge in E1; lia.
    + apply negb_false_iff, Nat.eqb_eq in E1.
      repeat split; [exact E1 | exact Ed | intros ->; simpl in E1; lia].
  - destruct ((0 <? length pk)%nat && negb (bytes_eqb pk stored)); [discriminate|].
    destruct (afp stored) as [d|] eqn:Ed; [|discriminate].
    destruct (String.eqb d (From txn)) eqn:Eq; [|discriminate].
    intros H; injection H as <- <-. apply String.eqb_eq in Eq; subst d.
    apply Nat.eqb_neq in E3.
    apply andb_false_iff in E2 as [E2|E2].
    + apply Nat.ltb_ge in E2; lia.
    + apply negb_false_iff, Nat.eqb_eq in E2.
      repeat split; [exact E2 | exact Ed | intros ->; simpl in E2; lia].
Qed.

Lemma resolve_stored (txn : Transaction) (stored pk : bytes) :
  length stored = 32%nat -> afp stored = Some (From txn) ->
  (pk = [] \/ pk = stored) ->
  ResolveSenderPubKey afp txn stored pk = inr (stored, false).
Proof.
  intros Hl Ha Hpk. unfold ResolveSenderPubKey, ensureAddressMatches.
  rewrite Hl, Ha, String.eqb_refl.
  destruct Hpk as [-> | ->]; simpl.
  - reflexivity.
  - rewrite Hl. unfold bytes_eqb. rewrite bool_decide_eq_true_2 by reflexivity.
    reflexivity.
Qed.

End Rules.

Lemma dispatch_sender (env : Env) (preview : bool) (txn : Transaction)
    (p : Payload) (s s' : Account) (st st' : store) (i w : Z) :
  dispatch env preview txn p s st = inr (s', st', i, w) ->
  AAddress s' = AAddress s /\ PubKey s' = PubKey s.
Proof.
  destruct p; simpl.
  - destruct (Balance s <? amount); [discriminate|].
    intros H; injection H as <- _ _ _. split; reflexivity.
  - destruct (Balance s <? amount); [discriminate|].
    intros H; injection H as <- _ _ _. split; reflexivity.
  - destruct (AStake s <? amount); [discriminate|].
    intros H; injection H as <- _ _ _. split; reflexivity.
  - destruct (Contracts env) as [eng|]; [|discriminate].
    destruct (negb _); [discriminate|].
    intros H; injection H as <- _ _ _. split; reflexivity.
  - destruct (Contracts env) as [eng|]; [|discriminate].
    destruct preview.
    + intros H; injection H as <- _ _ _. split; reflexivity.
    + destruct (ExecuteContract eng (From txn) address) as [[ii ww]|];
        [|discriminate].
      intros H; injection H as <- _ _ _. split; reflexivity.
  - intros H; injection H as <- _ _ _. split; reflexivity.
  - intros H; injection H as <- _ _ _. split; reflexivity.
Qed.

Lemma get_address (st : store) (addr : string) :
  store_wf st -> AAddress (get st addr) = addr.
Proof.
  intros Hwf. unfold get. destruct (st !! addr) as [a|] eqn:E.
  - exact (Hwf _ _ E).
  - reflexivity.
Qed.

(** Shape of a successful application: the decoded envelope, the
    resolution, and the sender account finally written. *)
Lemma apply_success_shape (env : Env) (eff : Z) (preview : bool)
    (txn : Transaction) (st st' : store) :
  store_wf st ->
  applyTransactionWithKV env eff preview txn st = (None, st') ->
  exists envl k reg a st2,
    DecodePayload env (Types.Payload txn) = Some envl /\
    ResolveSenderPubKey (AddressFromPubKey env) txn
      (PubKey (get st (From txn))) (SenderPubKey envl) = inr (k, reg) /\
    (if reg then k else PubKey (get st (From txn))) = PubKey a /\
    AAddress a = From txn /\
    st' = set st2 a.
Proof.
  intros Hwf. unfold applyTransactionWithKV.
  destruct (String.eqb (From txn) "" || String.eqb (To txn) ""); [discriminate|].
  destruct (DecodePayload env (Types.Payload txn)) as [envl|] eqn:Hd;
    [|discriminate].
  destruct (ResolveSenderPubKey _ _ _ _) as [e|[k reg]] eqn:Hr; [discriminate|].
  destruct (negb (VerifySignature env txn k)); [discriminate|].
  destruct (RC.Regen _ _ _ _ _) as [rc last].
  destruct (negb (_ =? Nonce txn)); [discriminate|].
  destruct (MarshalTransaction env txn) as [sz|]; [|discriminate].
  destruct (dispatch _ _ _ _ _ _) as [e|[[[s' st2] i] w]] eqn:Hdis;
    [discriminate|].
  apply dispatch_sender in Hdis as [Haddr Hpk].
  destruct (RC s' <? _); [discriminate|].
  intros H; injection H as <-.
  do 5 eexists. split; [reflexivity|]. split; [first [exact Hr | reflexivity]|].
  split; [|split; [|reflexivity]].
  - simpl. rewrite Hpk. destruct reg; reflexivity.
  - simpl. rewrite Haddr. destruct reg; simpl; apply get_address; exact Hwf.
Qed.

Lemma resolve_ok_cases (afp : bytes -> option string) (txn : Transaction)
    (stored pk k : bytes) (reg : bool) :
  ResolveSenderPubKey afp txn stored pk = inr (k, reg) ->
  (stored = [] /\ k = pk /\ reg = true) \/
  (stored <> [] /\ k = stored /\ reg = false).
Proof.
  unfold ResolveSenderPubKey, ensureAddressMatches.
  destruct (_ && _); [discriminate|]. destruct (_ && _); [discriminate|].
  destruct (length stored =? 0)%nat eqn:E3.
  - apply length_zero_iff in E3. destruct (length pk =? 0)%nat; [discriminate|].
    destruct (afp pk) as [d|]; [|discriminate].
    destruct (String.eqb d (From txn)); [|discriminate].
    intros H; injection H as <- <-. left. auto.
  - destruct (_ && _); [discriminate|].
    destruct (afp stored) as [d|]; [|discriminate].
    destruct (String.eqb d (From txn)); [|discriminate].
    intros H; injection H as <- <-. right. split; [|auto].
    intros ->. discriminate.
Qed.

Lemma pos_length (l : bytes) : l <> [] -> (0 <? length l)%nat = true.
Proof. destruct l; simpl; [congruence | reflexivity]. Qed.

(** C8. Sender pubkey resolution: it fails on a first spend without
    [sender_pubkey], on a supplied key of length other than 32, on a
    supplied key deriving another address than [from], and on a supplied
    key differing from a registered one; it succeeds otherwise (for a
    registered key, which registration only ever stores in a form
    deriving [from]).  A successful application stores the resolved key
    in the sender account (the supplied one on first spend, the
    registered one afterwards), and later spends from the same address
    resolve to that stored key without registering again. *)
Theorem ResolveSenderPubKey_first_spend (env : Env) :
  (forall (txn : Transaction) (stored pk : bytes),
    let r := ResolveSenderPubKey (AddressFromPubKey env) txn stored pk in
    (stored = [] -> pk = [] -> is_err r) /\
    (pk <> [] -> length pk <> 32%nat -> is_err r) /\
    (pk <> [] -> AddressFromPubKey env pk <> Some (From txn) -> is_err r) /\
    (stored <> [] -> pk <> [] -> pk <> stored -> is_err r) /\
    (stored = [] -> length pk = 32%nat ->
       AddressFromPubKey env pk = Some (From txn) -> r = inr (pk, true)) /\
    (length stored = 32%nat -> AddressFromPubKey env stored = Some (From txn) ->
       (pk = [] \/ pk = stored) -> r = inr (stored, false))) /\
  (forall (eff : Z) (preview : bool) (txn : Transaction) (st st' : store),
    store_wf st ->
    applyTransactionWithKV env eff preview txn st = (None, st') ->
    exists a, st' !! From txn = Some a /\
      (PubKey (get st (From txn)) = [] ->
         exists envl, DecodePayload env (Types.Payload txn) = Some envl /\
                      PubKey a = SenderPubKey envl) /\
      (PubKey (get st (From txn)) <> [] ->
         PubKey a = PubKey (get st (From txn))) /\
      (forall (txn' : Transaction) (pk' : bytes), From txn' = From txn ->
         (pk' = [] \/ pk' = PubKey a) ->
         ResolveSenderPubKey (AddressFromPubKey env) txn' (PubKey a) pk' =
           inr (PubKey a, false))).
Proof.
  set (afp := AddressFromPubKey env).
  split.
  - intros txn stored pk r. unfold r. clear r.
    split; [|split; [|split; [|split; [|split]]]].
    + intros -> ->. exact I.
    + intros Hne Hl. unfold ResolveSenderPubKey.
      rewrite (pos_length _ Hne). apply Nat.eqb_neq in Hl. rewrite Hl.
      exact I.
    + intros Hne Ha. unfold ResolveSenderPubKey, ensureAddressMatches.
      rewrite (pos_length _ Hne). simpl.
      destruct (length pk =? 32)%nat eqn:Hl; simpl; [|exact I].
      destruct ((0 <? length stored)%nat && negb (length stored =? 32)%nat);
        [exact I|].
      destruct (length stored =? 0)%nat eqn:Hs.
      * rewrite (proj2 (Nat.eqb_neq _ 0) (fun H => Hne (proj1
                  (length_zero_iff pk) (proj2 (Nat.eqb_eq _ _) H)))).
        destruct (afp pk) as [d|] eqn:Ed; [|exact I].
        destruct (String.eqb d (From txn)) eqn:Eq; [|exact I].
        apply String.eqb_eq in Eq. subst d. congruence.
      * unfold bytes_eqb. destruct (bool_decide (pk = stored)) eqn:Eb;
          simpl; [|exact I].
        apply bool_decide_eq_true_1 in Eb. subst stored.
        destruct (afp pk) as [d|] eqn:Ed; [|exact I].
        destruct (String.eqb d (From txn)) eqn:Eq; [|exact I].
        apply String.eqb_eq in Eq. subst d. congruence.
    + intros Hs Hp Hneq. unfold ResolveSenderPubKey.
      destruct ((0 <? length pk)%nat && negb (length pk =? 32)%nat); [exact I|].
      destruct ((0 <? length stored)%nat && negb (length stored =? 32)%nat);
        [exact I|].
      destruct (length stored =? 0)%nat eqn:E.
      * apply length_zero_iff in E. contradiction.
      * rewrite (pos_length _ Hp). unfold bytes_eqb.
        rewrite bool_decide_eq_false_2 by exact Hneq. exact I.
    + intros -> Hl Ha. unfold ResolveSenderPubKey, ensureAddressMatches.
      rewrite Hl. simpl. fold afp. rewrite Ha, String.eqb_refl. reflexivity.
    + intros Hl Ha Hpk. apply resolve_stored; assumption.
  - intros eff preview txn st st' Hwf Happ.
    destruct (apply_success_shape env eff preview txn st st' Hwf Happ)
      as (envl & k & reg & a & st2 & Hd & Hr & Hpk & Ha & ->).
    exists a. split.
    { unfold set. rewrite Ha. apply lookup_insert_eq. }
    pose proof (resolve_ok_key _ _ _ _ _ _ Hr) as (Hl & Hk & _).
    destruct (resolve_ok_cases _ _ _ _ _ _ Hr)
      as [(Hs & -> & ->) | (Hs & -> & ->)].
    + split; [intros _; exists envl; auto|].
      split; [intros Hne; contradiction|].
      intros txn' pk' Hf Hpk'. rewrite <- Hpk.
      apply resolve_stored; [exact Hl | rewrite Hf; exact Hk | rewrite Hpk; exact Hpk'].
    + split; [intros Hne; contradiction|].
      split; [intros _; auto|].
      intros txn' pk' Hf Hpk'. rewrite <- Hpk.
      apply resolve_stored; [exact Hl | rewrite Hf; exact Hk | rewrite Hpk; exact Hpk'].
Qed.

End ResolveFacts.

(* ------------------------------------------------------------------ *)
(** ** Account invariants under transaction application *)
Module ApplyFacts.
Import TxVerify State Scenarios ResolveFacts.

Lemma ResolveSenderPubKey_first_spend_witness :
  ResolveSenderPubKey (AddressFromPubKey (mk_env (GovernanceVote 1 1) pkA))
    tx_alice [] pkA = inr (pkA, true).
Proof.
  destruct (ResolveSenderPubKey_first_spend (mk_env (GovernanceVote 1 1) pkA))
    as [H _].
  destruct (H tx_alice [] pkA) as (_ & _ & _ & _ & H5 & _).
  apply H5; reflexivity.
Defined.

(** C6 (code_bug). A StakeUndelegate of all of Alice's 1000 stake leaves
    [rc_max = alpha * 0 = 0] but keeps [rc = 10000 - 101 = 9899]. *)
Lemma StakeUndelegate_breaks_rc_bound :
  exists st', applyTransactionWithKV (mk_env (StakeUndelegate "val" 1000) [])
                0 false tx_alice undelegate_store = (None, st') /\
  exists a, st' !! "alice" = Some a /\
    AStake a = 0 /\ RCMax a = RC.RCMax state_params (AStake a) /\
    RCMax a = 0 /\ RC a = 9899.
Proof.
  eexists. split; [vm_compute; reflexivity|].
  eexists. split; [vm_compute; reflexivity|]. vm_compute. repeat split.
Qed.

(** C7 (code_bug). A Transfer of 30 from Alice to herself: the receiver
    is read before the debited sender is written, and the sender written
    last overwrites the credit, so the total of balances and stakes drops
    from 200 to 170. *)
Lemma self_transfer_loses_amount :
  exists st', applyTransactionWithKV (mk_env (Transfer "alice" 30) [])
                0 false tx_alice transfer_store = (None, st') /\
  total_supply transfer_store = 200 /\ total_supply st' = 170.
Proof.
  eexists. split; [vm_compute; reflexivity|]. vm_compute. split; reflexivity.
Qed.

End ApplyFacts.

(* ------------------------------------------------------------------ *)
(** ** Mempool selection *)
Module MempoolFacts.
Import Mempool Scenarios MempoolAux.

Lemma Less_spec (a b : txItem) :
  Less a b = true <-> cost b < cost a \/ (cost a = cost b /\ hash a < hash b).
Proof.
  unfold Less. destruct (cost a =? cost b) eqn:E; simpl.
  - apply Z.eqb_eq in E. rewrite Z.ltb_lt. lia.
  - apply Z.eqb_neq in E. rewrite Z.ltb_lt. lia.
Qed.

Lemma R_irrefl (a : txItem) : ~ R a a.
Proof. unfold R. rewrite Less_spec. lia. Qed.

Lemma R_asym (a b : txItem) : R a b -> R b a -> False.
Proof. unfold R. rewrite !Less_spec. lia. Qed.

#[local] Instance R_trans : Transitive R.
Proof. intros a b d. unfold R. rewrite !Less_spec. lia. Qed.

Lemma R_total (a b : txItem) : hash a <> hash b -> Less a b = false -> R b a.
Proof.
  intros Hh Hf. unfold R. rewrite Less_spec.
  assert (~ (cost b < cost a \/ (cost a = cost b /\ hash a < hash b))) as Hn.
  { rewrite <- Less_spec. congruence. }
  lia.
Qed.

Lemma heap_push_perm (x : txItem) (h : list txItem) :
  Permutation (heap_push x h) (x :: h).
Proof.
  induction h as [|y r IH]; simpl; [reflexivity|].
  destruct (Less x y); [reflexivity|].
  etransitivity; [apply perm_skip, IH | apply perm_swap].
Qed.

Lemma heap_push_hdrel (x y : txItem) (h : list txItem) :
  HdRel R y h -> R y x -> HdRel R y (heap_push x h).
Proof.
  intros Hh Hyx. destruct h as [|z r]; simpl.
  - constructor. exact Hyx.
  - destruct (Less x z); constructor; [exact Hyx|]. inversion Hh; assumption.
Qed.

Lemma heap_push_sorted (x : txItem) (h : list txItem) :
  Sorted R h -> Forall (fun y => hash y <> hash x) h -> Sorted R (heap_push x h).
Proof.
  induction h as [|y r IH]; intros Hs Hd; simpl.
  - repeat constructor.
  - destruct (Less x y) eqn:E.
    + constructor; [exact Hs | constructor; exact E].
    + apply Sorted_inv in Hs as [Hs Hhd]. inversion Hd as [|? ? Hy Hr]; subst.
      constructor; [apply IH; assumption|].
      apply heap_push_hdrel; [exact Hhd|]. apply R_total; [congruence | exact E].
Qed.

Lemma fold_push_perm (l h : list txItem) :
  Permutation (fold_left (fun h it => heap_push it h) l h) (l ++ h).
Proof.
  revert h. induction l as [|x r IH]; intros h; simpl; [reflexivity|].
  etransitivity; [apply IH|].
  etransitivity; [apply Permutation_app_head, heap_push_perm|].
  symmetry. apply Permutation_middle.
Qed.

Lemma fold_push_sorted (l h : list txItem) :
  Sorted R h -> NoDup (map hash (l ++ h)) ->
  Sorted R (fold_left (fun h it => heap_push it h) l h).
Proof.
  revert h. induction l as [|x r IH]; intros h Hs Hnd; simpl; [exact Hs|].
  apply IH.
  - apply heap_push_sorted; [exact Hs|].
    simpl in Hnd. apply NoDup_cons in Hnd as [Hn _].
    apply Forall_forall. intros y Hy Heq. apply Hn. apply list_elem_of_In.
    rewrite map_app. apply in_or_app. right. rewrite <- Heq. apply in_map. apply list_elem_of_In. exact Hy.
  - assert (Hp : (x :: r) ++ h ≡ₚ r ++ heap_push x h).
    { simpl. etransitivity; [apply Permutation_middle|].
      apply Permutation_app_head. symmetry. apply heap_push_perm. }
    apply (proj1 (NoDup_Permutation_proper _ _ (Permutation_map hash Hp)) Hnd).
Qed.

Lemma sorted_unique (l1 l2 : list txItem) :
  StronglySorted R l1 -> StronglySorted R l2 -> NoDup (map hash l2) ->
  Permutation l1 l2 -> l1 = l2.
Proof.
  revert l2. induction l1 as [|x r1 IH]; intros l2 H1 H2 Hnd Hp.
  - symmetry. apply Permutation_nil. exact Hp.
  - destruct l2 as [|y r2]; [apply Permutation_sym, Permutation_nil in Hp; discriminate|].
    apply StronglySorted_inv in H1 as [H1 F1].
    apply StronglySorted_inv in H2 as [H2 F2].
    assert (Hx : In x (y :: r2)) by (eapply Permutation_in; [exact Hp | left; reflexivity]).
    assert (x = y) as <-.
    { destruct Hx as [Hx | Hx]; [congruence|].
      destruct (Z.eq_dec (hash x) (hash y)) as [Heq | Hne].
      - exfalso. simpl in Hnd. apply NoDup_cons in Hnd as [Hn _].
        apply Hn. apply list_elem_of_In. rewrite <- Heq. apply in_map. exact Hx.
      - exfalso.
        assert (Hy : In y (x :: r1))
          by (eapply Permutation_in; [symmetry; exact Hp | left; reflexivity]).
        destruct Hy as [Hy | Hy]; [congruence|].
        apply (R_asym x y).
        + eapply Forall_forall in F1; [exact F1 | apply list_elem_of_In; exact Hy].
        + eapply Forall_forall in F2; [exact F2 | apply list_elem_of_In; exact Hx]. }
    f_equal. apply IH; [exact H1 | exact H2 | | ].
    + simpl in Hnd. apply NoDup_cons in Hnd as [_ Hn]. exact Hn.
    + apply Permutation_cons_inv in Hp. exact Hp.
Qed.


Lemma add_sender_entry (c : Coll) (m : gmap string senderState)
    (addr : string) (q : list Transaction) :
  add_sender c m (addr, q) =
  match sender_entry c addr q with Some e => <[addr := e]> m | None => m end.
Proof.
  unfold add_sender, sender_entry.
  destruct (GetAccount c addr); [destruct q|]; reflexivity.
Qed.

Lemma fold_senders_notin (c : Coll) (p : pool) (m : gmap string senderState)
    (k : string) :
  ~ In k (map fst p) -> fold_left (add_sender c) p m !! k = m !! k.
Proof.
  revert m. induction p as [|[a q] r IH]; intros m Hk; cbn [fold_left]; [reflexivity|].
  simpl in Hk. rewrite IH by tauto. rewrite add_sender_entry.
  destruct (sender_entry c a q); [|reflexivity].
  apply lookup_insert_ne. intros ->. apply Hk. left. reflexivity.
Qed.

Lemma fold_senders_lookup (c : Coll) (p : pool) (m : gmap string senderState)
    (addr : string) (q : list Transaction) :
  List.NoDup (map fst p) -> In (addr, q) p ->
  fold_left (add_sender c) p m !! addr =
  match sender_entry c addr q with Some e => Some e | None => m !! addr end.
Proof.
  revert m. induction p as [|[a q'] r IH]; intros m Hnd Hin; [destruct Hin|].
  simpl in Hnd. apply List.NoDup_cons_iff in Hnd as [Hnotin Hnd].
  cbn [fold_left]. destruct Hin as [Heq | Hin].
  - injection Heq as -> ->.
    rewrite fold_senders_notin by exact Hnotin.
    rewrite add_sender_entry. destruct (sender_entry c addr q); [|reflexivity].
    apply lookup_insert_eq.
  - rewrite IH by assumption. rewrite add_sender_entry.
    assert (Hne : a <> addr).
    { intros ->. apply Hnotin. apply in_map_iff. exists (addr, q). auto. }
    destruct (sender_entry c a q') ; [|reflexivity].
    destruct (sender_entry c addr q); [reflexivity|].
    apply lookup_insert_ne. exact Hne.
Qed.

Lemma build_senders_lookup (c : Coll) (p : pool) (addr : string)
    (q : list Transaction) :
  List.NoDup (map fst p) -> In (addr, q) p ->
  build_senders c p !! addr = sender_entry c addr q.
Proof.
  intros Hnd Hin. unfold build_senders.
  rewrite (fold_senders_lookup c p ∅ addr q Hnd Hin).
  destruct (sender_entry c addr q); [reflexivity|]. apply lookup_empty.
Qed.

Lemma build_senders_perm (c : Coll) (p1 p2 : pool) :
  Permutation p1 p2 -> List.NoDup (map fst p1) ->
  build_senders c p1 = build_senders c p2.
Proof.
  intros Hp Hnd.
  assert (Hnd2 : List.NoDup (map fst p2))
    by (eapply Permutation_NoDup; [apply Permutation_map; exact Hp | exact Hnd]).
  apply map_eq. intros k.
  destruct (in_dec String.string_dec k (map fst p1)) as [Hk | Hk].
  - apply in_map_iff in Hk as [[k' q] [Hkq Hin]]. simpl in Hkq. subst k'.
    rewrite (build_senders_lookup c p1 k q Hnd Hin).
    rewrite (build_senders_lookup c p2 k q Hnd2 (Permutation_in _ Hp Hin)).
    reflexivity.
  - assert (Hk2 : ~ In k (map fst p2)).
    { intros H. apply Hk. eapply Permutation_in; [|exact H].
      apply Permutation_map. symmetry. exact Hp. }
    unfold build_senders.
    rewrite (fold_senders_notin c p1 ∅ k Hk), (fold_senders_notin c p2 ∅ k Hk2).
    reflexivity.
Qed.


Lemma seed_step_direct (c : Coll) (S : gmap string senderState)
    (h : list txItem) (addr : string) (q : list Transaction) :
  S !! addr = sender_entry c addr q ->
  seed_step c S h (addr, q) = opt_push (item_direct c (addr, q)) h.
Proof.
  intros HS. unfold seed_step. rewrite HS. unfold sender_entry, item_direct.
  destruct (GetAccount c addr) as [a|]; [|reflexivity].
  destruct q as [|t r]; [reflexivity|]. cbn.
  destruct (negb _); [reflexivity|]. destruct (_ <? _); reflexivity.
Qed.

Lemma fold_seed_direct (c : Coll) (S : gmap string senderState) (p : pool)
    (h : list txItem) :
  (forall addr q, In (addr, q) p -> S !! addr = sender_entry c addr q) ->
  fold_left (seed_step c S) p h =
  fold_left (fun h it => heap_push it h) (direct_items c p) h.
Proof.
  revert h. induction p as [|[addr q] r IH]; intros h HS; cbn [fold_left direct_items]; [reflexivity|].
  rewrite seed_step_direct by (apply HS; left; reflexivity).
  unfold opt_push. destruct (item_direct c (addr, q)); simpl;
    apply IH; intros; apply HS; right; assumption.
Qed.

Lemma direct_items_perm (c : Coll) (p1 p2 : pool) :
  Permutation p1 p2 -> Permutation (direct_items c p1) (direct_items c p2).
Proof.
  induction 1 as [|e l1 l2 _ IH|e1 e2 l|l1 l2 l3 _ IH1 _ IH2]; simpl.
  - reflexivity.
  - destruct (item_direct c e); [apply perm_skip|]; exact IH.
  - destruct (item_direct c e1), (item_direct c e2); try reflexivity.
    apply perm_swap.
  - etransitivity; eassumption.
Qed.

Lemma direct_hashes_sublist (c : Coll) (p : pool) :
  map hash (direct_items c p) `sublist_of` pool_hashes c p.
Proof.
  unfold pool_hashes. induction p as [|[addr q] r IH];
    cbn [direct_items map concat snd]; [constructor|].
  rewrite map_app.
  unfold item_direct.
  destruct (GetAccount c addr) as [a|]; [|apply sublist_inserts_l; exact IH].
  destruct q as [|t q']; [exact IH|].
  destruct (negb _); [apply sublist_inserts_l; exact IH|].
  destruct (RC a <? _); [apply sublist_inserts_l; exact IH|].
  cbn [map]. apply sublist_skip. apply sublist_inserts_l. exact IH.
Qed.

Lemma pool_hashes_perm (c : Coll) (p1 p2 : pool) :
  Permutation p1 p2 -> Permutation (pool_hashes c p1) (pool_hashes c p2).
Proof.
  intros Hp. unfold pool_hashes. apply Permutation_map.
  induction Hp as [|e l1 l2 _ IH|e1 e2 l|l1 l2 l3 _ IH1 _ IH2]; simpl.
  - reflexivity.
  - apply Permutation_app_head. exact IH.
  - rewrite !app_assoc. apply Permutation_app_tail. apply Permutation_app_comm.
  - etransitivity; eassumption.
Qed.

Lemma seed_heap_perm (c : Coll) (p1 p2 : pool) :
  Permutation p1 p2 -> List.NoDup (map fst p1) -> NoDup (pool_hashes c p1) ->
  seed_heap c p1 (build_senders c p1) = seed_heap c p2 (build_senders c p2).
Proof.
  intros Hp Hnd Hh.
  assert (Hnd2 : List.NoDup (map fst p2))
    by (eapply Permutation_NoDup; [apply Permutation_map; exact Hp | exact Hnd]).
  assert (Hh2 : NoDup (pool_hashes c p2))
    by exact (proj1 (NoDup_Permutation_proper _ _ (pool_hashes_perm c _ _ Hp)) Hh).
  unfold seed_heap.
  rewrite (fold_seed_direct c _ p1) by (intros; apply build_senders_lookup; assumption).
  rewrite (fold_seed_direct c _ p2) by (intros; apply build_senders_lookup; assumption).
  assert (Hd1 : NoDup (map hash (direct_items c p1 ++ [])))
    by (rewrite app_nil_r; eapply sublist_NoDup; [exact Hh | apply direct_hashes_sublist]).
  assert (Hd2 : NoDup (map hash (direct_items c p2 ++ [])))
    by (rewrite app_nil_r; eapply sublist_NoDup; [exact Hh2 | apply direct_hashes_sublist]).
  apply sorted_unique.
  - apply Sorted_StronglySorted; [exact R_trans|].
    apply fold_push_sorted; [constructor | exact Hd1].
  - apply Sorted_StronglySorted; [exact R_trans|].
    apply fold_push_sorted; [constructor | exact Hd2].
  - apply (proj2 (NoDup_Permutation_proper _ _
             (Permutation_map hash (fold_push_perm _ _)))).
    exact Hd2.
  - etransitivity; [apply fold_push_perm|].
    etransitivity; [|symmetry; apply fold_push_perm].
    apply Permutation_app_tail. apply direct_items_perm. exact Hp.
Qed.


(** C2. [SelectForBlock] does not depend on the iteration order of the
    Go map holding the pool (any permutation of the per-sender queues,
    one queue per sender, with pairwise distinct transaction hashes gives
    the same list); and on the literal scenario (A and B at nonce 0 with
    rc 100, A0 and A1 of cost 5, B0 of cost 10) [SelectForBlock 3] is
    [[B0; A0; A1]] whatever the hash function. *)
Theorem SelectForBlock_deterministic :
  (forall (c : Coll) (p1 p2 : pool) (max : Z),
     Permutation p1 p2 -> NoDup (map fst p1) -> NoDup (pool_hashes c p1) ->
     SelectForBlock c p1 max = SelectForBlock c p2 max) /\
  (forall hashFn : Transaction -> Z,
     SelectForBlock (mkColl mock_cost hashFn mock_state) literal_pool 3 =
       [txB0; txA0; txA1]).
Proof.
  split.
  - intros c p1 p2 max Hp Hnd Hh. apply NoDup_ListNoDup in Hnd.
    unfold SelectForBlock. destruct (max <=? 0); [reflexivity|].
    rewrite (seed_heap_perm c p1 p2 Hp Hnd Hh).
    rewrite (build_senders_perm c p1 p2 Hp Hnd). reflexivity.
  - intros hashFn. vm_compute. reflexivity.
Qed.

Lemma SelectForBlock_deterministic_witness :
  SelectForBlock literal_coll literal_pool 3 =
  SelectForBlock literal_coll (rev literal_pool) 3.
Proof.
  destruct SelectForBlock_deterministic as [H _].
  apply H.
  - apply perm_swap.
  - apply (bool_decide_unpack _). vm_compute. reflexivity.
  - apply (bool_decide_unpack _). vm_compute. reflexivity.
Defined.

End MempoolFacts.

(* ------------------------------------------------------------------ *)
Module WireFacts.
Import Wire.

Lemma val_byte_of (z : Z) : val (byte_of z) = z mod 256.
Proof.
  unfold val, byte_of.
  pose proof (Z.mod_pos_bound z 256 ltac:(lia)) as Hb.
  destruct (Byte.of_N (Z.to_N (z mod 256))) eqn:E.
  - apply Byte.to_of_N in E. rewrite E. lia.
  - apply Byte.of_N_None_iff in E. lia.
Qed.

Lemma val_bound (x : Byte.byte) : 0 <= val x < 256.
Proof. unfold val. pose proof (Byte.to_N_bounded x). lia. Qed.

Lemma varint_bytes_length (k : nat) (v : Z) :
  (1 <= length (varint_bytes k v) <= S k)%nat.
Proof.
  revert v; induction k; intros v; cbn [varint_bytes].
  - cbn; lia.
  - destruct (v <? 128); cbn [length]; [lia|]. specialize (IHk (v / 128)); lia.
Qed.

Lemma cvar_varint_bytes (k : nat) (sh v : Z) (r : bytes) :
  0 <= sh -> 0 <= v < 2 ^ (7 * Z.of_nat k + 1) ->
  cvar k sh (varint_bytes k v ++ r) = Some (v * 2 ^ sh, length (varint_bytes k v)).
Proof.
  revert sh v; induction k; intros sh v Hsh Hv.
  - cbn [varint_bytes app cvar]. rewrite val_byte_of.
    replace (7 * Z.of_nat 0 + 1) with 1 in Hv by lia.
    rewrite Z.mod_small by lia.
    replace (v <? 2) with true by (symmetry; apply Z.ltb_lt; lia). reflexivity.
  - cbn [varint_bytes].
    destruct (v <? 128) eqn:E.
    + apply Z.ltb_lt in E. cbn [app cvar]. rewrite val_byte_of, Z.mod_small by lia.
      rewrite (proj2 (Z.ltb_lt v 128) E). reflexivity.
    + apply Z.ltb_ge in E. cbn [app cvar]. rewrite val_byte_of.
      pose proof (Z.mod_pos_bound v 128 ltac:(lia)).
      rewrite (Z.mod_small (v mod 128 + 128)) by lia.
      replace (v mod 128 + 128 <? 128) with false by (symmetry; apply Z.ltb_ge; lia).
      assert (Hq : 0 <= v / 128 < 2 ^ (7 * Z.of_nat k + 1)).
      { split; [apply Z.div_pos; lia|].
        apply Z.div_lt_upper_bound; [lia|].
        replace (7 * Z.of_nat (S k) + 1) with (7 + (7 * Z.of_nat k + 1)) in Hv by lia.
        rewrite Z.pow_add_r in Hv by lia. lia. }
      rewrite IHk by lia. cbn [length]. f_equal. f_equal.
      rewrite Z.pow_add_r by lia.
      rewrite (Z.div_mod v 128) at 3 by lia.
      replace (v mod 128 + 128 - 128) with (v mod 128) by lia.
      change (2 ^ 7) with 128. ring.
Qed.

Lemma ConsumeVarint_AppendVarint (v : Z) (r : bytes) :
  0 <= v < 2 ^ 64 ->
  ConsumeVarint (AppendVarint [] v ++ r) = Some (v, length (AppendVarint [] v)).
Proof.
  intros Hv. unfold ConsumeVarint, AppendVarint. rewrite app_nil_l.
  rewrite cvar_varint_bytes by (cbn -[Z.pow]; lia). f_equal. f_equal. lia.
Qed.

Lemma cvar_length (k : nat) (sh : Z) (b : bytes) v n :
  cvar k sh b = Some (v, n) -> (1 <= n <= length b)%nat.
Proof.
  revert sh b v n; induction k; intros sh b v n H; destruct b as [|x r]; try discriminate;
    cbn [cvar] in H.
  - destruct (val x <? 2); inversion H; subst; cbn; lia.
  - destruct (val x <? 128); [inversion H; subst; cbn; lia|].
    destruct (cvar k (sh + 7) r) as [[v' n']|] eqn:E; [|discriminate].
    inversion H; subst. apply IHk in E. cbn; lia.
Qed.

Lemma ConsumeVarint_length (b : bytes) v n :
  ConsumeVarint b = Some (v, n) -> (1 <= n <= length b)%nat.
Proof. apply cvar_length. Qed.

Lemma AppendVarint_app (b : bytes) (v : Z) : AppendVarint b v = b ++ AppendVarint [] v.
Proof. reflexivity. Qed.

Lemma AppendTag_app (b : bytes) (num typ : Z) :
  AppendTag b num typ = b ++ AppendTag [] num typ.
Proof. reflexivity. Qed.

Lemma AppendBytes_app (b v : bytes) : AppendBytes b v = b ++ AppendBytes [] v.
Proof. unfold AppendBytes, AppendVarint. rewrite app_nil_l, app_assoc. reflexivity. Qed.

Lemma EncodeTag_value (num typ : Z) :
  0 <= num -> 0 <= typ < 8 -> EncodeTag num typ = num * 8 + typ.
Proof.
  intros Hn Ht. unfold EncodeTag.
  assert (E7 : Z.land typ 7 = typ).
  { change 7 with (Z.ones 3). rewrite Z.land_ones by lia. apply Z.mod_small. lia. }
  rewrite E7, Z.shiftl_mul_pow2 by lia. change (2 ^ 3) with 8.
  assert (Hl : Z.land (num * 8) typ = 0).
  { rewrite <- E7, (Z.land_comm typ 7), Z.land_assoc. change 7 with (Z.ones 3).
    rewrite (Z.land_ones (num * 8)) by lia. rewrite Z.mod_mul by lia. reflexivity. }
  pose proof (Z.add_lor_land (num * 8) typ). lia.
Qed.

Lemma DecodeTag_EncodeTag (num typ : Z) :
  1 <= num < 2 ^ 31 -> 0 <= typ < 8 -> DecodeTag (EncodeTag num typ) = (num, typ).
Proof.
  intros Hn Ht. rewrite EncodeTag_value by lia. unfold DecodeTag.
  rewrite Z.shiftr_div_pow2 by lia. change (2 ^ 3) with 8.
  replace ((num * 8 + typ) / 8) with num by (apply Z.div_unique with typ; lia).
  replace (2 ^ 31 - 1 <? num) with false by (symmetry; apply Z.ltb_ge; lia).
  change 7 with (Z.ones 3). rewrite Z.land_ones by lia. change (2 ^ 3) with 8.
  f_equal. symmetry. apply Z.mod_unique with num; lia.
Qed.

Lemma ConsumeTag_AppendTag (num typ : Z) (r : bytes) :
  1 <= num < 2 ^ 31 -> 0 <= typ < 8 ->
  ConsumeTag (AppendTag [] num typ ++ r) = Some (num, typ, length (AppendTag [] num typ)).
Proof.
  intros Hn Ht. unfold ConsumeTag, AppendTag.
  rewrite ConsumeVarint_AppendVarint
    by (rewrite EncodeTag_value by lia; lia).
  rewrite DecodeTag_EncodeTag by lia.
  replace (num <? 1) with false by (symmetry; apply Z.ltb_ge; lia). reflexivity.
Qed.

Lemma ConsumeTag_length (b : bytes) num typ n :
  ConsumeTag b = Some (num, typ, n) -> (1 <= n <= length b)%nat.
Proof.
  unfold ConsumeTag. destruct (ConsumeVarint b) as [[v n']|] eqn:E; [|discriminate].
  destruct (DecodeTag v) as [nm t]. destruct (nm <? 1); [discriminate|].
  intros H; inversion H; subst. eapply ConsumeVarint_length; eauto.
Qed.

Lemma ConsumeBytes_AppendBytes (v r : bytes) :
  Z.of_nat (length v) < 2 ^ 64 ->
  ConsumeBytes (AppendBytes [] v ++ r) = Some (v, length (AppendBytes [] v)).
Proof.
  intros Hv. unfold ConsumeBytes, AppendBytes. rewrite <- app_assoc.
  rewrite ConsumeVarint_AppendVarint by lia.
  rewrite skipn_app, skipn_all, Nat.sub_diag, app_nil_l, skipn_O.
  rewrite length_app.
  replace (Z.of_nat (length v + length r) <? Z.of_nat (length v)) with false
    by (symmetry; apply Z.ltb_ge; lia).
  rewrite Nat2Z.id, firstn_app, Nat.sub_diag, firstn_O, app_nil_r, firstn_all.
  rewrite length_app. reflexivity.
Qed.

Lemma ConsumeBytes_length (b v : bytes) n :
  ConsumeBytes b = Some (v, n) -> (n <= length b)%nat.
Proof.
  unfold ConsumeBytes. destruct (ConsumeVarint b) as [[m k]|] eqn:E; [|discriminate].
  destruct (Z.of_nat (length (skipn k b)) <? m) eqn:L; [discriminate|].
  intros H; inversion H; subst. apply Z.ltb_ge in L. rewrite length_skipn in L.
  apply ConsumeVarint_length in E. lia.
Qed.

Section Loop.
Context {T : Type} (step : Z -> Z -> bytes -> T -> option (T * nat)).

Lemma for_fields_fuel (f1 f2 : nat) (acc : T) (b : bytes) :
  (length b <= f1)%nat -> (length b <= f2)%nat ->
  for_fields step f1 acc b = for_fields step f2 acc b.
Proof.
  revert f2 acc b; induction f1; intros f2 acc b H1 H2.
  - destruct b; [destruct f2; reflexivity|cbn in H1; lia].
  - destruct b as [|x r]; [destruct f2; reflexivity|].
    destruct f2; [cbn in H2; lia|]. cbn [for_fields].
    destruct (ConsumeTag (x :: r)) as [[[num typ] n]|] eqn:E; [|reflexivity].
    apply ConsumeTag_length in E.
    destruct (step num typ (skipn n (x :: r)) acc) as [[acc' m]|]; [|reflexivity].
    apply IHf1; rewrite !length_skipn; lia.
Qed.

Lemma decode_fields_nil (acc : T) : decode_fields step acc [] = Some acc.
Proof. reflexivity. Qed.

Lemma decode_fields_step (acc acc' : T) (b : bytes) num typ n m :
  ConsumeTag b = Some (num, typ, n) ->
  step num typ (skipn n b) acc = Some (acc', m) ->
  decode_fields step acc b = decode_fields step acc' (skipn m (skipn n b)).
Proof.
  intros Ht Hs. pose proof (ConsumeTag_length _ _ _ _ Ht) as Hn.
  unfold decode_fields. destruct b as [|x r]; [cbn in Hn; lia|].
  cbn [length for_fields]. rewrite Ht, Hs.
  apply for_fields_fuel; rewrite !length_skipn; cbn [length]; lia.
Qed.

Lemma decode_fields_tag_fail (acc : T) (b : bytes) :
  b <> [] -> ConsumeTag b = None -> decode_fields step acc b = None.
Proof.
  intros Hb Ht. destruct b as [|x r]; [congruence|]. unfold decode_fields.
  cbn [length for_fields]. rewrite Ht. reflexivity.
Qed.

End Loop.

End WireFacts.

(* ------------------------------------------------------------------ *)
Module FieldFacts.
Import Wire WireFacts.

Lemma fits_app_l (a b : bytes) :
  Z.of_nat (length (a ++ b)) < 2 ^ 64 -> Z.of_nat (length a) < 2 ^ 64.
Proof. rewrite length_app. lia. Qed.

Lemma fits_app_r (a b : bytes) :
  Z.of_nat (length (a ++ b)) < 2 ^ 64 -> Z.of_nat (length b) < 2 ^ 64.
Proof. rewrite length_app. lia. Qed.

Lemma fits_AppendBytes (v : bytes) :
  Z.of_nat (length (AppendBytes [] v)) < 2 ^ 64 -> Z.of_nat (length v) < 2 ^ 64.
Proof. unfold AppendBytes. apply fits_app_r. Qed.

Lemma skipn_app_length (a b : bytes) : skipn (length a) (a ++ b) = b.
Proof. rewrite skipn_app, skipn_all, Nat.sub_diag, skipn_O. reflexivity. Qed.

Lemma bytes_field_AppendBytes {T} (v r : bytes) (upd : bytes -> T) :
  Z.of_nat (length v) < 2 ^ 64 ->
  bytes_field BytesType (AppendBytes [] v ++ r) upd
  = Some (upd v, length (AppendBytes [] v)).
Proof. intros H. unfold bytes_field. cbn [negb Z.eqb BytesType].
  rewrite ConsumeBytes_AppendBytes by exact H. reflexivity. Qed.

Lemma varint_field_AppendVarint {T} (z : Z) (r : bytes) (upd : Z -> T) :
  0 <= z < 2 ^ 64 ->
  varint_field VarintType (AppendVarint [] z ++ r) upd
  = Some (upd z, length (AppendVarint [] z)).
Proof. intros H. unfold varint_field. cbn [negb Z.eqb VarintType].
  rewrite ConsumeVarint_AppendVarint by exact H. reflexivity. Qed.

Section Fields.
Context {T : Type} (step : Z -> Z -> bytes -> T -> option (T * nat)).

Lemma decode_bytes_field (acc acc' : T) (num : Z) (v r : bytes) :
  1 <= num < 2 ^ 31 ->
  step num BytesType (AppendBytes [] v ++ r) acc = Some (acc', length (AppendBytes [] v)) ->
  decode_fields step acc (AppendTag [] num BytesType ++ AppendBytes [] v ++ r)
  = decode_fields step acc' r.
Proof.
  intros Hn Hs. erewrite decode_fields_step.
  - rewrite skipn_app_length, skipn_app_length. reflexivity.
  - apply ConsumeTag_AppendTag; [lia | unfold BytesType, VarintType; lia].
  - rewrite skipn_app_length. exact Hs.
Qed.

Lemma decode_varint_field (acc acc' : T) (num z : Z) (r : bytes) :
  1 <= num < 2 ^ 31 ->
  step num VarintType (AppendVarint [] z ++ r) acc = Some (acc', length (AppendVarint [] z)) ->
  decode_fields step acc (AppendTag [] num VarintType ++ AppendVarint [] z ++ r)
  = decode_fields step acc' r.
Proof.
  intros Hn Hs. erewrite decode_fields_step.
  - rewrite skipn_app_length, skipn_app_length. reflexivity.
  - apply ConsumeTag_AppendTag; [lia | unfold BytesType, VarintType; lia].
  - rewrite skipn_app_length. exact Hs.
Qed.

End Fields.

End FieldFacts.

(* ------------------------------------------------------------------ *)
Module PayloadFacts.
Import Wire WireFacts FieldFacts State PayloadCodec.

Ltac fits H := unfold AppendBytes in H; rewrite ?length_app in H; lia.
Ltac norm_append :=
  unfold AppendBytes, AppendTag, AppendVarint; rewrite ?app_nil_l, <- ?app_assoc.

Lemma of_bytes_str (s : string) : of_bytes (str s) = s.
Proof. apply String.string_of_list_byte_of_string. Qed.

Lemma addr_amount_decode (s : string) (amount : Z) :
  0 <= amount < 2 ^ 64 -> Z.of_nat (length (str s)) < 2 ^ 64 ->
  decode_fields addr_amount_step (""%string, 0)
    (AppendTag [] 1 BytesType ++ AppendBytes [] (str s)
     ++ AppendTag [] 2 VarintType ++ AppendVarint [] amount) = Some (s, amount).
Proof.
  intros Ha Hs.
  rewrite (@decode_bytes_field _ _ _ (of_bytes (str s), 0)); [|lia|].
  2: { cbn -[bytes_field AppendBytes app].
       rewrite bytes_field_AppendBytes by exact Hs. reflexivity. }
  rewrite <- (app_nil_r (AppendVarint [] amount)).
  rewrite (@decode_varint_field _ _ _ (of_bytes (str s), amount)); [|lia|].
  2: { cbn -[varint_field AppendVarint app].
       rewrite varint_field_AppendVarint by exact Ha. reflexivity. }
  rewrite decode_fields_nil, of_bytes_str. reflexivity.
Qed.

Lemma contractDeploy_decode (code salt : bytes) :
  Z.of_nat (length code) < 2 ^ 64 -> Z.of_nat (length salt) < 2 ^ 64 ->
  decode_fields contractDeploy_step ([], [])
    (AppendTag [] 1 BytesType ++ AppendBytes [] code
     ++ AppendTag [] 2 BytesType ++ AppendBytes [] salt) = Some (code, salt).
Proof.
  intros Hc Hs.
  rewrite (@decode_bytes_field _ _ _ (code, [])); [|lia|].
  2: { cbn -[bytes_field AppendBytes app].
       rewrite bytes_field_AppendBytes by exact Hc. reflexivity. }
  rewrite <- (app_nil_r (AppendBytes [] salt)).
  rewrite (@decode_bytes_field _ _ _ (code, salt)); [|lia|].
  2: { cbn -[bytes_field AppendBytes app].
       rewrite bytes_field_AppendBytes by exact Hs. reflexivity. }
  reflexivity.
Qed.

Lemma fold_args (args : list bytes) (pre : bytes) :
  fold_left (fun inner arg => AppendBytes (AppendTag inner 3 BytesType) arg) args pre
  = pre ++ concat (map (fun a => AppendTag [] 3 BytesType ++ AppendBytes [] a) args).
Proof.
  revert pre; induction args as [|a args IH]; intros pre; cbn [fold_left map concat].
  - rewrite app_nil_r. reflexivity.
  - rewrite IH, AppendBytes_app, AppendTag_app, <- !app_assoc. reflexivity.
Qed.

Lemma contractCall_args_decode (args : list bytes) address method acc r :
  Z.of_nat (length (concat (map (fun a => AppendTag [] 3 BytesType ++ AppendBytes [] a) args)
                    ++ r)) < 2 ^ 64 ->
  decode_fields contractCall_step (address, method, acc)
    (concat (map (fun a => AppendTag [] 3 BytesType ++ AppendBytes [] a) args) ++ r)
  = decode_fields contractCall_step (address, method, acc ++ args) r.
Proof.
  revert acc; induction args as [|a args IH]; intros acc Hl; cbn [map concat].
  - rewrite app_nil_r. reflexivity.
  - cbn [map concat] in Hl. rewrite <- !app_assoc in Hl |- *.
    rewrite (@decode_bytes_field _ _ _ (address, method, acc ++ [a])); [|lia|].
    2: { cbn -[bytes_field AppendBytes app].
         rewrite bytes_field_AppendBytes by (rewrite !length_app in Hl; fits Hl).
         reflexivity. }
    rewrite !length_app in Hl. rewrite IH by (rewrite length_app; lia).
    rewrite <- app_assoc. reflexivity.
Qed.

Lemma contractCall_decode (address method : string) (args : list bytes) :
  Z.of_nat (length (AppendTag [] 1 BytesType ++ AppendBytes [] (str address)
     ++ AppendTag [] 2 BytesType ++ AppendBytes [] (str method)
     ++ concat (map (fun a => AppendTag [] 3 BytesType ++ AppendBytes [] a) args)))
    < 2 ^ 64 ->
  decode_fields contractCall_step (""%string, ""%string, [])
    (AppendTag [] 1 BytesType ++ AppendBytes [] (str address)
     ++ AppendTag [] 2 BytesType ++ AppendBytes [] (str method)
     ++ concat (map (fun a => AppendTag [] 3 BytesType ++ AppendBytes [] a) args))
  = Some (address, method, args).
Proof.
  intros Hl. rewrite !length_app in Hl.
  rewrite (@decode_bytes_field _ _ _ (of_bytes (str address), ""%string, [])); [|lia|].
  2: { cbn -[bytes_field AppendBytes app].
       rewrite bytes_field_AppendBytes by fits Hl. reflexivity. }
  rewrite (@decode_bytes_field _ _ _ (of_bytes (str address), of_bytes (str method), []));
    [|lia|].
  2: { cbn -[bytes_field AppendBytes app].
       rewrite bytes_field_AppendBytes by fits Hl. reflexivity. }
  rewrite <- (app_nil_r (concat _)).
  rewrite contractCall_args_decode by (rewrite app_nil_r; lia).
  rewrite decode_fields_nil, !of_bytes_str. reflexivity.
Qed.

Lemma governanceProposal_decode (t d k v : string) :
  Z.of_nat (length (AppendTag [] 1 BytesType ++ AppendBytes [] (str t)
     ++ AppendTag [] 2 BytesType ++ AppendBytes [] (str d)
     ++ AppendTag [] 3 BytesType ++ AppendBytes [] (str k)
     ++ AppendTag [] 4 BytesType ++ AppendBytes [] (str v))) < 2 ^ 64 ->
  decode_fields governanceProposal_step (""%string, ""%string, ""%string, ""%string)
    (AppendTag [] 1 BytesType ++ AppendBytes [] (str t)
     ++ AppendTag [] 2 BytesType ++ AppendBytes [] (str d)
     ++ AppendTag [] 3 BytesType ++ AppendBytes [] (str k)
     ++ AppendTag [] 4 BytesType ++ AppendBytes [] (str v))
  = Some (t, d, k, v).
Proof.
  intros Hl. rewrite !length_app in Hl.
  rewrite (@decode_bytes_field _ _ _
             (of_bytes (str t), ""%string, ""%string, ""%string)); [|lia|].
  2: { cbn -[bytes_field AppendBytes app].
       rewrite bytes_field_AppendBytes by fits Hl. reflexivity. }
  rewrite (@decode_bytes_field _ _ _
             (of_bytes (str t), of_bytes (str d), ""%string, ""%string)); [|lia|].
  2: { cbn -[bytes_field AppendBytes app].
       rewrite bytes_field_AppendBytes by fits Hl. reflexivity. }
  rewrite (@decode_bytes_field _ _ _
             (of_bytes (str t), of_bytes (str d), of_bytes (str k), ""%string)); [|lia|].
  2: { cbn -[bytes_field AppendBytes app].
       rewrite bytes_field_AppendBytes by fits Hl. reflexivity. }
  rewrite <- (app_nil_r (AppendBytes [] (str v))).
  rewrite (@decode_bytes_field _ _ _
     (of_bytes (str t), of_bytes (str d), of_bytes (str k), of_bytes (str v))); [|lia|].
  2: { cbn -[bytes_field AppendBytes app].
       rewrite bytes_field_AppendBytes by fits Hl. reflexivity. }
  rewrite decode_fields_nil, !of_bytes_str. reflexivity.
Qed.

Lemma governanceVote_decode (id option : Z) :
  0 <= id < 2 ^ 64 -> 0 <= option < 256 ->
  decode_fields governanceVote_step (0, 0)
    (AppendTag [] 1 VarintType ++ AppendVarint [] id
     ++ AppendTag [] 2 VarintType ++ AppendVarint [] option) = Some (id, option).
Proof.
  intros Hi Ho.
  rewrite (@decode_varint_field _ _ _ (id, 0)); [|lia|].
  2: { cbn -[varint_field AppendVarint app].
       rewrite varint_field_AppendVarint by exact Hi. reflexivity. }
  rewrite <- (app_nil_r (AppendVarint [] option)).
  rewrite (@decode_varint_field _ _ _ (id, option mod 256)); [|lia|].
  2: { cbn -[varint_field AppendVarint app].
       rewrite varint_field_AppendVarint by lia. reflexivity. }
  rewrite decode_fields_nil, Z.mod_small by lia. reflexivity.
Qed.

Lemma encodeTransfer_eq (to : string) (amount : Z) :
  encodeTransfer to amount = AppendTag [] 1 BytesType ++ AppendBytes []
    (AppendTag [] 1 BytesType ++ AppendBytes [] (str to)
     ++ AppendTag [] 2 VarintType ++ AppendVarint [] amount).
Proof. unfold encodeTransfer. norm_append. reflexivity. Qed.

Lemma encodeStakeDelegate_eq (v : string) (amount : Z) :
  encodeStakeDelegate v amount = AppendTag [] 2 BytesType ++ AppendBytes []
    (AppendTag [] 1 BytesType ++ AppendBytes [] (str v)
     ++ AppendTag [] 2 VarintType ++ AppendVarint [] amount).
Proof. unfold encodeStakeDelegate. norm_append. reflexivity. Qed.

Lemma encodeStakeUndelegate_eq (v : string) (amount : Z) :
  encodeStakeUndelegate v amount = AppendTag [] 3 BytesType ++ AppendBytes []
    (AppendTag [] 1 BytesType ++ AppendBytes [] (str v)
     ++ AppendTag [] 2 VarintType ++ AppendVarint [] amount).
Proof. unfold encodeStakeUndelegate. norm_append. reflexivity. Qed.

Lemma encodeContractDeploy_eq (code salt : bytes) :
  encodeContractDeploy code salt = AppendTag [] 4 BytesType ++ AppendBytes []
    (AppendTag [] 1 BytesType ++ AppendBytes [] code
     ++ AppendTag [] 2 BytesType ++ AppendBytes [] salt).
Proof. unfold encodeContractDeploy. norm_append. reflexivity. Qed.

Lemma encodeContractCall_eq (address method : string) (args : list bytes) :
  encodeContractCall address method args = AppendTag [] 5 BytesType ++ AppendBytes []
    (AppendTag [] 1 BytesType ++ AppendBytes [] (str address)
     ++ AppendTag [] 2 BytesType ++ AppendBytes [] (str method)
     ++ concat (map (fun a => AppendTag [] 3 BytesType ++ AppendBytes [] a) args)).
Proof.
  unfold encodeContractCall. rewrite fold_args. norm_append. reflexivity.
Qed.

Lemma encodeGovernanceProposal_eq (t d k v : string) :
  encodeGovernanceProposal t d k v = AppendTag [] 6 BytesType ++ AppendBytes []
    (AppendTag [] 1 BytesType ++ AppendBytes [] (str t)
     ++ AppendTag [] 2 BytesType ++ AppendBytes [] (str d)
     ++ AppendTag [] 3 BytesType ++ AppendBytes [] (str k)
     ++ AppendTag [] 4 BytesType ++ AppendBytes [] (str v)).
Proof. unfold encodeGovernanceProposal. norm_append. reflexivity. Qed.

Lemma encodeGovernanceVote_eq (id option : Z) :
  encodeGovernanceVote id option = AppendTag [] 7 BytesType ++ AppendBytes []
    (AppendTag [] 1 VarintType ++ AppendVarint [] id
     ++ AppendTag [] 2 VarintType ++ AppendVarint [] option).
Proof. unfold encodeGovernanceVote. norm_append. reflexivity. Qed.

Ltac inner_fits Hl :=
  apply fits_AppendBytes; eapply fits_app_r; exact Hl.

(** Each typed payload is one length-delimited field [1..7] whose
    contents decode back to it. *)
Lemma EncodePayload_variant (p : Payload) :
  payload_ranges_ok p -> Z.of_nat (length (EncodePayload p [])) < 2 ^ 64 ->
  exists k inner, EncodePayload p [] = AppendTag [] k BytesType ++ AppendBytes [] inner
    /\ 1 <= k <= 7 /\ Z.of_nat (length inner) < 2 ^ 64
    /\ decode_variant k inner = Some p.
Proof.
  intros Hr Hl. destruct p; cbn [payload_ranges_ok] in Hr;
    unfold EncodePayload in Hl |- *; cbn [length Nat.ltb Nat.leb] in Hl |- *.
  - rewrite encodeTransfer_eq in Hl |- *.
    eexists 1, _. split; [reflexivity|]. split; [lia|].
    assert (Hi := Hl). apply fits_app_r, fits_AppendBytes in Hi.
    split; [exact Hi|]. rewrite !length_app in Hi.
    unfold decode_variant, decodeTransfer; cbn [Z.eqb Pos.eqb].
    rewrite addr_amount_decode by (lia || fits Hi). reflexivity.
  - rewrite encodeStakeDelegate_eq in Hl |- *.
    eexists 2, _. split; [reflexivity|]. split; [lia|].
    assert (Hi := Hl). apply fits_app_r, fits_AppendBytes in Hi.
    split; [exact Hi|]. rewrite !length_app in Hi.
    unfold decode_variant, decodeStakeDelegate; cbn [Z.eqb Pos.eqb].
    rewrite addr_amount_decode by (lia || fits Hi). reflexivity.
  - rewrite encodeStakeUndelegate_eq in Hl |- *.
    eexists 3, _. split; [reflexivity|]. split; [lia|].
    assert (Hi := Hl). apply fits_app_r, fits_AppendBytes in Hi.
    split; [exact Hi|]. rewrite !length_app in Hi.
    unfold decode_variant, decodeStakeUndelegate; cbn [Z.eqb Pos.eqb].
    rewrite addr_amount_decode by (lia || fits Hi). reflexivity.
  - rewrite encodeContractDeploy_eq in Hl |- *.
    eexists 4, _. split; [reflexivity|]. split; [lia|].
    assert (Hi := Hl). apply fits_app_r, fits_AppendBytes in Hi.
    split; [exact Hi|]. rewrite !length_app in Hi.
    unfold decode_variant, decodeContractDeploy; cbn [Z.eqb Pos.eqb].
    rewrite contractDeploy_decode by fits Hi. reflexivity.
  - rewrite encodeContractCall_eq in Hl |- *.
    eexists 5, _. split; [reflexivity|]. split; [lia|].
    assert (Hi := Hl). apply fits_app_r, fits_AppendBytes in Hi.
    split; [exact Hi|].
    unfold decode_variant, decodeContractCall; cbn [Z.eqb Pos.eqb].
    rewrite contractCall_decode by exact Hi. reflexivity.
  - rewrite encodeGovernanceProposal_eq in Hl |- *.
    eexists 6, _. split; [reflexivity|]. split; [lia|].
    assert (Hi := Hl). apply fits_app_r, fits_AppendBytes in Hi.
    split; [exact Hi|].
    unfold decode_variant, decodeGovernanceProposal; cbn [Z.eqb Pos.eqb].
    rewrite governanceProposal_decode by exact Hi. reflexivity.
  - rewrite encodeGovernanceVote_eq in Hl |- *.
    eexists 7, _. split; [reflexivity|]. split; [lia|].
    assert (Hi := Hl). apply fits_app_r, fits_AppendBytes in Hi.
    split; [exact Hi|].
    unfold decode_variant, decodeGovernanceVote; cbn [Z.eqb Pos.eqb].
    rewrite governanceVote_decode by lia. reflexivity.
Qed.

Lemma EncodePayload_split (p : Payload) (pk : bytes) :
  EncodePayload p pk = EncodePayload p []
    ++ (if (0 <? length pk)%nat then AppendTag [] 8 BytesType ++ AppendBytes [] pk else []).
Proof.
  unfold EncodePayload at 1 2. cbn [length Nat.ltb Nat.leb].
  destruct (length pk).
  - rewrite app_nil_r. reflexivity.
  - norm_append. reflexivity.
Qed.

Lemma AppendTag_nonempty (num typ : Z) : AppendTag [] num typ <> [].
Proof.
  unfold AppendTag, AppendVarint. rewrite app_nil_l.
  pose proof (varint_bytes_length 9 (EncodeTag num typ)).
  destruct (varint_bytes 9 _); cbn in *; [lia|discriminate].
Qed.

(** Round trip of the payload codec: decoding an encoded payload gives
    back the payload and the sender key. *)
Theorem DecodePayload_EncodePayload (p : Payload) (pk : bytes) :
  payload_ranges_ok p -> Z.of_nat (length (EncodePayload p pk)) < 2 ^ 64 ->
  DecodePayload (EncodePayload p pk) = Some (mkEnvelope p pk).
Proof.
  intros Hr Hl. rewrite EncodePayload_split in Hl |- *.
  assert (H0 := Hl). apply fits_app_l in H0.
  destruct (EncodePayload_variant p Hr H0) as (k & inner & He & Hk & Hi & Hd).
  rewrite He in Hl |- *. rewrite <- !app_assoc in Hl |- *.
  unfold DecodePayload.
  destruct (length (AppendTag [] k BytesType ++ _) =? 0)%nat eqn:Hz.
  { apply Nat.eqb_eq, length_zero_iff_nil, app_eq_nil in Hz.
    destruct Hz as [Hz _]. exfalso. exact (AppendTag_nonempty _ _ Hz). }
  rewrite (@decode_bytes_field _ _ _ (Some p, [])); [|lia|].
  2: { unfold envelope_step.
       replace ((1 <=? k) && (k <=? 7)) with true by (symmetry; apply andb_true_iff; lia).
       cbn [negb Z.eqb BytesType Pos.eqb].
       rewrite ConsumeBytes_AppendBytes by exact Hi. rewrite Hd. reflexivity. }
  destruct (0 <? length pk)%nat eqn:Hpk.
  - rewrite <- (app_nil_r (AppendBytes [] pk)).
    rewrite (@decode_bytes_field _ _ _ (Some p, pk)); [|lia|].
    2: { unfold envelope_step. cbn -[ConsumeBytes AppendBytes app length].
         rewrite ConsumeBytes_AppendBytes; [reflexivity|].
         rewrite !length_app in Hl. fits Hl. }
    reflexivity.
  - apply Nat.ltb_ge in Hpk. destruct pk; [reflexivity|cbn in Hpk; lia].
Qed.



Lemma DecodePayload_EncodePayload_witness :
  payload_ranges_ok (Transfer "bob" 5)
  /\ DecodePayload (EncodePayload (Transfer "bob" 5) [Byte.x01; Byte.x02])
     = Some (mkEnvelope (Transfer "bob" 5) [Byte.x01; Byte.x02]).
Proof.
  split; [cbn; lia|].
  apply DecodePayload_EncodePayload; [cbn; lia | vm_compute; reflexivity].
Defined.


End PayloadFacts.

(* ------------------------------------------------------------------ *)
Module StoreCodecFacts.
Import Wire WireFacts FieldFacts PayloadCodec PayloadFacts StoreCodec.

Lemma marshalAccount_eq (a : Account) :
  marshalAccount a =
    AppendTag [] 1 BytesType ++ AppendBytes [] (str (AAddress a))
    ++ AppendTag [] 2 VarintType ++ AppendVarint [] (Balance a)
    ++ AppendTag [] 3 VarintType ++ AppendVarint [] (ANonce a)
    ++ AppendTag [] 4 VarintType ++ AppendVarint [] (AStake a)
    ++ AppendTag [] 5 VarintType ++ AppendVarint [] (RC a)
    ++ AppendTag [] 6 VarintType ++ AppendVarint [] (RCMax a)
    ++ AppendTag [] 7 VarintType ++ AppendVarint [] (u64 (LastRCEffectiveTime a))
    ++ (if (0 <? length (Code a))%nat
        then AppendTag [] 8 BytesType ++ AppendBytes [] (Code a) else [])
    ++ (if (0 <? length (PubKey a))%nat
        then AppendTag [] 9 BytesType ++ AppendBytes [] (PubKey a) else []).
Proof.
  unfold marshalAccount.
  destruct (0 <? length (Code a))%nat, (0 <? length (PubKey a))%nat;
    norm_append; rewrite ?app_nil_r; reflexivity.
Qed.

Lemma i64_u64 (z : Z) : in_i64 z -> i64 (u64 z) = z.
Proof.
  intros H. rewrite <- (i64_id z H) at 2. unfold i64, u64.
  rewrite Zmod_mod. reflexivity.
Qed.

Ltac bfield Hl :=
  erewrite decode_bytes_field; [| lia |
    cbn -[bytes_field AppendBytes app];
    rewrite bytes_field_AppendBytes by fits Hl; reflexivity].
Ltac vfield :=
  erewrite decode_varint_field; [| lia |
    cbn -[varint_field AppendVarint app];
    rewrite varint_field_AppendVarint
      by first [assumption | apply Z.mod_pos_bound; lia]; reflexivity].

(** [unmarshalAccount] reads back what [marshalAccount] writes, for
    every account whose counters are uint64 values and whose
    [LastRCEffectiveTime] is an int64 value (a [nil] [Code] or [PubKey]
    is written as nothing and read back as empty). *)
Theorem unmarshalAccount_marshalAccount (a : Account) :
  0 <= Balance a < 2 ^ 64 -> 0 <= ANonce a < 2 ^ 64 -> 0 <= AStake a < 2 ^ 64 ->
  0 <= RC a < 2 ^ 64 -> 0 <= RCMax a < 2 ^ 64 -> in_i64 (LastRCEffectiveTime a) ->
  Z.of_nat (length (marshalAccount a)) < 2 ^ 64 ->
  unmarshalAccount (marshalAccount a) = Some a.
Proof.
  intros Hb Hn Hs Hr Hm Ht Hl. unfold unmarshalAccount.
  rewrite marshalAccount_eq in Hl |- *. rewrite !length_app in Hl.
  bfield Hl. do 6 vfield.
  destruct a as [addr bal non stk rc rcm last code pk];
    cbn [AAddress Balance ANonce AStake RC RCMax LastRCEffectiveTime Code PubKey] in *.
  destruct code as [|c0 code'], pk as [|p0 pk']; cbn [length Nat.ltb Nat.leb] in *;
    rewrite ?app_nil_l.
  - rewrite decode_fields_nil, of_bytes_str, i64_u64 by exact Ht. reflexivity.
  - rewrite <- (app_nil_r (AppendBytes [] (p0 :: pk'))). bfield Hl.
    rewrite decode_fields_nil, of_bytes_str, i64_u64 by exact Ht. reflexivity.
  - rewrite app_nil_r. rewrite <- (app_nil_r (AppendBytes [] (c0 :: code'))).
    bfield Hl.
    rewrite decode_fields_nil, of_bytes_str, i64_u64 by exact Ht. reflexivity.
  - rewrite <- app_assoc, <- (app_nil_r (AppendBytes [] (p0 :: pk'))).
    bfield Hl. bfield Hl.
    rewrite decode_fields_nil, of_bytes_str, i64_u64 by exact Ht. reflexivity.
Qed.

Lemma unmarshalAccount_marshalAccount_witness :
  unmarshalAccount (marshalAccount (mkAccount "alice" 100 0 100 1000 1000 (-7) [] Scenarios.pkA))
  = Some (mkAccount "alice" 100 0 100 1000 1000 (-7) [] Scenarios.pkA).
Proof.
  apply unmarshalAccount_marshalAccount; cbn -[Z.pow];
    first [lia | unfold in_i64; lia | vm_compute; reflexivity].
Defined.

End StoreCodecFacts.

(* ------------------------------------------------------------------ *)
Module TimestampFacts.
Import Wire WireFacts StoreCodec.

Lemma length_be_bytes (k : nat) (v : Z) : length (be_bytes k v) = k.
Proof.
  revert v; induction k; intros v; cbn [be_bytes]; [reflexivity|].
  rewrite length_app, IHk. cbn. lia.
Qed.

Lemma be_value_snoc (l : bytes) (x : Byte.byte) :
  be_value (l ++ [x]) = be_value l * 256 + val x.
Proof. unfold be_value. rewrite fold_left_app. reflexivity. Qed.

Lemma be_value_be_bytes (k : nat) (v : Z) :
  be_value (be_bytes k v) = v mod 2 ^ (8 * Z.of_nat k).
Proof.
  revert v; induction k; intros v; cbn [be_bytes].
  - rewrite Z.mul_0_r, Z.pow_0_r, Z.mod_1_r. reflexivity.
  - rewrite be_value_snoc, IHk, val_byte_of.
    replace (8 * Z.of_nat (S k)) with (8 + 8 * Z.of_nat k) by lia.
    rewrite Z.pow_add_r by lia. change (2 ^ 8) with 256.
    rewrite Z.rem_mul_r by (try lia; apply Z.pow_pos_nonneg; lia). lia.
Qed.

(** Reading [n] int64 items from [b] at offsets [8 * i]. *)
Lemma read_items (ts : list Z) (n : nat) :
  Forall in_i64 ts -> (n <= length ts)%nat ->
  map (fun i => i64 (be_value (firstn 8 (skipn (i * 8)
         (concat (map (fun t => be_bytes 8 (u64 t)) ts))))))
      (seq 0 n) = firstn n ts.
Proof.
  revert n. induction ts as [|t ts IH]; intros n Hf Hn.
  - cbn in Hn. assert (n = 0%nat) as -> by lia. reflexivity.
  - inversion Hf as [|? ? Ht Hts]; subst.
    destruct n as [|n]; [reflexivity|].
    cbn [seq map firstn concat].
    rewrite <- seq_shift, map_map.
    f_equal.
    + cbn [Nat.mul]. rewrite skipn_O, firstn_app, length_be_bytes, Nat.sub_diag,
        firstn_O, app_nil_r, firstn_all2 by (rewrite length_be_bytes; lia).
      rewrite be_value_be_bytes. change (2 ^ (8 * Z.of_nat 8)) with (2 ^ 64).
      unfold u64. rewrite Zmod_mod.
      rewrite <- (i64_id t Ht) at 2. unfold i64. rewrite Zmod_mod. reflexivity.
    + rewrite <- (IH n Hts) by (cbn in Hn; lia). apply map_ext. intros i.
      replace (S i * 8)%nat with (i * 8 + length (be_bytes 8 (u64 t)))%nat
        by (rewrite length_be_bytes; lia).
      rewrite <- skipn_skipn, skipn_app, skipn_all, Nat.sub_diag, skipn_O.
      reflexivity.
Qed.

(** [decodeTimestamps] reads back the window [encodeTimestamps] writes,
    cut to [uint32(len(ts))] entries: the whole window whenever it has
    fewer than 2^32 entries, each an int64 value. *)
Theorem decodeTimestamps_encodeTimestamps (ts : list Z) :
  Forall in_i64 ts ->
  decodeTimestamps (encodeTimestamps ts)
  = Some (firstn (Z.to_nat (Z.of_nat (length ts) mod 2 ^ 32)) ts).
Proof.
  intros Hf. unfold decodeTimestamps, encodeTimestamps.
  set (n := Z.of_nat (length ts) mod 2 ^ 32).
  assert (Hn : 0 <= n <= Z.of_nat (length ts)).
  { subst n. split; [apply Z.mod_pos_bound; lia|].
    apply Z.mod_le; lia. }
  rewrite length_app, length_be_bytes. cbn [Nat.ltb Nat.leb].
  rewrite firstn_app, length_be_bytes, Nat.sub_diag, firstn_O, app_nil_r,
    firstn_all2 by (rewrite length_be_bytes; lia).
  rewrite skipn_app, length_be_bytes, Nat.sub_diag, skipn_O, skipn_all2
    by (rewrite length_be_bytes; lia).
  rewrite app_nil_l, be_value_be_bytes.
  change (2 ^ (8 * Z.of_nat 4)) with (2 ^ 32).
  replace (n mod 2 ^ 32) with n by (subst n; rewrite Zmod_mod; reflexivity).
  assert (Hlen : length (concat (map (fun t => be_bytes 8 (u64 t)) ts))
                 = (8 * length ts)%nat).
  { clear. induction ts as [|t ts IH]; [reflexivity|].
    cbn [map concat]. rewrite length_app, IH, length_be_bytes. cbn [length]. lia. }
  rewrite Hlen.
  destruct (Z.ltb_spec (Z.of_nat (8 * length ts)) (n * 8)); [lia|].
  rewrite read_items by (assumption || lia). reflexivity.
Qed.

Lemma decodeTimestamps_encodeTimestamps_witness :
  decodeTimestamps (encodeTimestamps [100; -5])
  = Some (firstn (Z.to_nat (Z.of_nat (length [100; -5]) mod 2 ^ 32)) [100; -5]).
Proof.
  apply decodeTimestamps_encodeTimestamps.
  repeat constructor; unfold in_i64; lia.
Defined.

End TimestampFacts.

(* ------------------------------------------------------------------ *)
Module RCExtra.
Import RC.
Import RCFacts.

Lemma RCMax_saturating (p : Params) (stake : Z) :
  0 <= Alpha p <= U64_MAX -> 0 <= stake <= U64_MAX ->
  RCMax p stake = Z.min (Alpha p * stake) U64_MAX.
Proof.
  intros Ha Hs. unfold RCMax, U64_MAX in *.
  destruct (stake =? 0) eqn:E1; [apply Z.eqb_eq in E1; subst; cbn; lia|].
  destruct (Alpha p =? 0) eqn:E2; [apply Z.eqb_eq in E2; rewrite E2; cbn; lia|].
  apply Z.eqb_neq in E1, E2. cbn [orb].
  pose proof (Z.div_mod (2 ^ 64 - 1) (Alpha p) ltac:(lia)) as Hd.
  pose proof (Z.mod_pos_bound (2 ^ 64 - 1) (Alpha p) ltac:(lia)) as Hm.
  set (q := (2 ^ 64 - 1) / Alpha p) in *. set (r := (2 ^ 64 - 1) mod Alpha p) in *.
  destruct (q <? stake) eqn:E3.
  - apply Z.ltb_lt in E3. assert (Alpha p * stake >= Alpha p * (q + 1)) by nia. lia.
  - apply Z.ltb_ge in E3. assert (Alpha p * stake <= Alpha p * q) by nia. lia.
Qed.

Lemma RCMax_bounds (p : Params) (stake : Z) :
  0 <= Alpha p <= U64_MAX -> 0 <= stake <= U64_MAX ->
  0 <= RCMax p stake <= U64_MAX.
Proof.
  intros Ha Hs. rewrite RCMax_saturating by lia. unfold U64_MAX in *. nia.
Qed.

Lemma cost_add_saturating (total a b : Z) :
  0 <= total <= U64_MAX -> 0 <= a <= U64_MAX -> 0 <= b <= U64_MAX ->
  cost_add total a b = Z.min (total + a * b) U64_MAX.
Proof.
  intros Ht Ha Hb. unfold cost_add.
  destruct (a =? 0) eqn:E1; [apply Z.eqb_eq in E1; subst; cbn; lia|].
  destruct (b =? 0) eqn:E2; [apply Z.eqb_eq in E2; subst; cbn; lia|].
  apply Z.eqb_neq in E1, E2. cbn [orb]. unfold U64_MAX in *.
  pose proof (Z.div_mod (2 ^ 64 - 1) a ltac:(lia)) as Hd.
  pose proof (Z.mod_pos_bound (2 ^ 64 - 1) a ltac:(lia)) as Hm.
  set (q := (2 ^ 64 - 1) / a) in *. set (r := (2 ^ 64 - 1) mod a) in *.
  destruct (q <? b) eqn:E3.
  - apply Z.ltb_lt in E3. assert (a * b >= a * (q + 1)) by nia. lia.
  - apply Z.ltb_ge in E3. assert (a * b <= a * q) by nia.
    destruct (2 ^ 64 - 1 - a * b <? total) eqn:E4;
      [apply Z.ltb_lt in E4 | apply Z.ltb_ge in E4]; lia.
Qed.

(** [Cost] is the saturating sum of the three weighted terms. *)
Theorem Cost_saturating_sum (p : Params) (sizeBytes wasmInstructions stateWrites : Z) :
  0 <= CSize p <= U64_MAX -> 0 <= CCompute p <= U64_MAX -> 0 <= CStorage p <= U64_MAX ->
  0 <= sizeBytes <= U64_MAX -> 0 <= wasmInstructions <= U64_MAX ->
  0 <= stateWrites <= U64_MAX ->
  Cost p sizeBytes wasmInstructions stateWrites
  = Z.min (CSize p * sizeBytes + CCompute p * wasmInstructions
           + CStorage p * stateWrites) U64_MAX.
Proof.
  intros H1 H2 H3 H4 H5 H6. unfold Cost.
  rewrite (cost_add_saturating 0) by (unfold U64_MAX in *; lia).
  rewrite (cost_add_saturating (Z.min _ _)) by (unfold U64_MAX in *; lia).
  rewrite (cost_add_saturating (Z.min _ _)) by (unfold U64_MAX in *; lia).
  unfold U64_MAX in *. nia.
Qed.

Lemma Cost_saturating_sum_witness :
  Cost Scenarios.literal_params 100 7 3 = Z.min (1 * 100 + 1 * 7 + 1 * 3) U64_MAX.
Proof.
  apply (Cost_saturating_sum Scenarios.literal_params 100 7 3);
    unfold U64_MAX; cbn; lia.
Defined.

(** [Regen] returns the new effective time and an RC between the
    current one (when that is within the cap) and [RCMax]. *)
Theorem Regen_within_cap (p : Params) (currentRC stake t_last t_new : Z) :
  0 <= Alpha p <= U64_MAX -> 0 <= Beta p <= U64_MAX ->
  0 <= currentRC <= U64_MAX -> 0 <= stake <= U64_MAX ->
  snd (Regen p currentRC stake t_last t_new) = t_new
  /\ 0 <= fst (Regen p currentRC stake t_last t_new) <= RCMax p stake
  /\ (currentRC <= RCMax p stake -> currentRC <= fst (Regen p currentRC stake t_last t_new)).
Proof.
  intros Ha Hb Hc Hs. unfold Regen.
  destruct (stake =? 0) eqn:E0.
  { apply Z.eqb_eq in E0. subst. cbn [fst snd].
    unfold RCMax. cbn [Z.eqb orb]. lia. }
  apply Z.eqb_neq in E0.
  pose proof (RCMax_bounds p stake Ha Hs) as Hm.
  set (dt := i64 (t_new - t_last)).
  set (dt' := if dt <? 0 then 0 else dt).
  assert (Hdt : 0 <= dt') by (subst dt'; destruct (dt <? 0) eqn:E;
                                [lia | apply Z.ltb_ge in E; lia]).
  set (regen := if negb (Beta p =? 0) then _ else dt').
  assert (Hr : 0 <= regen).
  { subst regen. destruct (negb (Beta p =? 0)); [|lia].
    destruct (U64_MAX / Beta p <? dt'); [|]; destruct (0 <? stake);
      try (destruct (U64_MAX / stake <? _)); unfold U64_MAX; nia. }
  set (rc := if 0 <? regen then _ else currentRC).
  assert (Hrc : currentRC <= rc <= U64_MAX).
  { subst rc. destruct (0 <? regen); [|lia].
    destruct (U64_MAX - regen <? currentRC) eqn:E;
      [apply Z.ltb_lt in E | apply Z.ltb_ge in E]; unfold U64_MAX in *; lia. }
  cbn [fst snd]. split; [reflexivity|].
  destruct (RCMax p stake <? rc) eqn:E; [apply Z.ltb_lt in E | apply Z.ltb_ge in E]; lia.
Qed.

Lemma Regen_within_cap_witness :
  snd (Regen Scenarios.literal_params 0 5 0 3) = 3
  /\ 0 <= fst (Regen Scenarios.literal_params 0 5 0 3) <= RCMax Scenarios.literal_params 5
  /\ (0 <= RCMax Scenarios.literal_params 5 -> 0 <= fst (Regen Scenarios.literal_params 0 5 0 3)).
Proof.
  apply (Regen_within_cap Scenarios.literal_params 0 5 0 3); unfold U64_MAX; cbn; lia.
Defined.

Lemma Permutation_insert_sorted (x : Z) (l : list Z) :
  Permutation (insert_sorted x l) (x :: l).
Proof.
  induction l as [|y r IH]; cbn; [reflexivity|].
  destruct (x <? y); [reflexivity|].
  rewrite IH. apply perm_swap.
Qed.

Lemma Permutation_sort_i64 (l : list Z) : Permutation (sort_i64 l) l.
Proof.
  induction l as [|x r IH]; cbn; [reflexivity|].
  rewrite Permutation_insert_sorted, IH. reflexivity.
Qed.

Lemma Sorted_insert_sorted (x : Z) (l : list Z) :
  Sorted Z.le l -> Sorted Z.le (insert_sorted x l).
Proof.
  induction 1 as [|y r Hs IH Hh]; cbn; [repeat constructor|].
  destruct (x <? y) eqn:E.
  - apply Z.ltb_lt in E. constructor; [constructor; auto|constructor; lia].
  - apply Z.ltb_ge in E. constructor; [exact IH|].
    destruct r as [|z r]; cbn; [constructor; lia|].
    destruct (x <? z); constructor; [lia|]. inversion Hh; assumption.
Qed.

Lemma Sorted_sort_i64 (l : list Z) : Sorted Z.le (sort_i64 l).
Proof.
  induction l as [|x r IH]; cbn; [constructor|]. apply Sorted_insert_sorted, IH.
Qed.

Lemma sort_i64_perm (l l' : list Z) : Permutation l l' -> sort_i64 l = sort_i64 l'.
Proof.
  intros Hp. apply (Sorted_unique Z.le); try apply Sorted_sort_i64.
  rewrite Permutation_sort_i64, Permutation_sort_i64. exact Hp.
Qed.

(** The median of a non-empty window is one of its timestamps, and it
    does not depend on the order of the window. *)
Theorem Median_of_window (ts ts' : list Z) :
  ts <> [] -> Permutation ts ts' ->
  In (Median ts) ts /\ Median ts' = Median ts.
Proof.
  intros Hne Hp. split.
  - rewrite Median_lower_middle by exact Hne.
    apply (Permutation_in _ (Permutation_sort_i64 ts)), nth_In.
    rewrite length_sort_i64. destruct ts; [congruence|].
    apply Nat.Div0.div_lt_upper_bound; cbn; lia.
  - assert (Hne' : ts' <> []).
    { intros ->. symmetry in Hp. apply Permutation_nil in Hp. congruence. }
    rewrite !Median_lower_middle by assumption.
    rewrite (Permutation_length Hp), (sort_i64_perm ts ts' Hp). reflexivity.
Qed.

Lemma Median_of_window_witness :
  In (Median [104; 100; 102]) [104; 100; 102]
  /\ Median [100; 102; 104] = Median [104; 100; 102].
Proof.
  apply Median_of_window; [discriminate|].
  eapply perm_trans; [apply perm_swap|]. apply perm_skip, perm_swap.
Defined.

(** Under parameters accepted by [ValidateGenesis] (every weight at
    least 1), a transaction costs at least its encoded size and at most
    [U64_MAX], and the RC cap of an account is at least its stake. *)
Theorem genesis_cost_and_cap_lower_bounds (p : Params)
    (sizeBytes wasmInstructions stateWrites stake : Z) :
  ValidateGenesis p = true ->
  0 <= sizeBytes <= U64_MAX -> 0 <= wasmInstructions <= U64_MAX ->
  0 <= stateWrites <= U64_MAX -> 0 <= stake <= U64_MAX ->
  sizeBytes <= Cost p sizeBytes wasmInstructions stateWrites <= U64_MAX
  /\ stake <= RCMax p stake <= U64_MAX.
Proof.
  intros Hg Hs Hw Hsw Hst. unfold ValidateGenesis, within in Hg.
  repeat rewrite andb_true_iff in Hg. rewrite !Z.leb_le in Hg.
  destruct Hg as [[[[[[[Ha1 Ha2] [Hb1 Hb2]] [Hc1 Hc2]] [Hd1 Hd2]] [He1 He2]] _] _].
  rewrite Cost_saturating_sum by (unfold U64_MAX in *; lia).
  rewrite RCMax_saturating by (unfold U64_MAX in *; lia).
  assert (0 <= CCompute p * wasmInstructions) by nia.
  assert (0 <= CStorage p * stateWrites) by nia.
  assert (sizeBytes <= CSize p * sizeBytes) by nia.
  assert (stake <= Alpha p * stake) by nia.
  split; split; try apply Z.le_min_r; apply Z.min_glb; lia.
Qed.

Lemma genesis_cost_and_cap_lower_bounds_witness :
  100 <= Cost Scenarios.literal_params 100 7 3 <= U64_MAX
  /\ 5 <= RCMax Scenarios.literal_params 5 <= U64_MAX.
Proof.
  apply (genesis_cost_and_cap_lower_bounds Scenarios.literal_params 100 7 3 5);
    first [reflexivity | unfold U64_MAX; lia].
Defined.

End RCExtra.

(* ------------------------------------------------------------------ *)
Module DPoSFactsExtra.
Import DPoS DPoSOps ExtraScenarios.

(** ** Go's string order *)

Lemma string_compare_trans (a b c : string) :
  String.compare a b = Lt -> String.compare b c = Lt -> String.compare a c = Lt.
Proof.
  revert b c; induction a as [|x a IH]; intros b c H1 H2;
    destruct b as [|y b]; destruct c as [|z c]; cbn in *; try discriminate; auto.
  unfold Ascii.compare in *.
  destruct (N.compare (Ascii.N_of_ascii x) (Ascii.N_of_ascii y)) eqn:E1; try discriminate;
  destruct (N.compare (Ascii.N_of_ascii y) (Ascii.N_of_ascii z)) eqn:E2; try discriminate.
  - apply N.compare_eq_iff in E1, E2. rewrite E1, E2, N.compare_refl. eauto.
  - apply N.compare_eq_iff in E1. rewrite E1, E2. reflexivity.
  - apply N.compare_eq_iff in E2. rewrite <- E2, E1. reflexivity.
  - rewrite N.compare_lt_iff in E1, E2.
    replace (N.compare (Ascii.N_of_ascii x) (Ascii.N_of_ascii z)) with Lt
      by (symmetry; apply N.compare_lt_iff; lia). reflexivity.
Qed.

Lemma string_compare_lt_asym (a b : string) :
  String.compare a b = Lt -> String.compare b a <> Lt.
Proof. rewrite (String.compare_antisym b a). intros ->. discriminate. Qed.

Lemma string_compare_total (a b : string) :
  a <> b -> String.compare a b <> Lt -> String.compare b a = Lt.
Proof.
  intros Hne Hn. rewrite String.compare_antisym.
  destruct (String.compare a b) eqn:E; try reflexivity; [|congruence].
  apply String.compare_eq_iff in E. congruence.
Qed.

(** ** The comparator of [ValidatorSet] *)

Definition R (v w : Validator) : Prop := less v w = true.

Lemma less_spec (v w : Validator) :
  less v w = true <->
  Power w < Power v \/
  (Power v = Power w /\ String.compare (OperatorAddress v) (OperatorAddress w) = Lt).
Proof.
  unfold less. destruct (Power v =? Power w) eqn:E.
  - apply Z.eqb_eq in E.
    destruct (String.compare _ _); split; intros H; try lia; try tauto;
      destruct H as [H|[_ H]]; try lia; discriminate.
  - apply Z.eqb_neq in E. rewrite Z.ltb_lt. split; [tauto|]. intros [H|[H _]]; lia.
Qed.

Lemma VR_asym (v w : Validator) : R v w -> R w v -> False.
Proof.
  unfold R. rewrite !less_spec. intros [H1|[H1 H2]] [H3|[H3 H4]]; try lia.
  exact (string_compare_lt_asym _ _ H2 H4).
Qed.

#[local] Instance R_trans : Transitive R.
Proof.
  intros u v w. unfold R. rewrite !less_spec.
  intros [H1|[H1 H2]] [H3|[H3 H4]]; try lia.
  right. split; [lia|]. eapply string_compare_trans; eauto.
Qed.

Lemma VR_total (v w : Validator) :
  OperatorAddress v <> OperatorAddress w -> less v w = false -> R w v.
Proof.
  intros Hne Hf. unfold R. rewrite less_spec.
  destruct (Z.lt_total (Power v) (Power w)) as [H|[H|H]]; [left; exact H| |].
  - right. split; [lia|]. apply string_compare_total; [exact Hne|].
    intros Hl. assert (less v w = true) by (apply less_spec; right; auto). congruence.
  - assert (less v w = true) by (apply less_spec; left; lia). congruence.
Qed.

Lemma insert_by_perm (x : Validator) (l : list Validator) :
  Permutation (insert_by x l) (x :: l).
Proof.
  induction l as [|y r IH]; cbn; [reflexivity|].
  destruct (less x y); [reflexivity|].
  rewrite IH. apply perm_swap.
Qed.

Lemma sort_validators_perm (l : list Validator) : Permutation (sort_validators l) l.
Proof.
  induction l as [|x r IH]; cbn; [reflexivity|].
  rewrite insert_by_perm. apply perm_skip, IH.
Qed.

Lemma insert_by_hdrel (x y : Validator) (l : list Validator) :
  HdRel R y l -> R y x -> HdRel R y (insert_by x l).
Proof.
  intros Hh Hyx. destruct l as [|z r]; cbn.
  - constructor. exact Hyx.
  - destruct (less x z); constructor; [exact Hyx|]. inversion Hh; assumption.
Qed.

Lemma insert_by_sorted (x : Validator) (l : list Validator) :
  Sorted R l -> Forall (fun y => OperatorAddress y <> OperatorAddress x) l ->
  Sorted R (insert_by x l).
Proof.
  induction l as [|y r IH]; intros Hs Hd; cbn.
  - repeat constructor.
  - destruct (less x y) eqn:E.
    + constructor; [exact Hs | constructor; exact E].
    + apply Sorted_inv in Hs as [Hs Hhd]. inversion Hd as [|? ? Hy Hr]; subst.
      constructor; [apply IH; assumption|].
      apply insert_by_hdrel; [exact Hhd|]. apply VR_total; [congruence | exact E].
Qed.

Lemma sort_validators_sorted (l : list Validator) :
  NoDup (map OperatorAddress l) -> Sorted R (sort_validators l).
Proof.
  induction l as [|x r IH]; intros Hnd; cbn; [constructor|].
  cbn in Hnd. apply NoDup_cons in Hnd as [Hn Hnd].
  apply insert_by_sorted; [apply IH, Hnd|].
  apply Forall_forall. intros y Hy Heq. apply Hn.
  rewrite <- Heq. apply list_elem_of_In, in_map.
  apply (Permutation_in _ (sort_validators_perm r)). apply list_elem_of_In. exact Hy.
Qed.

Lemma sort_validators_strongly_sorted (l : list Validator) :
  NoDup (map OperatorAddress l) -> StronglySorted R (sort_validators l).
Proof.
  intros H. apply Sorted.Sorted_StronglySorted; [exact R_trans|].
  apply sort_validators_sorted, H.
Qed.

Lemma sort_validators_unique (l l' : list Validator) :
  NoDup (map OperatorAddress l) -> Permutation l l' ->
  sort_validators l = sort_validators l'.
Proof.
  intros Hnd Hp.
  assert (Hnd' : NoDup (map OperatorAddress l')) by (rewrite <- Hp; exact Hnd).
  apply (Sorted_unique_strong R).
  - intros x y _ _ H1 H2. exfalso. exact (VR_asym _ _ H1 H2).
  - apply sort_validators_sorted, Hnd.
  - apply sort_validators_sorted, Hnd'.
  - rewrite !sort_validators_perm. exact Hp.
Qed.

(** ** The total power *)

Lemma fold_power (vs : list Validator) (t : Z) :
  fold_left (fun t v => u64 (t + Power v)) vs (u64 t)
  = u64 (t + fold_right Z.add 0 (map Power vs)).
Proof.
  revert t; induction vs as [|v vs IH]; intros t; cbn [fold_left fold_right map].
  - f_equal. lia.
  - replace (u64 (u64 t + Power v)) with (u64 (t + Power v))
      by (unfold u64; symmetry; apply Zplus_mod_idemp_l).
    rewrite IH. f_equal. lia.
Qed.

Lemma sum_power_perm (vs vs' : list Validator) :
  Permutation vs vs' ->
  fold_right Z.add 0 (map Power vs) = fold_right Z.add 0 (map Power vs').
Proof. induction 1; cbn; lia. Qed.

Lemma keyed_addresses (d : validators) :
  keyed d -> map OperatorAddress (map snd (map_to_list d)) = map fst (map_to_list d).
Proof.
  intros Hk. rewrite map_map. apply map_ext_in. intros [k v] Hin. cbn.
  apply Hk. apply elem_of_map_to_list. apply list_elem_of_In. exact Hin.
Qed.

Lemma keyed_NoDup (d : validators) :
  keyed d -> NoDup (map OperatorAddress (map snd (map_to_list d))).
Proof. intros Hk. rewrite keyed_addresses by exact Hk. apply NoDup_fst_map_to_list. Qed.

(** [ValidatorSet] does not depend on the order in which Go iterates the
    validator map: every iteration order gives the same ordered set,
    indices and total power. *)
Theorem ValidatorSet_iteration_order (d : validators) (l : list (string * Validator)) :
  keyed d -> Permutation l (map_to_list d) ->
  validator_set_of (map snd l) = ValidatorSet d.
Proof.
  intros Hk Hp. unfold ValidatorSet, validator_set_of.
  assert (Hp' : Permutation (map snd l) (map snd (map_to_list d)))
    by (apply Permutation_map, Hp).
  rewrite (sort_validators_unique (map snd l) (map snd (map_to_list d)));
    [| rewrite Hp'; apply keyed_NoDup, Hk | exact Hp'].
  change 0 with (u64 0). rewrite !fold_power, (sum_power_perm _ _ Hp'). reflexivity.
Qed.

Lemma keyed_two_validators : keyed two_validators.
Proof.
  unfold keyed, two_validators. apply map_Forall_insert_2; [reflexivity|].
  apply map_Forall_singleton. reflexivity.
Qed.

Lemma ValidatorSet_iteration_order_witness :
  validator_set_of (map snd [("b", val_b); ("a", val_a)])
  = ValidatorSet two_validators.
Proof.
  apply ValidatorSet_iteration_order; [apply keyed_two_validators|].
  vm_compute. apply perm_swap.
Defined.

Lemma nth_error_assign_index (k : Z) (l : list Validator) (i : nat) :
  nth_error (assign_index k l) i
  = option_map (fun v => with_index v ((k + Z.of_nat i) mod 2 ^ 32)) (nth_error l i).
Proof.
  revert k i; induction l as [|v l IH]; intros k i; destruct i as [|i]; cbn; try reflexivity.
  - f_equal. f_equal. f_equal. lia.
  - rewrite IH. destruct (nth_error l i); cbn; [|reflexivity]. do 3 f_equal. lia.
Qed.

Lemma index_map_notin (k : Z) (l : list Validator) (m : gmap string Z) (a : string) :
  a ∉ map OperatorAddress l -> index_map k l m !! a = m !! a.
Proof.
  revert k m; induction l as [|v l IH]; intros k m Hn; cbn; [reflexivity|].
  cbn in Hn. apply not_elem_of_cons in Hn as [Hv Hn].
  rewrite IH by exact Hn. apply lookup_insert_ne. congruence.
Qed.

Lemma index_map_nth (k : Z) (l : list Validator) (m : gmap string Z) (i : nat) v :
  NoDup (map OperatorAddress l) -> nth_error l i = Some v ->
  index_map k l m !! OperatorAddress v = Some ((k + Z.of_nat i) mod 2 ^ 32).
Proof.
  revert k m i; induction l as [|w l IH]; intros k m i Hnd Hi;
    [destruct i; discriminate|].
  cbn in Hnd. apply NoDup_cons in Hnd as [Hw Hnd].
  destruct i as [|i]; cbn in Hi |- *.
  - injection Hi as <-. rewrite index_map_notin by exact Hw.
    rewrite lookup_insert_eq. do 2 f_equal. lia.
  - rewrite (IH (k + 1) _ i Hnd Hi). do 2 f_equal. lia.
Qed.

Lemma keyed_lookup_values (d : validators) (v : Validator) :
  keyed d -> In v (map snd (map_to_list d)) -> d !! OperatorAddress v = Some v.
Proof.
  intros Hk Hin. apply in_map_iff in Hin as [[k v'] [Hv Hin]]. cbn in Hv. subst v'.
  assert (Hl : d !! k = Some v)
    by (apply elem_of_map_to_list, list_elem_of_In, Hin).
  rewrite (Hk k v Hl). exact Hl.
Qed.

Lemma StronglySorted_nth {A} (Rel : A -> A -> Prop) (l : list A) (i j : nat) x y :
  StronglySorted Rel l -> (i < j)%nat -> nth_error l i = Some x -> nth_error l j = Some y ->
  Rel x y.
Proof.
  revert i j; induction l as [|a l IH]; intros i j Hs Hij Hi Hj; [destruct i; discriminate|].
  apply StronglySorted_inv in Hs as [Hs Hf].
  destruct i as [|i]; destruct j as [|j]; try lia; cbn in Hi, Hj.
  - injection Hi as <-. eapply Forall_forall; [exact Hf|].
    apply nth_error_In in Hj. apply list_elem_of_In. exact Hj.
  - apply (IH i j); auto; lia.
Qed.

Lemma with_index_fields (v : Validator) (i : Z) :
  OperatorAddress (with_index v i) = OperatorAddress v /\ Index (with_index v i) = i.
Proof. split; reflexivity. Qed.

Lemma map_Power_assign_index (k : Z) (l : list Validator) :
  map Power (assign_index k l) = map Power l.
Proof. revert k; induction l as [|v l IH]; intros k; cbn; [reflexivity|]. f_equal. apply IH. Qed.

Lemma less_with_index (v w : Validator) (i j : Z) :
  less (with_index v i) (with_index w j) = less v w.
Proof. reflexivity. Qed.

(** The set built by [ValidatorSet] lists every stored validator exactly
    at its rank, ordered by power descending then address, with [Index]
    and [IndexByAddr] giving that rank and [TotalPower] the uint64 sum of
    the listed powers. *)
Theorem ValidatorSet_ranked (d : validators) :
  keyed d -> Z.of_nat (size d) <= 2 ^ 32 ->
  let s := ValidatorSet d in
  (forall i v, nth_error (VValidators s) i = Some v ->
     Index v = Z.of_nat i /\ VIndexByAddr s !! OperatorAddress v = Some (Z.of_nat i)
     /\ exists v0, d !! OperatorAddress v = Some v0 /\ v = with_index v0 (Z.of_nat i))
  /\ (forall i j v w, (i < j)%nat -> nth_error (VValidators s) i = Some v ->
        nth_error (VValidators s) j = Some w -> less v w = true)
  /\ (forall a v0, d !! a = Some v0 ->
        exists i, nth_error (VValidators s) i = Some (with_index v0 (Z.of_nat i)))
  /\ VTotalPower s = u64 (fold_right Z.add 0 (map Power (VValidators s))).
Proof.
  intros Hk Hsz s.
  set (vs := map snd (map_to_list d)).
  assert (Hnd : NoDup (map OperatorAddress vs)) by apply keyed_NoDup, Hk.
  assert (Hp : Permutation (sort_validators vs) vs) by apply sort_validators_perm.
  assert (Hnd' : NoDup (map OperatorAddress (sort_validators vs))) by (rewrite Hp; exact Hnd).
  assert (Hlen : Z.of_nat (length (sort_validators vs)) <= 2 ^ 32).
  { rewrite (Permutation_length Hp). subst vs. rewrite length_map, length_map_to_list. exact Hsz. }
  assert (Hsmall : forall i, (i < length (sort_validators vs))%nat ->
                   (0 + Z.of_nat i) mod 2 ^ 32 = Z.of_nat i).
  { intros i Hi. apply Z.mod_small. lia. }
  subst s. unfold ValidatorSet, validator_set_of. cbn [VValidators VIndexByAddr VTotalPower].
  fold vs.
  split; [|split; [|split]].
  - intros i v Hv. rewrite nth_error_assign_index in Hv.
    destruct (nth_error (sort_validators vs) i) as [v0|] eqn:E; [|discriminate].
    injection Hv as <-. rewrite !(proj1 (with_index_fields _ _)), (proj2 (with_index_fields _ _)).
    assert (Hi : (i < length (sort_validators vs))%nat)
      by (apply nth_error_Some; congruence).
    rewrite (Hsmall i Hi). split; [reflexivity|]. split.
    + rewrite (index_map_nth 0 _ _ i v0 Hnd' E). rewrite (Hsmall i Hi). reflexivity.
    + exists v0. split; [|reflexivity].
      apply keyed_lookup_values; [exact Hk|].
      apply (Permutation_in _ Hp). eapply nth_error_In; eauto.
  - intros i j v w Hij Hv Hw. rewrite nth_error_assign_index in Hv, Hw.
    destruct (nth_error (sort_validators vs) i) as [v0|] eqn:Ei; [|discriminate].
    destruct (nth_error (sort_validators vs) j) as [w0|] eqn:Ej; [|discriminate].
    injection Hv as <-. injection Hw as <-. rewrite less_with_index.
    eapply (StronglySorted_nth R); eauto. apply sort_validators_strongly_sorted, Hnd.
  - intros a v0 Ha.
    assert (Hin : In v0 (sort_validators vs)).
    { apply (Permutation_in _ (Permutation_sym Hp)). subst vs.
      apply in_map_iff. exists (a, v0). split; [reflexivity|].
      apply list_elem_of_In, elem_of_map_to_list, Ha. }
    apply In_nth_error in Hin as [i Hi].
    exists i. rewrite nth_error_assign_index, Hi. cbn [option_map].
    rewrite Hsmall; [reflexivity|]. apply nth_error_Some. congruence.
  - change 0 with (u64 0) at 1. rewrite fold_power.
    replace (map Power (assign_index 0 (sort_validators vs))) with
      (map Power (sort_validators vs)).
    + rewrite (sum_power_perm _ _ Hp). f_equal.
    + symmetry. apply map_Power_assign_index.
Qed.

Lemma ValidatorSet_ranked_witness :
  VTotalPower (ValidatorSet two_validators)
  = u64 (fold_right Z.add 0 (map Power (VValidators (ValidatorSet two_validators)))).
Proof.
  assert (Hs : Z.of_nat (size two_validators) <= 2 ^ 32) by (vm_compute; discriminate).
  exact (proj2 (proj2 (proj2
    (ValidatorSet_ranked two_validators keyed_two_validators Hs)))).
Defined.

(** ** Registration, delegation, slashing *)

Lemma keyed_insert (d : validators) (a : string) (v : Validator) :
  keyed d -> OperatorAddress v = a -> keyed (<[a := v]> d).
Proof.
  intros Hk Hv k w Hw. destruct (decide (k = a)) as [->|Hne].
  - rewrite lookup_insert_eq in Hw. congruence.
  - rewrite lookup_insert_ne in Hw by congruence. exact (Hk k w Hw).
Qed.

(** Every operation keeps each validator stored under its own address. *)
Theorem keyed_preserved (d : validators) (minStake maxValidators : Z)
    (address delegator : string) (pk : list Byte.byte) (stake commission amount
    slashBps jailEpochs currentEpoch : Z) :
  keyed d ->
  keyed (snd (RegisterValidator minStake maxValidators d address pk stake commission))
  /\ keyed (snd (Delegate d delegator address amount))
  /\ keyed (snd (Undelegate d delegator address amount))
  /\ keyed (snd (SlashDoubleSign d address slashBps jailEpochs currentEpoch)).
Proof.
  intros Hk. split; [|split; [|split]].
  - unfold RegisterValidator. destruct (stake <? minStake); [exact Hk|].
    destruct (d !! address); [exact Hk|].
    destruct (maxValidators <=? _); [exact Hk|]. apply keyed_insert; [exact Hk|reflexivity].
  - unfold Delegate. destruct (d !! address) as [v|] eqn:E; [|exact Hk].
    destruct (amount =? 0); [exact Hk|]. apply keyed_insert; [exact Hk|]. apply (Hk _ _ E).
  - unfold Undelegate. destruct (d !! address) as [v|] eqn:E; [|exact Hk]. cbv zeta.
    destruct (delegation v delegator <? amount); [exact Hk|].
    apply keyed_insert; [exact Hk|]. apply (Hk _ _ E).
  - unfold SlashDoubleSign. destruct (d !! address) as [v|] eqn:E; [|exact Hk].
    apply keyed_insert; [exact Hk|]. apply (Hk _ _ E).
Qed.

Lemma keyed_preserved_witness :
  keyed (snd (RegisterValidator 5 10 two_validators "c" [] 7 0)).
Proof.
  exact (proj1 (keyed_preserved two_validators 5 10 "c" "d" [] 7 0 1 0 0 0
                  keyed_two_validators)).
Defined.

(** [RegisterValidator] succeeds exactly when the stake reaches the
    minimum, the address is new and the set is below [maxValidators]; it
    never replaces a registered validator, never grows the set beyond
    [maxValidators], and stores the new validator with power equal to
    its stake and no delegations. *)
Theorem RegisterValidator_guards (minStake maxValidators : Z) (d : validators)
    (address : string) (pk : list Byte.byte) (stake commission : Z) :
  Z.of_nat (size d) <= maxValidators < 2 ^ 32 ->
  let '(e, d') := RegisterValidator minStake maxValidators d address pk stake commission in
  (e = None <-> minStake <= stake /\ d !! address = None /\ Z.of_nat (size d) < maxValidators)
  /\ (forall a v, d !! a = Some v -> d' !! a = Some v)
  /\ Z.of_nat (size d') <= maxValidators
  /\ (e = None -> exists v, d' !! address = Some v /\ OperatorAddress v = address
        /\ Power v = stake /\ Stake v = stake /\ Delegations v = ∅).
Proof.
  intros Hsz. unfold RegisterValidator.
  destruct (stake <? minStake) eqn:E1.
  { apply Z.ltb_lt in E1. split; [split; [discriminate|lia]|].
    split; [auto|]. split; [lia|discriminate]. }
  apply Z.ltb_ge in E1.
  destruct (d !! address) as [w|] eqn:E2.
  { split; [split; [discriminate|intros (_ & H & _); congruence]|].
    split; [auto|]. split; [lia|discriminate]. }
  rewrite Z.mod_small by lia.
  destruct (maxValidators <=? Z.of_nat (size d)) eqn:E3.
  { apply Z.leb_le in E3. split; [split; [discriminate|lia]|].
    split; [auto|]. split; [lia|discriminate]. }
  apply Z.leb_gt in E3.
  split; [split; [auto|reflexivity]|]. split; [|split].
  - intros a v Ha. destruct (decide (a = address)) as [->|Hne]; [congruence|].
    rewrite lookup_insert_ne by congruence. exact Ha.
  - rewrite map_size_insert, E2. cbn. lia.
  - intros _. eexists. rewrite lookup_insert_eq. split; [reflexivity|]. cbn. auto.
Qed.

Lemma RegisterValidator_guards_witness :
  let '(e, d') := RegisterValidator 5 10 two_validators "c" [] 7 0 in
  (e = None <-> 5 <= 7 /\ two_validators !! "c" = None
                /\ Z.of_nat (size two_validators) < 10)
  /\ (forall a v, two_validators !! a = Some v -> d' !! a = Some v)
  /\ Z.of_nat (size d') <= 10
  /\ (e = None -> exists v, d' !! "c" = Some v /\ OperatorAddress v = "c"
        /\ Power v = 7 /\ Stake v = 7 /\ Delegations v = ∅).
Proof.
  apply RegisterValidator_guards. split; [vm_compute; discriminate | reflexivity].
Defined.

Lemma u64_add_sub (p a : Z) : 0 <= p < 2 ^ 64 -> u64 (u64 (p + a) - a) = p.
Proof.
  intros Hp. unfold u64. rewrite Zminus_mod_idemp_l.
  replace (p + a - a) with p by lia. apply Z.mod_small. exact Hp.
Qed.

(** [Undelegate] undoes [Delegate]: delegating an amount that does not
    overflow the delegation and undelegating it again restores the
    validator's power and every delegation amount, and leaves the other
    validators unchanged. *)
Theorem Undelegate_undoes_Delegate (d : validators) (delegator validator : string)
    (amount : Z) (v : Validator) :
  d !! validator = Some v -> 0 < amount ->
  0 <= Power v < 2 ^ 64 -> 0 <= delegation v delegator ->
  delegation v delegator + amount < 2 ^ 64 ->
  exists d1 d2,
    Delegate d delegator validator amount = (None, d1)
    /\ Undelegate d1 delegator validator amount = (None, d2)
    /\ (exists v2, d2 !! validator = Some v2 /\ Power v2 = Power v /\ Stake v2 = Stake v
         /\ forall x, delegation v2 x = delegation v x)
    /\ (forall a, a <> validator -> d2 !! a = d !! a).
Proof.
  intros Hv Ha Hp Hd0 Hd. unfold Delegate. rewrite Hv.
  replace (amount =? 0) with false by (symmetry; apply Z.eqb_neq; lia).
  eexists _, _. split; [reflexivity|].
  unfold Undelegate. rewrite lookup_insert_eq. cbv zeta.
  set (v1 := with_delegation_power v delegator _ _).
  assert (Hd1 : delegation v1 delegator = delegation v delegator + amount).
  { unfold delegation at 1. subst v1. cbn. rewrite lookup_insert_eq. cbn.
    unfold u64. apply Z.mod_small. lia. }
  rewrite Hd1. replace (delegation v delegator + amount <? amount) with false
    by (symmetry; apply Z.ltb_ge; lia).
  split; [reflexivity|]. split.
  - eexists. rewrite lookup_insert_eq. split; [reflexivity|].
    subst v1; cbn. split; [apply u64_add_sub, Hp|]. split; [reflexivity|].
    intros x. unfold delegation. cbn.
    destruct (decide (x = delegator)) as [->|Hne].
    + rewrite !lookup_insert_eq. cbn. unfold u64. unfold delegation in Hd0, Hd.
      rewrite Z.add_simpl_r. apply Z.mod_small. lia.
    + rewrite !lookup_insert_ne by congruence. reflexivity.
  - intros a Hne. rewrite !lookup_insert_ne by congruence. reflexivity.
Qed.

Lemma Undelegate_undoes_Delegate_witness :
  exists d1 d2,
    Delegate two_validators "x" "a" 3 = (None, d1)
    /\ Undelegate d1 "x" "a" 3 = (None, d2)
    /\ (exists v2, d2 !! "a" = Some v2 /\ Power v2 = Power val_a
         /\ Stake v2 = Stake val_a
         /\ forall x, delegation v2 x = delegation val_a x)
    /\ (forall a, a <> "a" -> d2 !! a = two_validators !! a).
Proof.
  apply Undelegate_undoes_Delegate;
    first [reflexivity | unfold delegation; vm_compute; split; congruence
          | unfold delegation; vm_compute; congruence].
Defined.



End DPoSFactsExtra.

(* ------------------------------------------------------------------ *)
Module ConsensusExtra.
Import Consensus ExtraScenarios.

Lemma leader_walk_found (vs : list Validator) (seed acc : Z) :
  Forall (fun v => 0 <= Power v) vs ->
  0 <= acc <= seed ->
  seed < acc + fold_right (fun v s => Power v + s) 0 vs ->
  acc + fold_right (fun v s => Power v + s) 0 vs < 2 ^ 64 ->
  exists v, In v vs /\
    forall addr, leader_walk vs seed acc addr = String.eqb (Address v) addr.
Proof.
  revert acc. induction vs as [|v rest IH]; intros acc Hp Hacc Hlt Hfit;
    cbn [fold_right] in *.
  - lia.
  - inversion Hp as [|? ? Hv Hrest]; subst.
    assert (Hsum : 0 <= fold_right (fun v s => Power v + s) 0 rest).
    { clear -Hrest. induction Hrest; cbn [fold_right]; lia. }
    assert (Hu : u64 (acc + Power v) = acc + Power v)
      by (unfold u64; apply Z.mod_small; lia).
    destruct (Z.ltb_spec seed (acc + Power v)) as [Hs|Hs].
    + exists v. split; [left; reflexivity|].
      intros addr. cbn [leader_walk]. rewrite Hu.
      destruct (Z.ltb_spec seed (acc + Power v)); [reflexivity | lia].
    + destruct (IH (acc + Power v) Hrest) as [w [Hin Hw]]; [lia | lia | lia |].
      exists w. split; [right; exact Hin|].
      intros addr. cbn [leader_walk]. rewrite Hu.
      destruct (Z.ltb_spec seed (acc + Power v)); [lia|]. apply Hw.
Qed.

(** [isExpectedProposerLocked] picks exactly one leader: when the set's
    [TotalPower] is the (non-wrapping) sum of its non-negative powers and
    is positive, there is a validator of the set whose address, and no
    other, is accepted at the engine's height and round. *)
Theorem isExpectedProposer_unique_leader (e : Engine) :
  Forall (fun v => 0 <= Power v) (Validators (ValidatorSetOf e)) ->
  TotalPower (ValidatorSetOf e) =
    fold_right (fun v s => Power v + s) 0 (Validators (ValidatorSetOf e)) ->
  0 < TotalPower (ValidatorSetOf e) < 2 ^ 64 ->
  exists v, In v (Validators (ValidatorSetOf e)) /\
    forall addr, isExpectedProposer e addr = true <-> addr = Address v.
Proof.
  intros Hp Ht Hb. unfold isExpectedProposer.
  destruct (Validators (ValidatorSetOf e)) as [|v0 vs0] eqn:Hvs.
  - cbn in Ht. lia.
  - set (T := TotalPower (ValidatorSetOf e)) in *.
    set (seed := u64 (EHeight e + ERound e) mod T).
    assert (Hseed : 0 <= seed < T) by (apply Z.mod_pos_bound; lia).
    destruct (leader_walk_found (v0 :: vs0) seed 0 Hp) as [w [Hin Hw]];
      [lia | lia | lia |].
    exists w. split; [exact Hin|]. intros addr.
    cbn [length Nat.eqb]. destruct (Z.eqb_spec T 0); [lia|].
    rewrite Hw. rewrite String.eqb_eq. split; intros; subst; reflexivity.
Qed.

Lemma isExpectedProposer_unique_leader_witness :
  exists v, In v (Validators (ValidatorSetOf engine2)) /\
    forall addr, isExpectedProposer engine2 addr = true <-> addr = Address v.
Proof.
  apply isExpectedProposer_unique_leader.
  - repeat constructor; cbn; lia.
  - reflexivity.
  - cbn; lia.
Defined.

End ConsensusExtra.

(* ------------------------------------------------------------------ *)
Module StateExtra.
Import TxVerify State Scenarios.

Lemma dispatch_nonce_wf (env : Env) (preview : bool) (txn : Transaction)
    (p : Payload) (s s' : Account) (st st' : store) (i w : Z) :
  store_wf st ->
  dispatch env preview txn p s st = inr (s', st', i, w) ->
  ANonce s' = ANonce s /\ AAddress s' = AAddress s /\ store_wf st'.
Proof.
  intros Hwf.
  assert (Hset : forall a, store_wf (set st a)).
  { intros a k b. unfold set. destruct (decide (AAddress a = k)) as [<-|Hne].
    - rewrite lookup_insert_eq. intros H; injection H as <-. reflexivity.
    - rewrite lookup_insert_ne by exact Hne. apply Hwf. }
  destruct p; simpl.
  - destruct (Balance s <? amount); [discriminate|].
    intros H; injection H as <- <- _ _. auto.
  - destruct (Balance s <? amount); [discriminate|].
    intros H; injection H as <- <- _ _. auto.
  - destruct (AStake s <? amount); [discriminate|].
    intros H; injection H as <- <- _ _. auto.
  - destruct (Contracts env) as [eng|]; [|discriminate].
    destruct (negb _); [discriminate|].
    intros H; injection H as <- <- _ _. auto.
  - destruct (Contracts env) as [eng|]; [|discriminate].
    destruct preview.
    + intros H; injection H as <- <- _ _. auto.
    + destruct (ExecuteContract eng (From txn) address) as [[ii ww]|];
        [|discriminate].
      intros H; injection H as <- <- _ _. auto.
  - intros H; injection H as <- <- _ _. auto.
  - intros H; injection H as <- <- _ _. auto.
Qed.

Lemma u64_succ_neq (n : Z) : u64 (n + 1) <> n.
Proof.
  unfold u64. intros H.
  pose proof (Z.mod_pos_bound (n + 1) (2 ^ 64)) as Hb.
  destruct (Z.eq_dec n (2 ^ 64 - 1)) as [->|Hn].
  - rewrite Z.sub_add, Z_mod_same_full in H. lia.
  - rewrite Z.mod_small in H; lia.
Qed.

Lemma set_wf (st : store) (a : Account) : store_wf st -> store_wf (set st a).
Proof.
  intros Hwf k b. unfold set. destruct (decide (AAddress a = k)) as [<-|Hne].
  - rewrite lookup_insert_eq. intros H; injection H as <-. reflexivity.
  - rewrite lookup_insert_ne by exact Hne. apply Hwf.
Qed.

Lemma get_set (st : store) (a : Account) (k : string) :
  AAddress a = k -> get (set st a) k = a.
Proof.
  intros <-. unfold get, set. rewrite lookup_insert_eq. reflexivity.
Qed.

(** A successful [applyTransactionWithKV] stores the sender with nonce
    [txn.Nonce + 1] (wrapping at 2^64) and keeps every account under its
    own address; the same transaction applied again to the resulting
    batch fails, whatever the effective time or preview flag. *)
Theorem apply_bumps_nonce_rejects_replay (env : Env) (eff : Z) (preview : bool)
    (txn : Transaction) (st st' : store) :
  store_wf st ->
  applyTransactionWithKV env eff preview txn st = (None, st') ->
  ANonce (get st' (From txn)) = u64 (Nonce txn + 1) /\ store_wf st' /\
  forall eff' preview',
    fst (applyTransactionWithKV env eff' preview' txn st') <> None.
Proof.
  intros Hwf. unfold applyTransactionWithKV at 1.
  destruct (String.eqb (From txn) "" || String.eqb (To txn) "") eqn:Hft;
    [discriminate|].
  destruct (DecodePayload env (Types.Payload txn)) as [envl|] eqn:Hd;
    [|discriminate].
  destruct (ResolveSenderPubKey _ _ _ _) as [e|[k reg]] eqn:Hr; [discriminate|].
  destruct (negb (VerifySignature env txn k)); [discriminate|].
  destruct (RC.Regen _ _ _ _ _) as [rc last].
  destruct (negb (_ =? Nonce txn)) eqn:Hn; [discriminate|].
  apply negb_false_iff, Z.eqb_eq in Hn.
  destruct (MarshalTransaction env txn) as [sz|]; [|discriminate].
  destruct (dispatch _ _ _ _ _ _) as [e|[[[s' st2] i] w]] eqn:Hdis;
    [discriminate|].
  apply (dispatch_nonce_wf _ _ _ _ _ _ _ _ _ _ Hwf) in Hdis
    as [Hnon [Haddr Hwf2]].
  destruct (RC s' <? _); [discriminate|].
  intros H; injection H as <-.
  assert (Hs : ANonce s' = Nonce txn) by (rewrite Hnon, <- Hn; reflexivity).
  clear Hnon Hn.
  match goal with |- context [set st2 ?A] => set (a := A) end.
  assert (Hget : get (set st2 a) (From txn) = a).
  { apply get_set. subst a. simpl. rewrite Haddr.
    destruct reg; simpl; apply ResolveFacts.get_address; exact Hwf. }
  split; [|split].
  - rewrite Hget. subst a. simpl. rewrite Hs. reflexivity.
  - apply set_wf. exact Hwf2.
  - intros eff' preview'. unfold applyTransactionWithKV.
    rewrite Hft, Hd, Hget.
    destruct (ResolveSenderPubKey (AddressFromPubKey env) txn (PubKey a)
                (SenderPubKey envl)) as [e'|[k' reg']];
      [simpl; congruence|].
    destruct (negb (VerifySignature env txn k')); [simpl; congruence|].
    destruct (RC.Regen _ _ _ _ _) as [rc' last'].
    replace (negb (_ =? Nonce txn)) with true; [simpl; congruence|].
    symmetry. apply negb_true_iff, Z.eqb_neq.
    subst a. destruct reg'; simpl; rewrite Hs; apply u64_succ_neq.
Qed.

Lemma transfer_store_wf : store_wf transfer_store.
Proof.
  intros k a H. unfold transfer_store in H.
  apply lookup_singleton_Some in H as [<- <-]. reflexivity.
Qed.

Lemma apply_bumps_nonce_rejects_replay_witness :
  ANonce (get (snd (applyTransactionWithKV (mk_env (GovernanceVote 1 1) []) 0 false
                      tx_alice transfer_store)) (From tx_alice))
    = u64 (Nonce tx_alice + 1).
Proof.
  apply (apply_bumps_nonce_rejects_replay (mk_env (GovernanceVote 1 1) []) 0 false
           tx_alice transfer_store _ transfer_store_wf).
  vm_compute. reflexivity.
Defined.

End StateExtra.

(* ------------------------------------------------------------------ *)
Module MempoolAddFacts.
Import TxVerify MempoolAdd ExtraScenarios.

Lemma insert_by_nonce_spec (txn : Transaction) (q q' : list Transaction) :
  StronglySorted (fun a b => Nonce a < Nonce b) q ->
  insert_by_nonce txn q = Some q' ->
  StronglySorted (fun a b => Nonce a < Nonce b) q' /\
  Permutation q' (txn :: q) /\ Forall (fun e => Nonce e <> Nonce txn) q.
Proof.
  revert q'. induction q as [|e rest IH]; intros q' Hs Hi; cbn [insert_by_nonce] in Hi.
  - injection Hi as <-. split; [repeat constructor|]. split; [reflexivity|].
    constructor.
  - inversion Hs as [|? ? Hrest Hall]; subst.
    destruct (Z.eqb_spec (Nonce txn) (Nonce e)); [discriminate|].
    destruct (Z.ltb_spec (Nonce txn) (Nonce e)).
    + injection Hi as <-. split; [|split; [reflexivity|]].
      * constructor; [exact Hs|]. constructor; [lia|].
        eapply Forall_impl; [exact Hall|]. cbn. intros x Hx. lia.
      * constructor; [lia|]. eapply Forall_impl; [exact Hall|].
        cbn. intros x Hx. lia.
    + destruct (insert_by_nonce txn rest) as [r|] eqn:Hr; [|discriminate].
      injection Hi as <-.
      destruct (IH r Hrest eq_refl) as (Hs' & Hp & Hne).
      split; [|split].
      * constructor; [exact Hs'|].
        apply (Permutation_Forall (Permutation_sym Hp)).
        constructor; [lia | exact Hall].
      * rewrite Hp. apply perm_swap.
      * constructor; [lia | exact Hne].
Qed.

(** [AddTx] keeps every queue of the pool keyed by its sender and
    strictly increasing by nonce; on success it changes only the sender's
    queue, which becomes the old queue with [txn] inserted, and no queued
    transaction of that sender had [txn]'s nonce. *)
Theorem AddTx_keeps_queues_ordered (c : AddColl) (txn : Transaction)
    (pool pool' : pool_map) :
  pool_wf pool ->
  AddTx c txn pool = inr pool' ->
  pool_wf pool' /\
  exists queue, pool' = <[From txn := queue]> pool /\
    Permutation queue (txn :: default [] (pool !! From txn)) /\
    Forall (fun t => Nonce t <> Nonce txn) (default [] (pool !! From txn)).
Proof.
  intros Hwf. unfold AddTx.
  destruct (String.eqb (From txn) "" || String.eqb (To txn) ""); [discriminate|].
  destruct (AGetAccount c (From txn)) as [oacct|]; [|discriminate].
  destruct (State.DecodePayload _ _) as [env|]; [|discriminate].
  destruct (ResolveSenderPubKey _ _ _ _) as [e|[pk reg]]; [discriminate|].
  destruct (negb _); [discriminate|].
  destruct (Nonce txn <? _); [discriminate|].
  destruct (ACost c txn) as [cost|]; [|discriminate].
  destruct (RC _ <? cost); [discriminate|].
  destruct (insert_by_nonce txn _) as [q|] eqn:Hi; [|discriminate].
  intros H; injection H as <-.
  assert (Hold : StronglySorted (fun a b => Nonce a < Nonce b)
                   (default [] (pool !! From txn)) /\
                 Forall (fun t => From t = From txn)
                   (default [] (pool !! From txn))).
  { destruct (pool !! From txn) as [q0|] eqn:E; cbn.
    - exact (Hwf _ _ E).
    - split; constructor. }
  destruct Hold as [Hs Hf].
  destruct (insert_by_nonce_spec _ _ _ Hs Hi) as (Hs' & Hp & Hne).
  split.
  - intros addr queue. destruct (decide (From txn = addr)) as [<-|Hne'].
    + rewrite lookup_insert_eq. intros H; injection H as <-.
      split; [exact Hs'|].
      apply (Permutation_Forall (Permutation_sym Hp)).
      constructor; [reflexivity | exact Hf].
    + rewrite lookup_insert_ne by exact Hne'. apply Hwf.
  - exists q. split; [reflexivity|]. split; [exact Hp | exact Hne].
Qed.

Lemma queued_wf : pool_wf queued.
Proof.
  intros k q H. unfold queued in H.
  apply lookup_singleton_Some in H as [<- <-].
  split; repeat constructor.
Qed.

Lemma AddTx_keeps_queues_ordered_witness :
  pool_wf (match AddTx add_coll Scenarios.tx_alice queued with
           | inr p => p | inl _ => queued end).
Proof.
  apply (proj1 (AddTx_keeps_queues_ordered add_coll Scenarios.tx_alice queued
                  (match AddTx add_coll Scenarios.tx_alice queued with
                   | inr p => p | inl _ => queued end)
                  queued_wf ltac:(vm_compute; reflexivity))).
Defined.

End MempoolAddFacts.

(* ------------------------------------------------------------------ *)
Module SelectExtra.
Import Mempool Scenarios MempoolAux MempoolFacts.

Lemma skipn_nth_error {A} (l : list A) (n : nat) (x : A) :
  nth_error l n = Some x -> skipn n l = x :: skipn (S n) l.
Proof.
  revert n. induction l as [|y r IH]; intros [|n] H; cbn in H |- *;
    try discriminate.
  - injection H as ->. reflexivity.
  - apply IH. exact H.
Qed.

Section Loop.
Variable c : Coll.

(** The heap holds at most one item per sender, namely the transaction at
    that sender's cursor; every queue holds its sender's transactions. *)
Lemma select_loop_prefix (fuel : nat) (h : list txItem)
    (S : gmap string senderState) (addr : string) :
  (forall it, In it h -> exists st, S !! sender it = Some st /\
     nth_error (queue st) (cursor st) = Some (tx it) /\ From (tx it) = sender it) ->
  NoDup (map sender h) ->
  (forall a st, S !! a = Some st -> Forall (fun t => From t = a) (queue st)) ->
  exists j, List.filter (fun t => String.eqb (From t) addr) (select_loop c fuel h S)
    = match S !! addr with
      | Some st => firstn j (skipn (cursor st) (queue st))
      | None => []
      end.
Proof.
  revert h S. induction fuel as [|f IH]; intros h S Hh Hnd HS.
  { exists O. destruct (S !! addr); reflexivity. }
  destruct h as [|item h'].
  { exists O. destruct (S !! addr); reflexivity. }
  destruct (Hh item (or_introl eq_refl)) as (st & Hst & Hnth & Hfrom).
  apply NoDup_cons in Hnd as [Hnin Hnd'].
  cbn [select_loop]. rewrite Hst.
  set (a := State.with_rc (State.with_nonce (acct st) (u64 (ANonce (acct st) + 1)))
              (if cost item <=? RC (State.with_nonce (acct st) (u64 (ANonce (acct st) + 1)))
               then RC (State.with_nonce (acct st) (u64 (ANonce (acct st) + 1))) - cost item
               else 0)
              (RCMax (State.with_nonce (acct st) (u64 (ANonce (acct st) + 1))))
              (LastRCEffectiveTime (State.with_nonce (acct st) (u64 (ANonce (acct st) + 1))))).
  set (S' := <[sender item := mkSenderState a (Datatypes.S (cursor st)) (queue st)]> S).
  assert (HS' : forall a0 st0, S' !! a0 = Some st0 ->
                  Forall (fun t => From t = a0) (queue st0)).
  { intros a0 st0. unfold S'. destruct (decide (sender item = a0)) as [<-|Hne].
    - rewrite lookup_insert_eq. intros E; injection E as <-. cbn. exact (HS _ _ Hst).
    - rewrite lookup_insert_ne by exact Hne. apply HS. }
  assert (Hold : forall it, In it h' -> exists st0, S' !! sender it = Some st0 /\
     nth_error (queue st0) (cursor st0) = Some (tx it) /\ From (tx it) = sender it).
  { intros it Hin. unfold S'. rewrite lookup_insert_ne.
    - apply Hh. right. exact Hin.
    - intros Heq. apply Hnin. rewrite Heq. apply list_elem_of_In, in_map, Hin. }
  assert (Hrest : exists h'', (forall it, In it h'' -> exists st0,
       S' !! sender it = Some st0 /\
       nth_error (queue st0) (cursor st0) = Some (tx it) /\ From (tx it) = sender it)
     /\ NoDup (map sender h'')
     /\ match nth_error (queue st) (Datatypes.S (cursor st)) with
        | None => select_loop c f h' S'
        | Some next =>
            if negb (Nonce next =? ANonce a) then select_loop c f h' S'
            else if RC a <? TxCost c next then select_loop c f h' S'
            else select_loop c f (heap_push (mkItem next (TxCost c next)
                   (HashTransaction c next) (sender item)) h') S'
        end = select_loop c f h'' S').
  { destruct (nth_error (queue st) (Datatypes.S (cursor st))) as [next|] eqn:Hn.
    2: { exists h'. auto. }
    destruct (negb _). { exists h'. auto. }
    destruct (RC a <? _). { exists h'. auto. }
    eexists. split; [|split; [|reflexivity]].
    - intros it Hin.
      apply (Permutation_in _ (heap_push_perm _ _)) in Hin as [<-|Hin].
      + exists (mkSenderState a (Datatypes.S (cursor st)) (queue st)).
        split; [apply lookup_insert_eq|]. split; [exact Hn|]. cbn.
        pose proof (HS _ _ Hst) as Hq. rewrite Forall_forall in Hq.
        apply Hq. apply list_elem_of_In. eapply nth_error_In. exact Hn.
      + apply Hold. exact Hin.
    - apply (NoDup_Permutation_proper _ _ (Permutation_map sender (heap_push_perm _ _))).
      cbn [map]. apply NoDup_cons. split; [exact Hnin | exact Hnd']. }
  destruct Hrest as (h'' & Hh'' & Hnd'' & ->).
  destruct (IH h'' S' Hh'' Hnd'' HS') as [j Hj].
  cbn [List.filter]. rewrite Hfrom.
  destruct (String.eqb_spec (sender item) addr) as [<-|Hne].
  - exists (Datatypes.S j). rewrite Hj. unfold S'. rewrite lookup_insert_eq. cbn [cursor queue].
    rewrite Hst, (skipn_nth_error _ _ _ Hnth). reflexivity.
  - exists j. rewrite Hj. unfold S'. rewrite lookup_insert_ne by exact Hne. reflexivity.
Qed.

End Loop.

Lemma direct_items_senders (c : Coll) (p : pool) :
  map sender (direct_items c p) `sublist_of` map fst p.
Proof.
  induction p as [|[addr q] r IH]; cbn [direct_items map]; [constructor|].
  destruct (item_direct c (addr, q)) as [it|] eqn:E.
  - cbn [map fst]. unfold item_direct in E.
    destruct (GetAccount c addr); [|discriminate].
    destruct q; [discriminate|].
    destruct (negb _); [discriminate|]. destruct (_ <? _); [discriminate|].
    injection E as <-. apply sublist_skip. exact IH.
  - apply sublist_cons. exact IH.
Qed.

Lemma direct_items_in (c : Coll) (p : pool) (it : txItem) :
  In it (direct_items c p) ->
  exists q a, In (sender it, q) p /\ GetAccount c (sender it) = Some a /\
    q <> [] /\ nth_error q 0 = Some (tx it).
Proof.
  induction p as [|[addr q] r IH]; cbn [direct_items]; [intros []|].
  destruct (item_direct c (addr, q)) as [it'|] eqn:E.
  - intros [<-|Hin].
    + unfold item_direct in E.
      destruct (GetAccount c addr) as [a|] eqn:Ea; [|discriminate].
      destruct q as [|t q']; [discriminate|].
      destruct (negb _); [discriminate|]. destruct (_ <? _); [discriminate|].
      injection E as <-. exists (t :: q'), a. cbn.
      split; [left; reflexivity|]. split; [exact Ea|]. split; [discriminate|reflexivity].
    + destruct (IH Hin) as (q0 & a & Hin0 & Ha & Hq & Hn).
      exists q0, a. split; [right; exact Hin0|]. auto.
  - intros Hin. destruct (IH Hin) as (q0 & a & Hin0 & Ha & Hq & Hn).
    exists q0, a. split; [right; exact Hin0|]. auto.
Qed.

(** From each sender's queue, [SelectForBlock] takes a prefix, in queue
    order: the transactions it selects from one sender are the first [k]
    of that sender's queue, for some [k] (with one queue per sender and
    each queue holding its sender's transactions). *)
Theorem SelectForBlock_takes_queue_prefix (c : Coll) (p : pool) (max : Z)
    (addr : string) (q : list Transaction) :
  NoDup (map fst p) ->
  Forall (fun e => Forall (fun t => From t = fst e) (snd e)) p ->
  In (addr, q) p ->
  exists k, List.filter (fun t => String.eqb (From t) addr) (SelectForBlock c p max)
    = firstn k q.
Proof.
  intros Hnd Hf Hin.
  assert (Hnd' : List.NoDup (map fst p)) by (apply NoDup_ListNoDup; exact Hnd).
  unfold SelectForBlock. destruct (max <=? 0). { exists O. reflexivity. }
  set (S := build_senders c p).
  assert (HS : forall a st, S !! a = Some st -> Forall (fun t => From t = a) (queue st)).
  { intros a st Ha.
    destruct (in_dec String.string_dec a (map fst p)) as [Hk|Hk].
    - apply in_map_iff in Hk as [[a' q'] [Ha' Hin']]. cbn in Ha'. subst a'.
      unfold S in Ha. rewrite (build_senders_lookup c p a q' Hnd' Hin') in Ha.
      unfold sender_entry in Ha. destruct (GetAccount c a); [|discriminate].
      destruct q'; [discriminate|]. injection Ha as <-. cbn.
      rewrite Forall_forall in Hf. apply (Hf (a, t :: q')).
      apply list_elem_of_In. exact Hin'.
    - unfold S, build_senders in Ha. rewrite fold_senders_notin in Ha by exact Hk.
      rewrite lookup_empty in Ha. discriminate. }
  assert (Hseed : seed_heap c p S = fold_left (fun h it => heap_push it h)
                                        (direct_items c p) []).
  { unfold seed_heap. apply fold_seed_direct. intros a q' Hin'.
    apply build_senders_lookup; assumption. }
  edestruct (select_loop_prefix c (Z.to_nat max) (seed_heap c p S) S addr)
    as [j Hj].
  - intros it Hit. rewrite Hseed in Hit.
    apply (Permutation_in _ (fold_push_perm _ _)) in Hit. rewrite app_nil_r in Hit.
    destruct (direct_items_in c p it Hit) as (q0 & a0 & Hin0 & Ha0 & Hq0 & Hn0).
    exists (mkSenderState a0 0 q0). split; [|split; [exact Hn0|]].
    + unfold S. rewrite (build_senders_lookup c p _ q0 Hnd' Hin0).
      unfold sender_entry. rewrite Ha0. destruct q0; [congruence|reflexivity].
    + rewrite Forall_forall in Hf. specialize (Hf _ (proj2 (list_elem_of_In _ _) Hin0)).
      cbn in Hf. rewrite Forall_forall in Hf. apply Hf.
      apply list_elem_of_In. eapply nth_error_In. exact Hn0.
  - rewrite Hseed.
    apply (NoDup_Permutation_proper _ _ (Permutation_map sender (fold_push_perm _ _))).
    rewrite app_nil_r. exact (sublist_NoDup _ _ Hnd (direct_items_senders c p)).
  - exact HS.
  - rewrite Hj. unfold S. rewrite (build_senders_lookup c p addr q Hnd' Hin).
    unfold sender_entry. destruct (GetAccount c addr); [|exists O; reflexivity].
    destruct q; [exists O; reflexivity|]. exists j. reflexivity.
Qed.

Lemma SelectForBlock_takes_queue_prefix_witness :
  exists k, List.filter (fun t => String.eqb (From t) "a")
              (SelectForBlock literal_coll literal_pool 3)
            = firstn k [txA0; txA1].
Proof.
  apply SelectForBlock_takes_queue_prefix.
  - cbn. repeat constructor; set_solver.
  - repeat constructor.
  - left. reflexivity.
Defined.

End SelectExtra.

(* ------------------------------------------------------------------ *)
Module PayloadEnvelopeFacts.
Import Wire WireFacts FieldFacts State PayloadCodec PayloadFacts.




End PayloadEnvelopeFacts.

(* ------------------------------------------------------------------ *)
Module AccountCodecFacts.
Import Wire WireFacts FieldFacts PayloadCodec PayloadFacts StoreCodec StoreCodecFacts.

Lemma decode_marshalAccount_prefix (a : Account) (r : bytes) :
  0 <= Balance a < 2 ^ 64 -> 0 <= ANonce a < 2 ^ 64 -> 0 <= AStake a < 2 ^ 64 ->
  0 <= RC a < 2 ^ 64 -> 0 <= RCMax a < 2 ^ 64 -> in_i64 (LastRCEffectiveTime a) ->
  Z.of_nat (length (marshalAccount a ++ r)) < 2 ^ 64 ->
  decode_fields account_step (zero_account ""%string) (marshalAccount a ++ r)
  = decode_fields account_step a r.
Proof.
  intros Hb Hn Hs Hr Hm Ht Hl.
  rewrite marshalAccount_eq in Hl |- *. rewrite !length_app in Hl.
  rewrite <- !app_assoc.
  bfield Hl. do 6 vfield.
  destruct a as [addr bal non stk rc rcm last code pk];
    cbn [AAddress Balance ANonce AStake RC RCMax LastRCEffectiveTime Code PubKey] in *.
  destruct code as [|c0 code'], pk as [|p0 pk']; cbn [length Nat.ltb Nat.leb] in *;
    rewrite ?app_nil_l.
  - rewrite of_bytes_str, i64_u64 by exact Ht. reflexivity.
  - rewrite <- app_assoc. bfield Hl.
    rewrite of_bytes_str, i64_u64 by exact Ht. reflexivity.
  - rewrite <- app_assoc. bfield Hl.
    rewrite of_bytes_str, i64_u64 by exact Ht. reflexivity.
  - rewrite <- !app_assoc. bfield Hl. bfield Hl.
    rewrite of_bytes_str, i64_u64 by exact Ht. reflexivity.
Qed.

Lemma account_step_unknown (num typ : Z) (b : bytes) (a : Account) :
  10 <= num ->
  account_step num typ b a = skip_field num typ b a.
Proof.
  intros H. unfold account_step.
  repeat (rewrite (proj2 (Z.eqb_neq num _)) by lia). reflexivity.
Qed.

(** [unmarshalAccount] skips fields it does not know: an encoded account
    followed by a varint field and a bytes field of numbers above 9
    decodes to the same account. *)
Theorem unmarshalAccount_skips_unknown_fields (a : Account) (num1 num2 v : Z) (w : bytes) :
  0 <= Balance a < 2 ^ 64 -> 0 <= ANonce a < 2 ^ 64 -> 0 <= AStake a < 2 ^ 64 ->
  0 <= RC a < 2 ^ 64 -> 0 <= RCMax a < 2 ^ 64 -> in_i64 (LastRCEffectiveTime a) ->
  10 <= num1 < 2 ^ 31 -> 10 <= num2 < 2 ^ 31 -> 0 <= v < 2 ^ 64 ->
  Z.of_nat (length (marshalAccount a ++ AppendTag [] num1 VarintType ++ AppendVarint [] v
                    ++ AppendTag [] num2 BytesType ++ AppendBytes [] w)) < 2 ^ 64 ->
  unmarshalAccount (marshalAccount a ++ AppendTag [] num1 VarintType ++ AppendVarint [] v
                    ++ AppendTag [] num2 BytesType ++ AppendBytes [] w) = Some a.
Proof.
  intros Hb Hn Hs Hr Hm Ht H1 H2 Hv Hl. unfold unmarshalAccount.
  rewrite decode_marshalAccount_prefix by assumption.
  rewrite !length_app in Hl.
  erewrite decode_varint_field; [| lia |].
  2: { rewrite account_step_unknown by lia. unfold skip_field, ConsumeFieldValue.
       cbn [consumeFieldValueD Z.eqb VarintType].
       rewrite ConsumeVarint_AppendVarint by exact Hv. reflexivity. }
  rewrite <- (app_nil_r (AppendBytes [] w)).
  erewrite decode_bytes_field; [| lia |].
  2: { rewrite account_step_unknown by lia. unfold skip_field, ConsumeFieldValue.
       cbn [consumeFieldValueD Z.eqb VarintType Fixed32Type Fixed64Type BytesType].
       rewrite ConsumeBytes_AppendBytes by fits Hl. reflexivity. }
  apply decode_fields_nil.
Qed.

Lemma unmarshalAccount_skips_unknown_fields_witness :
  unmarshalAccount (marshalAccount (mkAccount "alice" 100 0 100 1000 1000 (-7) [] Scenarios.pkA)
                    ++ AppendTag [] 10 VarintType ++ AppendVarint [] 5
                    ++ AppendTag [] 12 BytesType ++ AppendBytes [] [Byte.x01])
  = Some (mkAccount "alice" 100 0 100 1000 1000 (-7) [] Scenarios.pkA).
Proof.
  apply unmarshalAccount_skips_unknown_fields; cbn -[Z.pow];
    first [lia | unfold in_i64; lia | vm_compute; reflexivity].
Defined.

End AccountCodecFacts.

(* ------------------------------------------------------------------ *)
Module ValidatorPowerFacts.
Import DPoS DPoSOps DPoSFactsExtra ExtraScenarios.

Lemma total_power_sum (d : validators) :
  VTotalPower (ValidatorSet d)
  = u64 (fold_right Z.add 0 (map Power (map snd (map_to_list d)))).
Proof.
  unfold ValidatorSet, validator_set_of. cbn [VTotalPower].
  change 0 with (u64 0) at 1. rewrite fold_power. reflexivity.
Qed.

Lemma power_sum_insert_new (d : validators) (k : string) (v : Validator) :
  d !! k = None ->
  fold_right Z.add 0 (map Power (map snd (map_to_list (<[k := v]> d))))
  = Power v + fold_right Z.add 0 (map Power (map snd (map_to_list d))).
Proof.
  intros Hk. rewrite (sum_power_perm _ ((v :: map snd (map_to_list d)))).
  - reflexivity.
  - apply (Permutation_map snd (map_to_list_insert d k v Hk)).
Qed.

Lemma power_sum_insert_existing (d : validators) (k : string) (v v' : Validator) :
  d !! k = Some v ->
  fold_right Z.add 0 (map Power (map snd (map_to_list (<[k := v']> d))))
  = fold_right Z.add 0 (map Power (map snd (map_to_list d))) - Power v + Power v'.
Proof.
  intros Hk.
  rewrite <- (insert_delete_eq d k v').
  rewrite <- (insert_delete_id d k v Hk) at 2.
  rewrite !power_sum_insert_new by apply lookup_delete_eq. lia.
Qed.

Lemma u64_replace (s p q a : Z) :
  u64 q = u64 (p + a) -> u64 (s - p + q) = u64 (u64 s + a).
Proof.
  unfold u64. intros H.
  rewrite <- Zplus_mod_idemp_r, H, Zplus_mod_idemp_r, Zplus_mod_idemp_l.
  f_equal. lia.
Qed.

(** The total power of [ValidatorSet] follows the operations: a
    successful [Delegate] adds the amount, a successful [Undelegate]
    subtracts it and a successful [RegisterValidator] adds the stake, all
    modulo 2^64. *)
Theorem ValidatorSet_total_power_tracks (d : validators) (delegator validator : string)
    (amount minStake maxValidators : Z) (pk : list Byte.byte) (commission : Z) :
  (forall d', Delegate d delegator validator amount = (None, d') ->
     VTotalPower (ValidatorSet d') = u64 (VTotalPower (ValidatorSet d) + amount))
  /\ (forall d', Undelegate d delegator validator amount = (None, d') ->
     VTotalPower (ValidatorSet d') = u64 (VTotalPower (ValidatorSet d) - amount))
  /\ (forall d', RegisterValidator minStake maxValidators d validator pk amount commission
                 = (None, d') ->
     VTotalPower (ValidatorSet d') = u64 (VTotalPower (ValidatorSet d) + amount)).
Proof.
  rewrite !total_power_sum. split; [|split]; intros d' H.
  - unfold Delegate in H. destruct (d !! validator) as [v|] eqn:Hv; [|discriminate].
    destruct (amount =? 0); [discriminate|]. injection H as <-.
    rewrite total_power_sum, (power_sum_insert_existing _ _ v) by exact Hv.
    apply u64_replace. cbn [Power with_delegation_power]. unfold u64. apply Zmod_mod.
  - unfold Undelegate in H. destruct (d !! validator) as [v|] eqn:Hv; [|discriminate].
    destruct (_ <? amount); [discriminate|]. injection H as <-.
    rewrite total_power_sum, (power_sum_insert_existing _ _ v) by exact Hv.
    set (s := fold_right Z.add 0 (map Power (map snd (map_to_list d)))).
    replace (u64 (u64 s - amount)) with (u64 (u64 s + - amount)) by (f_equal; lia).
    apply u64_replace. cbn [Power with_delegation_power].
    unfold u64. rewrite Zmod_mod. reflexivity.
  - unfold RegisterValidator in H.
    destruct (amount <? minStake); [discriminate|].
    destruct (d !! validator) eqn:Hv; [discriminate|].
    destruct (_ <=? _); [discriminate|]. injection H as <-.
    rewrite total_power_sum, power_sum_insert_new by exact Hv. cbn [Power].
    unfold u64. rewrite Zplus_mod_idemp_l. f_equal. lia.
Qed.

Lemma ValidatorSet_total_power_tracks_witness :
  VTotalPower (ValidatorSet (snd (Delegate two_validators "x" "a" 3)))
  = u64 (VTotalPower (ValidatorSet two_validators) + 3).
Proof.
  apply (proj1 (ValidatorSet_total_power_tracks two_validators "x" "a" 3 0 0 [] 0)).
  vm_compute. reflexivity.
Defined.

End ValidatorPowerFacts.

(* ------------------------------------------------------------------ *)
Module MempoolDuplicateFacts.
Import TxVerify MempoolAdd MempoolAddFacts ExtraScenarios.

Lemma insert_by_nonce_twice (txn t : Transaction) (q q' : list Transaction) :
  insert_by_nonce txn q = Some q' -> Nonce t = Nonce txn ->
  insert_by_nonce t q' = None.
Proof.
  revert q'. induction q as [|e rest IH]; intros q' Hi Ht; cbn [insert_by_nonce] in Hi.
  - injection Hi as <-. cbn. rewrite Ht, Z.eqb_refl. reflexivity.
  - destruct (Z.eqb_spec (Nonce txn) (Nonce e)); [discriminate|].
    destruct (Z.ltb_spec (Nonce txn) (Nonce e)).
    + injection Hi as <-. cbn. rewrite Ht, Z.eqb_refl. reflexivity.
    + destruct (insert_by_nonce txn rest) as [r|] eqn:Hr; [|discriminate].
      injection Hi as <-. cbn [insert_by_nonce].
      rewrite Ht. rewrite (proj2 (Z.eqb_neq _ _) n).
      replace (Nonce txn <? Nonce e) with false by (symmetry; apply Z.ltb_ge; lia).
      rewrite (IH r eq_refl Ht). reflexivity.
Qed.

(** Once [AddTx] has queued [txn], no transaction of the same sender and
    nonce is accepted into the resulting pool, and resubmitting [txn]
    itself fails with the duplicate-nonce error. *)
Theorem AddTx_rejects_same_nonce (c : AddColl) (txn : Transaction) (pool pool' : pool_map) :
  AddTx c txn pool = inr pool' ->
  AddTx c txn pool' = inl ErrDuplicateNonce /\
  forall t pool'', From t = From txn -> Nonce t = Nonce txn ->
    AddTx c t pool' <> inr pool''.
Proof.
  intros H.
  assert (Hq : exists q', insert_by_nonce txn (default [] (pool !! From txn)) = Some q'
                          /\ pool' = <[From txn := q']> pool).
  { revert H. unfold AddTx.
    repeat match goal with
    | |- context [if ?b then _ else _] => destruct b
    | |- context [match ?m with _ => _ end] =>
        lazymatch m with
        | insert_by_nonce _ _ => fail
        | _ => destruct m
        end
    end; try discriminate.
    destruct (insert_by_nonce _ _) as [q'|]; [|discriminate].
    intros E. injection E as <-. eauto. }
  destruct Hq as (q' & Hi & ->).
  assert (Hnone : forall t, From t = From txn -> Nonce t = Nonce txn ->
            insert_by_nonce t (default [] (<[From txn := q']> pool !! From t)) = None).
  { intros t Hf Hn. rewrite Hf, lookup_insert_eq. cbn.
    exact (insert_by_nonce_twice txn t _ q' Hi Hn). }
  split.
  - revert H. unfold AddTx. rewrite (Hnone txn eq_refl eq_refl).
    repeat match goal with
    | |- context [if ?b then _ else _] => destruct b
    | |- context [match ?m with _ => _ end] =>
        lazymatch m with
        | insert_by_nonce _ _ => fail
        | _ => destruct m
        end
    end; congruence.
  - intros t pool'' Hf Hn. unfold AddTx. rewrite (Hnone t Hf Hn).
    repeat match goal with
    | |- context [if ?b then _ else _] => destruct b
    | |- context [match ?m with _ => _ end] => destruct m
    end; discriminate.
Qed.

Lemma AddTx_rejects_same_nonce_witness :
  AddTx add_coll Scenarios.tx_alice
    (match AddTx add_coll Scenarios.tx_alice queued with
     | inr p => p | inl _ => queued end) = inl ErrDuplicateNonce.
Proof.
  apply (proj1 (AddTx_rejects_same_nonce add_coll Scenarios.tx_alice queued
                  (match AddTx add_coll Scenarios.tx_alice queued with
                   | inr p => p | inl _ => queued end)
                  ltac:(vm_compute; reflexivity))).
Defined.

End MempoolDuplicateFacts.
